(** * qq: asynchronous combinators over the Q promise library

    A shallow embedding of [qq.js]: the queue whose values can be dequeued
    before they are enqueued, the shallow and deep resolvers and the
    reducers.  The promise library [Q] the module is written against is
    modelled as a small machine: a store of promise cells, a heap of
    JavaScript objects and the queue of tasks the event loop still has to
    run.

    The file has two parts.  The first holds the model of the code and the
    definitions the statements are written with: the calls of a client of a
    queue, the schedules in which the inputs of a call are settled, composite
    values as trees, and the invariants of the proofs.  The second holds the
    proofs: the queue is first in, first out and [close] is final; [deep]
    leaves a resolved value as it is; [reduceLeft] combines by position;
    [consolidate] visits inherited members; [reduce] throws.  Further
    properties of the same functions follow, proved from a forecast of what
    every promise settles to: a get on an open queue waits; [shallow]
    replaces the settled members of an object by their values; the reducers
    fold an array of settled elements. *)

From stdpp Require Import base numbers list strings.
From Stdlib Require Import ZArith Lia.

Open Scope Z_scope.
Open Scope nat_scope.

(** ** Values *)

(** Property keys: names, and array indices. *)
Inductive key :=
| Name (s : string)
| Index (n : nat).

(** JavaScript values.  [VObj] is a reference into the heap, [VProm] a
    reference into the store of promises, [VErr] an error object as the
    engine raises it ([ReferenceError], [TypeError]).  Numbers are the
    integers the claims use; [VNaN] is the result of arithmetic on anything
    else. *)
Inductive val :=
| VUndef
| VNull
| VBool (b : bool)
| VNum (z : Z)
| VNaN
| VStr (s : string)
| VErr (name message : string)
| VObj (r : nat)
| VProm (p : nat).

#[global] Instance key_eq_dec : EqDecision key.
Proof. solve_decision. Defined.

#[global] Instance val_eq_dec : EqDecision val.
Proof. solve_decision. Defined.

(** Heap objects.  A plain object has its own properties, in insertion
    order, and a prototype (None stands for [Object.prototype], which has no
    enumerable property).  An array is the list of its elements.  A date is
    opaque. *)
Inductive obj :=
| OObject (props : list (key * val)) (proto : option nat)
| OArray (elems : list val)
| ODate (time : Z).

(** ** Callbacks

    Every function the module passes to [Q.when] is one constructor, with
    the variables it closes over. *)

(** Which resolver [consolidate] was given: the identity ([shallow]) or
    [deep] itself. *)
Inductive resolver := Shallow | Deep.

(** [Array.prototype.reduce] or [Array.prototype.reduceRight]. *)
Inductive direction := Reduce | ReduceRight.

(** The outcome of a synchronous call: a value or a thrown exception. *)
Inductive res (A : Type) :=
| Ok (a : A)
| Throw (e : val).
Arguments Ok {A} a.
Arguments Throw {A} e.

(** A combining function as the caller supplies it: [callback.call(that,
    values, value)]. *)
Definition combiner := val → val → val → res val.

Inductive kont :=
(* Queue.get, line 54: function (reason) { closed.resolve(); return Q.reject(reason); } *)
| K_get_rejected (closed : nat)
(* consolidate, line 197: function (object) { ... } *)
| K_consolidate (deep : resolver)
(* consolidate, line 208: function () { return Q.when(deep(value), ...); } *)
| K_member (deep : resolver) (object : val) (i : key) (value : val)
(* consolidate, line 209: function (value) { object[i] = value; } *)
| K_assign (object : val) (i : key)
(* consolidate, line 215: function () { return object; } *)
| K_object (object : val)
(* reducer, line 246: function (that) { return Q.when(values, ...); } *)
| K_that (dir : direction) (values : val) (callback : combiner) (basis : val)
(* reducer, line 247: function (values) { return values[direction](..., basis); } *)
| K_values (dir : direction) (callback : combiner) (basis : val) (that : val)
(* reducer, line 249: function (values) { return Q.when(value, ...); } *)
| K_accumulated (callback : combiner) (that : val) (value : val)
(* reducer, line 250: function (value) { return callback.call(that, values, value); } *)
| K_combine (callback : combiner) (that : val) (values : val)
(* reduce, line 272: function (value) { return Q.when(value, ...); } *)
| K_each (accumulators : nat) (callback : combiner) (that : val) (reduction : nat)
(* reduce, line 273: function (value) { accumulators.push(value); reduce(); } *)
| K_arrived (accumulators : nat) (callback : combiner) (that : val) (reduction : nat)
(* reduce, line 277: function () { reduction.resolve(accumulators.shift()); } *)
| K_reduced (accumulators : nat) (reduction : nat)
(* reduce, line 280: function (reason) { reduction.reject({"child": reason}); } *)
| K_child_failed (reduction : nat)
(* reduce, line 293: function (value) { accumulators.push(value); reduce(); } *)
| K_combined (accumulators : nat) (callback : combiner) (that : val) (reduction : nat)
(* reduce, line 296: function (reason) { reduction.reject({"message": ..., "child": reason}); } *)
| K_combination_failed (reduction : nat).

(** ** The promise store *)

(** A message waiting for a promise: [when] with its two callbacks, or
    [get] of a property; [d] is the deferred that takes the outcome. *)
Inductive msg :=
| MWhen (d : nat) (fulfilled rejected : option kont)
| MGet (d : nat) (name : key).

(** A deferred is pending, with the messages that wait for it, or resolved:
    to a plain value (fulfilled) or to another promise (which it then
    follows).  [Q.reject] makes a promise that is rejected from the start. *)
Inductive cell :=
| Pending (waiters : list msg)
| Resolved (v : val)
| Rejected (reason : val).

(** A task of the event loop: deliver the message to the target in a later
    turn. *)
Inductive task :=
| Send (target : val) (m : msg).

Record state := State {
  cells : list cell;
  heap : list obj;
  tasks : list task
}.

Definition set_cells (f : list cell → list cell) (s : state) : state :=
  State (f (cells s)) (heap s) (tasks s).
Definition set_heap (f : list obj → list obj) (s : state) : state :=
  State (cells s) (f (heap s)) (tasks s).
Definition set_tasks (f : list task → list task) (s : state) : state :=
  State (cells s) (heap s) (f (tasks s)).

Definition initial : state := State [] [] [].

(** ** The monad of synchronous code: state and exceptions *)

Definition M (A : Type) := state → res A * state.

Definition ret {A} (a : A) : M A := λ s, (Ok a, s).
Definition throw {A} (e : val) : M A := λ s, (Throw e, s).
Definition bind {A B} (m : M A) (f : A → M B) : M B :=
  λ s, match m s with
       | (Ok a, s') => f a s'
       | (Throw e, s') => (Throw e, s')
       end.

Notation "'do' x <- m ; k" := (bind m (λ x, k))
  (at level 10, x name, m at level 100, k at level 200, only parsing).

Definition modify (f : state → state) : M unit := λ s, (Ok tt, f s).
Definition gets {A} (f : state → A) : M A := λ s, (Ok (f s), s).
Definition exec {A} (m : M A) (s : state) : state := snd (m s).

(** ** The heap *)

Definition new_object (o : obj) : M nat :=
  λ s, (Ok (length (heap s)), set_heap (λ h, h ++ [o]) s).

Fixpoint assoc (k : key) (l : list (key * val)) : option val :=
  match l with
  | [] => None
  | (k', v) :: l' => if decide (k = k') then Some v else assoc k l'
  end.

Fixpoint assoc_set (k : key) (v : val) (l : list (key * val)) : list (key * val) :=
  match l with
  | [] => [(k, v)]
  | (k', v') :: l' =>
      if decide (k = k') then (k, v) :: l' else (k', v') :: assoc_set k v l'
  end.

(** [object[k]] on a heap object, through the prototype chain. *)
Fixpoint lookup_prop (fuel : nat) (h : list obj) (r : nat) (k : key) : val :=
  match h !! r with
  | Some (OObject props proto) =>
      match assoc k props with
      | Some v => v
      | None =>
          match proto, fuel with
          | Some r', S fuel' => lookup_prop fuel' h r' k
          | _, _ => VUndef
          end
      end
  | Some (OArray elems) =>
      match k with
      | Index n => default VUndef (elems !! n)
      | Name s => if decide (s = "length") then VNum (Z.of_nat (length elems)) else VUndef
      end
  | _ => VUndef
  end.

(** [v[k]]: a property of anything.  Reading a property of [undefined] or
    [null] throws. *)
Definition get_member (v : val) (k : key) : M val :=
  match v with
  | VUndef | VNull => throw (VErr "TypeError" "cannot read property")
  | VObj r => gets (λ s, lookup_prop (length (heap s)) (heap s) r k)
  | _ => ret VUndef
  end.

(** [object[k] = v]: always an own property; an array grows when the index
    is past its end. *)
Definition assign (o : obj) (k : key) (v : val) : obj :=
  match o with
  | OObject props proto => OObject (assoc_set k v props) proto
  | OArray elems =>
      match k with
      | Index n =>
          if decide (n < length elems) then OArray (<[n:=v]> elems)
          else OArray (elems ++ replicate (n - length elems) VUndef ++ [v])
      | Name _ => OArray elems
      end
  | ODate t => ODate t
  end.

Definition set_member (r : nat) (k : key) (v : val) : M unit :=
  modify (set_heap (λ h, match h !! r with
                         | Some o => <[r := assign o k v]> h
                         | None => h
                         end)).

(** The keys [for (var i in object)] visits: the object's own keys, then
    those of its prototype chain that are not shadowed.  The keys of an
    object are visited in the order of its list of properties, which is the
    order of the loop for keys that are not array indices; the indices of
    an array are visited from the first. *)
Fixpoint for_in (fuel : nat) (h : list obj) (r : nat) (seen : list key) : list key :=
  match h !! r with
  | Some (OObject props proto) =>
      let own := filter (λ k, k ∉ seen) (props.*1) in
      match proto, fuel with
      | Some r', S fuel' => own ++ for_in fuel' h r' (seen ++ own)
      | _, _ => own
      end
  | Some (OArray elems) => filter (λ k, k ∉ seen) (Index <$> seq 0 (length elems))
  | _ => []
  end.

(** ** Q *)

(** [Q.defer()] *)
Definition defer : M nat :=
  λ s, (Ok (length (cells s)), set_cells (λ c, c ++ [Pending []]) s).

(** [Q.reject(reason)] *)
Definition reject (reason : val) : M val :=
  λ s, (Ok (VProm (length (cells s))), set_cells (λ c, c ++ [Rejected reason]) s).

Definition enqueue (t : task) : M unit :=
  modify (set_tasks (λ q, q ++ [t])).

(** [deferred.resolve(x)]: only a pending deferred is resolved; its
    waiters are forwarded to [x] in later turns. *)
Definition resolve (d : nat) (x : val) : M unit :=
  λ s, match cells s !! d with
       | Some (Pending ws) =>
           (Ok tt, State (<[d := Resolved x]> (cells s)) (heap s)
                         (tasks s ++ (Send x <$> ws)))
       | _ => (Ok tt, s)
       end.

(** [Q.when(value, fulfilled, rejected)] *)
Definition when (value : val) (fulfilled rejected : option kont) : M val :=
  do d <- defer;
  do _ <- enqueue (Send value (MWhen d fulfilled rejected));
  ret (VProm d).

(** [Q.get(object, name)] *)
Definition Qget (object : val) (name : key) : M val :=
  do d <- defer;
  do _ <- enqueue (Send object (MGet d name));
  ret (VProm d).

(** An exception a callback throws becomes a rejection. *)
Definition catch (m : M val) : M val :=
  λ s, match m s with
       | (Ok v, s') => (Ok v, s')
       | (Throw e, s') => reject e s'
       end.

(** ** The module's functions *)

Definition typeof (v : val) : string :=
  match v with
  | VUndef => "undefined"
  | VBool _ => "boolean"
  | VNum _ | VNaN => "number"
  | VStr _ => "string"
  | VNull | VErr _ _ | VObj _ | VProm _ => "object"
  end.

Definition instanceof_Date (h : list obj) (v : val) : bool :=
  match v with
  | VObj r => match h !! r with Some (ODate _) => true | _ => false end
  | _ => false
  end.

(** The keys of [for (var i in object)] for any value that reaches the
    loop. *)
Definition for_in_val (h : list obj) (object : val) : list key :=
  match object with
  | VObj r => for_in (length h) h r []
  | _ => []
  end.

Definition set_member_val (object : val) (k : key) (v : val) : M unit :=
  match object with
  | VObj r => set_member r k v
  | _ => ret tt
  end.

(** [consolidate(object, deep)], line 196. *)
Definition consolidate (object : val) (deep : resolver) : M val :=
  when object (Some (K_consolidate deep)) None.

(** [shallow(object)], line 176, and [deep(object)], line 192. *)
Definition shallow (object : val) : M val := consolidate object Shallow.
Definition deep (object : val) : M val := consolidate object Deep.

(** The [deep] parameter of [consolidate] applied to a member: the
    identity function [shallow] passes, or [deep]. *)
Definition call_resolver (r : resolver) (value : val) : M val :=
  match r with
  | Shallow => ret value
  | Deep => deep value
  end.

(** The loop of lines 206-214: one [Q.when] per key, each chained on the
    one before; [object[i]] is read when the loop runs. *)
Fixpoint members (r : resolver) (object : val) (keys : list key) (synchronize : val)
  : M val :=
  match keys with
  | [] => ret synchronize
  | i :: keys' =>
      do value <- get_member object i;
      do synchronize' <- when synchronize (Some (K_member r object i value)) None;
      members r object keys' synchronize'
  end.

(** [values[direction](function (values, value) {...}, basis)], line 248:
    the fold runs at once and chains one [Q.when] per element. *)
Fixpoint chain (callback : combiner) (that : val) (elems : list val) (acc : val)
  : M val :=
  match elems with
  | [] => ret acc
  | value :: elems' =>
      do acc' <- when acc (Some (K_accumulated callback that value)) None;
      chain callback that elems' acc'
  end.

(** [values[direction]] is the method of an array; any other value of the
    model has no such method of its own, and what an object could inherit
    from a prototype that is an array is not modelled: the call throws. *)
Definition array_reduce (dir : direction) (callback : combiner) (that : val)
  (values basis : val) : M val :=
  do h <- gets heap;
  match values with
  | VObj r =>
      match h !! r with
      | Some (OArray elems) =>
          chain callback that
            (match dir with Reduce => elems | ReduceRight => rev elems end) basis
      | _ => throw (VErr "TypeError" "not a function")
      end
  | VUndef | VNull => throw (VErr "TypeError" "cannot read property")
  | _ => throw (VErr "TypeError" "not a function")
  end.

Definition lift {A} (r : res A) : M A := λ s, (r, s).

(** [deferred.reject(reason)] is [deferred.resolve(Q.reject(reason))]. *)
Definition reject_deferred (d : nat) (reason : val) : M unit :=
  do r <- reject reason;
  resolve d r.

(** [accumulators.push(v)], [accumulators.shift()], [accumulators.length]. *)
Definition push (a : nat) (v : val) : M unit :=
  modify (set_heap (λ h, match h !! a with
                         | Some (OArray l) => <[a := OArray (l ++ [v])]> h
                         | _ => h
                         end)).

Definition shift (a : nat) : M val :=
  λ s, match heap s !! a with
       | Some (OArray (x :: l)) => (Ok x, set_heap (λ h, <[a := OArray l]> h) s)
       | _ => (Ok VUndef, s)
       end.

Definition array_length (a : nat) : M nat :=
  gets (λ s, match heap s !! a with Some (OArray l) => length l | _ => 0 end).

(** The inner function [reduce()], line 286. *)
Definition attempt (accumulators : nat) (callback : combiner) (that : val)
  (reduction : nat) : M unit :=
  do n <- array_length accumulators;
  if decide (n < 2) then ret tt
  else
    do a <- shift accumulators;
    do b <- shift accumulators;
    do r <- lift (callback that a b);
    do _ <- when r (Some (K_combined accumulators callback that reduction))
                   (Some (K_combination_failed reduction));
    ret tt.

(** The body of each callback. *)
Definition apply_kont (k : kont) (x : val) : M val :=
  match k with
  | K_get_rejected closed =>
      do _ <- resolve closed VUndef;
      reject x
  | K_consolidate r =>
      do h <- gets heap;
      if negb (bool_decide (typeof x = "object"))
         || bool_decide (x = VNull)
         || instanceof_Date h x
      then ret x
      else
        do synchronize <- members r x (for_in_val h x) VUndef;
        when synchronize (Some (K_object x)) None
  | K_member r object i value =>
      do v <- call_resolver r value;
      when v (Some (K_assign object i)) None
  | K_assign object i =>
      do _ <- set_member_val object i x;
      ret VUndef
  | K_object object => ret object
  | K_that dir values callback basis =>
      when values (Some (K_values dir callback basis x)) None
  | K_values dir callback basis that =>
      array_reduce dir callback that x basis
  | K_accumulated callback that value =>
      when value (Some (K_combine callback that x)) None
  | K_combine callback that values =>
      lift (callback that values x)
  | K_each accumulators callback that reduction =>
      when x (Some (K_arrived accumulators callback that reduction)) None
  | K_arrived accumulators callback that reduction
  | K_combined accumulators callback that reduction =>
      do _ <- push accumulators x;
      do _ <- attempt accumulators callback that reduction;
      ret VUndef
  | K_reduced accumulators reduction =>
      do v <- shift accumulators;
      do _ <- resolve reduction v;
      ret VUndef
  | K_child_failed reduction =>
      do reason <- new_object (OObject [(Name "child", x)] None);
      do _ <- reject_deferred reduction (VObj reason);
      ret VUndef
  | K_combination_failed reduction =>
      do reason <- new_object (OObject [(Name "message", VStr "error in reduction");
                                        (Name "child", x)] None);
      do _ <- reject_deferred reduction (VObj reason);
      ret VUndef
  end.

(** ** reduce, line 266 *)

(** An argument of a call: a value, or one of the module's functions. *)
Inductive arg :=
| AVal (v : val)
| AFun (k : kont).

(** The identifier [UTIL] of line 272.  The module declares [Q], [has],
    [name], [Queue], [shallow], [deep], [consolidate], [reduceLeft],
    [reduceRight], [reducer] and [reduce], and its two parameters [require]
    and [exports]; [UTIL] is none of them and nothing assigns it, so
    evaluating it raises a ReferenceError. *)
Definition UTIL : M val := throw (VErr "ReferenceError" "UTIL is not defined").

(** The property [shallow] of the promise library: [Q] has none, [shallow]
    is a function of this module ([exports.shallow]). *)
Definition Q_shallow : val := VUndef.

(** Calling a value.  The functions of the module are [kont]s and the
    combining function is a [combiner]; no JavaScript value of the model is
    a function, so the call raises a TypeError. *)
Definition call (f : val) (args : list arg) : M val :=
  throw (VErr "TypeError" "not a function").

(** [accumulator] is [Some] when the call has more than two arguments. *)
Definition reduce (values : val) (callback : combiner) (accumulator : option val)
  (that : val) : M val :=
  do accumulators <- new_object (OArray []);
  do _ <- match accumulator with
          | Some a => push accumulators a
          | None => ret tt
          end;
  do reduction <- defer;
  do util <- UTIL;
  do map <- get_member util (Name "map");
  do mapped <- call map [AVal values; AFun (K_each accumulators callback that reduction)];
  do promise <- call Q_shallow [AVal mapped];
  do _ <- when promise (Some (K_reduced accumulators reduction))
                       (Some (K_child_failed reduction));
  ret (VProm reduction).

(** [reducer(direction)], line 244. *)
Definition reducer (dir : direction) (values : val) (callback : combiner)
  (basis that : val) : M val :=
  when that (Some (K_that dir values callback basis)) None.

Definition reduceLeft := reducer Reduce.
Definition reduceRight := reducer ReduceRight.

(** ** The event loop *)

Definition deliver_fulfilled (v : val) (m : msg) : M unit :=
  match m with
  | MWhen d fulfilled _ =>
      do r <- catch (match fulfilled with
                     | Some k => apply_kont k v
                     | None => ret v
                     end);
      resolve d r
  | MGet d name =>
      do r <- catch (get_member v name);
      resolve d r
  end.

Definition deliver_rejected (p : nat) (reason : val) (m : msg) : M unit :=
  match m with
  | MWhen d _ rejected =>
      do r <- catch (match rejected with
                     | Some k => apply_kont k reason
                     | None => ret (VProm p)
                     end);
      resolve d r
  | MGet d _ => resolve d (VProm p)
  end.

(** One turn: the first task is taken off the queue and its message
    delivered, parked or forwarded. *)
Definition step (s : state) : state :=
  match tasks s with
  | [] => s
  | Send x m :: rest =>
      let s' := State (cells s) (heap s) rest in
      match x with
      | VProm p =>
          match cells s !! p with
          | Some (Pending ws) => set_cells (λ c, <[p := Pending (ws ++ [m])]> c) s'
          | Some (Resolved v) => set_tasks (λ q, q ++ [Send v m]) s'
          | Some (Rejected reason) => exec (deliver_rejected p reason m) s'
          | None => s'
          end
      | _ => exec (deliver_fulfilled x m) s'
      end
  end.

Fixpoint run (fuel : nat) (s : state) : state :=
  match fuel with
  | 0 => s
  | S fuel' => run fuel' (step s)
  end.

Definition quiescent (s : state) : Prop := tasks s = [].

(** What a value has settled to: a promise is followed through the
    promises it was resolved to. *)
Inductive outcome :=
| Fulfilled (v : val)
| Failed (reason : val)
| Unsettled.

Fixpoint settled (fuel : nat) (c : list cell) (x : val) : outcome :=
  match x with
  | VProm p =>
      match c !! p, fuel with
      | Some (Resolved v), S fuel' => settled fuel' c v
      | Some (Rejected reason), _ => Failed reason
      | _, _ => Unsettled
      end
  | _ => Fulfilled x
  end.

Definition outcome_of (s : state) (x : val) : outcome :=
  settled (length (cells s)) (cells s) x.

(** ** Queue, line 39 *)

(** The variables the three methods close over: the deferred [ends], whose
    [promise] and [resolve] fields the methods overwrite, and [closed]. *)
Record queue := {
  ends_promise : val;
  ends_resolve : nat;
  closed : nat
}.

Definition Queue : M queue :=
  do ends <- defer;
  do closed <- defer;
  ret {| ends_promise := VProm ends; ends_resolve := ends; closed := closed |}.

Definition put (q : queue) (value : val) : M queue :=
  do next <- defer;
  do cell <- new_object (OObject [(Name "head", value); (Name "tail", VProm next)] None);
  do _ <- resolve (ends_resolve q) (VObj cell);
  ret {| ends_promise := ends_promise q; ends_resolve := next; closed := closed q |}.

Definition get (q : queue) : M (val * queue) :=
  do result <- Qget (ends_promise q) (Name "head");
  do tail <- Qget (ends_promise q) (Name "tail");
  do r <- when result None (Some (K_get_rejected (closed q)));
  ret (r, {| ends_promise := tail; ends_resolve := ends_resolve q; closed := closed q |}).

Definition close (q : queue) (reason : val) : M val :=
  do rejection <- reject reason;
  do end_ <- new_object (OObject [(Name "head", rejection)] None);
  do _ <- set_member end_ (Name "tail") (VObj end_);
  do _ <- resolve (ends_resolve q) (VObj end_);
  ret (VProm (closed q)).

(** ** The queue: what each promise and each object is for *)

Inductive role :=
| RD (j : nat)      (* the deferred that takes the cell at position j *)
| RT (i : nat)      (* Q.get(ends.promise, "tail") of the i-th get *)
| RR (i : nat)      (* Q.get(ends.promise, "head") of the i-th get *)
| RW (i : nat)      (* the promise the i-th get returns *)
| RClosed           (* the deferred closed *)
| RRej              (* a rejection with the reason of close *)
| RJunk.            (* made after close, reachable from no cursor *)

Inductive orole :=
| OCell (j : nat)   (* {head: v_j, tail: ...} *)
| OEnd              (* the cell close makes, its own tail *)
| OJunk.

Record ghost := Ghost {
  puts : list val;
  reason : option val;
  ngets : nat;
  roles : list role;
  oroles : list orole
}.

Definition plain (v : val) : Prop := ∀ p, v ≠ VProm p.

Definition at_pos (g : ghost) (j : nat) (x : val) : Prop :=
  match x with
  | VProm p => roles g !! p = Some (RD j) ∨ ∃ i, j = S i ∧ roles g !! p = Some (RT i)
  | VObj o => oroles g !! o = Some (OCell j)
              ∨ (oroles g !! o = Some OEnd ∧ length (puts g) ≤ j ∧ reason g ≠ None)
  | _ => False
  end.

Definition low (g : ghost) (x : val) : Prop :=
  ∀ p, x = VProm p → ∃ j, roles g !! p = Some (RD j).

Definition res_of (g : ghost) (i : nat) (x : val) : Prop :=
  puts g !! i = Some x
  ∨ ∃ p, x = VProm p ∧ roles g !! p = Some RRej ∧ length (puts g) ≤ i
         ∧ reason g ≠ None.

Definition at_res (g : ghost) (i : nat) (x : val) : Prop :=
  (∃ p, x = VProm p ∧ roles g !! p = Some (RR i)) ∨ res_of g i x.

Inductive good (g : ghost) (c : nat) : val → msg → Prop :=
| good_head d i x :
    roles g !! d = Some (RR i) → at_pos g i x → good g c x (MGet d (Name "head"))
| good_tail d i x :
    roles g !! d = Some (RT i) → at_pos g i x → good g c x (MGet d (Name "tail"))
| good_when d i x :
    roles g !! d = Some (RW i) → at_res g i x →
    good g c x (MWhen d None (Some (K_get_rejected c))).

Definition cell_ok (g : ghost) (q : queue) (p : nat) (r : role) (c : cell) : Prop :=
  match r, c with
  | RD j, Pending _ => j = length (puts g) ∧ reason g = None ∧ p = ends_resolve q
  | RD j, Resolved x =>
      ∃ o, x = VObj o ∧
           (oroles g !! o = Some (OCell j)
            ∨ (oroles g !! o = Some OEnd ∧ j = length (puts g) ∧ reason g ≠ None))
  | RT i, Pending _ => True
  | RT i, Resolved x => at_pos g (S i) x ∧ low g x
  | RR i, Pending _ | RW i, Pending _ => True
  | RR i, Resolved x | RW i, Resolved x => res_of g i x
  | RClosed, Pending _ => True
  | RClosed, Resolved x => x = VUndef
  | RRej, Rejected r => reason g = Some r
  | RJunk, _ => True
  | _, _ => False
  end.

Definition obj_ok (g : ghost) (o : nat) (r : orole) (ob : obj) : Prop :=
  match r with
  | OCell j =>
      ∃ v d, puts g !! j = Some v ∧ roles g !! d = Some (RD (S j)) ∧
             ob = OObject [(Name "head", v); (Name "tail", VProm d)] None
  | OEnd =>
      ∃ rj, roles g !! rj = Some RRej ∧ reason g ≠ None ∧
            ob = OObject [(Name "head", VProm rj); (Name "tail", VObj o)] None
  | OJunk => True
  end.

Definition message_of (c : nat) (d : nat) (r : role) : option msg :=
  match r with
  | RR _ => Some (MGet d (Name "head"))
  | RT _ => Some (MGet d (Name "tail"))
  | RW _ => Some (MWhen d None (Some (K_get_rejected c)))
  | _ => None
  end.

Definition inflight (s : state) (m : msg) : Prop :=
  (∃ x, Send x m ∈ tasks s)
  ∨ ∃ p ws, cells s !! p = Some (Pending ws) ∧ m ∈ ws.

Definition cursor_ok (g : ghost) (x : val) : Prop :=
  ∃ c, x = VProm c ∧
       ((ngets g = 0 ∧ roles g !! c = Some (RD 0))
        ∨ ∃ i, ngets g = S i ∧ roles g !! c = Some (RT i)).

(** The invariant, with the cells in [X] left out of the two clauses a
    call breaks before it restores them. *)
Record InvX (X : nat → Prop) (g : ghost) (q : queue) (s : state) : Prop := {
  inv_roles : length (roles g) = length (cells s);
  inv_oroles : length (oroles g) = length (heap s);
  inv_plain : Forall plain (puts g);
  inv_cells : ∀ p r c, ¬ X p →
    roles g !! p = Some r → cells s !! p = Some c → cell_ok g q p r c;
  inv_heap : ∀ o r ob,
    oroles g !! o = Some r → heap s !! o = Some ob → obj_ok g o r ob;
  inv_tasks : ∀ x m, Send x m ∈ tasks s → good g (closed q) x m;
  inv_waiters : ∀ p ws m,
    cells s !! p = Some (Pending ws) → m ∈ ws → good g (closed q) (VProm p) m;
  inv_live : ∀ d r ws m, ¬ X d →
    roles g !! d = Some r → cells s !! d = Some (Pending ws) →
    message_of (closed q) d r = Some m → inflight s m;
  inv_cursor : cursor_ok g (ends_promise q);
  inv_ends :
    roles g !! ends_resolve q = Some (RD (length (puts g)))
    ∨ (reason g ≠ None ∧ roles g !! ends_resolve q = Some RJunk);
  inv_closed : roles g !! closed q = Some RClosed;
  inv_observed : ∀ w i p,
    roles g !! w = Some (RW i) → cells s !! w = Some (Resolved (VProm p)) →
    cells s !! closed q = Some (Resolved VUndef);
  inv_signalled : ∀ x,
    cells s !! closed q = Some (Resolved x) →
    ∃ w i p, roles g !! w = Some (RW i) ∧ length (puts g) ≤ i ∧
             cells s !! w = Some (Resolved (VProm p));
  inv_issued : ∀ w i, roles g !! w = Some (RW i) → i < ngets g
}.

Definition Inv := InvX (λ _, False).

(** The ghost state only grows, and the puts stop at close. *)
Record ext (g g' : ghost) : Prop := {
  ext_roles : roles g `prefix_of` roles g';
  ext_oroles : oroles g `prefix_of` oroles g';
  ext_puts : puts g `prefix_of` puts g';
  ext_reason : reason g ≠ None → puts g' = puts g ∧ reason g' = reason g
}.

Definition deferred (m : msg) : nat :=
  match m with MWhen d _ _ => d | MGet d _ => d end.

(** [resolve] on a deferred that nothing waits for. *)
Definition settle_cell (d : nat) (x : val) (cs : list cell) : list cell :=
  match cs !! d with
  | Some (Pending _) => <[d := Resolved x]> cs
  | _ => cs
  end.

(** What a step may do to the ghost state: add roles for new promises. *)
Record same_queue (g g' : ghost) : Prop := {
  same_ext : ext g g';
  same_puts : puts g' = puts g;
  same_reason : reason g' = reason g;
  same_ngets : ngets g' = ngets g;
  same_gets : ∀ w i, roles g' !! w = Some (RW i) → roles g !! w = Some (RW i)
}.

(** ** Queue: how far the event loop is from running dry *)

Fixpoint npending (cs : list cell) : nat :=
  match cs with
  | [] => 0
  | Pending _ :: cs' => S (npending cs')
  | _ :: cs' => npending cs'
  end.

(** Turns a message still needs before it is parked or delivered. *)
Definition wt (g : ghost) (x : val) : nat :=
  match x with
  | VProm p =>
      match roles g !! p with
      | Some (RT _) => 3
      | Some (RD _) | Some (RR _) => 2
      | _ => 1
      end
  | _ => 1
  end.

Definition weight (g : ghost) (t : task) : nat :=
  match t with Send x _ => wt g x end.

Definition load (g : ghost) (ts : list task) : nat := sum_list_with (weight g) ts.

(** Position [j] of the queue holds a value or the rejection of close. *)

Definition avail (g : ghost) (j : nat) : Prop := j < length (puts g) ∨ reason g ≠ None.

(** ** Queue: the calls of a client *)

(** What a client does with a queue, one call at a time; [Turn] lets the
    event loop run one task. *)
Inductive op :=
| Put (v : val)
| Get
| Close (reason : val)
| Turn.

(** The queue, the machine, and the promises [get] has returned so far. *)
Record session := Session {
  queue_of : queue;
  state_of : state;
  got : list val
}.

Definition perform (o : op) (x : session) : option session :=
  match o with
  | Put v =>
      match put (queue_of x) v (state_of x) with
      | (Ok q, s) => Some (Session q s (got x))
      | (Throw _, _) => None
      end
  | Get =>
      match get (queue_of x) (state_of x) with
      | (Ok (r, q), s) => Some (Session q s (got x ++ [r]))
      | (Throw _, _) => None
      end
  | Close reason =>
      match close (queue_of x) reason (state_of x) with
      | (Ok _, s) => Some (Session (queue_of x) s (got x))
      | (Throw _, _) => None
      end
  | Turn => Some (Session (queue_of x) (step (state_of x)) (got x))
  end.

Fixpoint performs (ops : list op) (x : session) : option session :=
  match ops with
  | [] => Some x
  | o :: ops' =>
      match perform o x with
      | Some x' => performs ops' x'
      | None => None
      end
  end.

(** A fresh queue, then the calls. *)
Definition play (ops : list op) : option session :=
  match Queue initial with
  | (Ok q, s) => performs ops (Session q s [])
  | (Throw _, _) => None
  end.

(** The values put before the queue was closed, and the reason of the
    first close. *)
Fixpoint queued (ops : list op) : list val :=
  match ops with
  | [] => []
  | Put v :: ops' => v :: queued ops'
  | Close _ :: _ => []
  | _ :: ops' => queued ops'
  end.

Fixpoint shut (ops : list op) : option val :=
  match ops with
  | [] => None
  | Close reason :: _ => Some reason
  | _ :: ops' => shut ops'
  end.

Fixpoint gets_in (ops : list op) : nat :=
  match ops with
  | [] => 0
  | Get :: ops' => S (gets_in ops')
  | _ :: ops' => gets_in ops'
  end.

Definition plain_op (o : op) : Prop :=
  match o with Put v => plain v | _ => True end.

(** The event loop has run dry [k] turns after the session. *)
Definition settles (x : session) (k : nat) : Prop :=
  quiescent (run k (state_of x)).

Definition outcome_at (x : session) (k : nat) (r : val) : outcome :=
  outcome_of (run k (state_of x)) r.



(** The ghost state follows the calls. *)
Record tracks (g : ghost) (x : session) : Prop := {
  tr_inv : Inv g (queue_of x) (state_of x);
  tr_len : length (got x) = ngets g;
  tr_got : ∀ i r, got x !! i = Some r → ∃ w, r = VProm w ∧ roles g !! w = Some (RW i);
  tr_all : ∀ w i, roles g !! w = Some (RW i) → got x !! i = Some (VProm w)
}.

(** The values these calls put are not promises. *)
Ltac plain_ops :=
  repeat (constructor; [first [exact I | intros ?; discriminate]|]); constructor.

(** The calls with every put left out. *)
Fixpoint without_puts (ops : list op) : list op :=
  match ops with
  | [] => []
  | Put _ :: ops' => without_puts ops'
  | o :: ops' => o :: without_puts ops'
  end.

(** ** Settling the inputs of a call in any order *)

(** The caller makes the call once, and each input future is settled once;
    the event loop runs any number of turns in between. *)
Inductive event :=
| Call
| Settle (i : nat).

#[global] Instance event_eq_dec : EqDecision event.
Proof. solve_decision. Defined.

(** The machine and, once the call is made, what it returned. *)
Record world := World {
  w_state : state;
  w_result : option (res val)
}.

Section Schedules.
(** The call, and the value each input future settles to: future [i] is
    the deferred at index [i] of the store. *)
Variable call : M val.
Variable inputs : list val.

Definition fire (e : event) (w : world) : world :=
  match e with
  | Call => let (r, s) := call (w_state w) in World s (Some r)
  | Settle i =>
      World (exec (resolve i (default VUndef (inputs !! i))) (w_state w)) (w_result w)
  end.

Definition advance (k : nat) (w : world) : world :=
  World (run k (w_state w)) (w_result w).

(** A schedule: the number of turns before each event. *)
Fixpoint follow (sched : list (nat * event)) (w : world) : world :=
  match sched with
  | [] => w
  | (k, e) :: sched' => follow sched' (fire e (advance k w))
  end.

(** How many turns until the event loop has run dry, if at most [fuel]. *)
Fixpoint turns_left (fuel : nat) (s : state) : option nat :=
  match tasks s with
  | [] => Some 0
  | _ =>
      match fuel with
      | 0 => None
      | S fuel' => S <$> turns_left fuel' (step s)
      end
  end.

Fixpoint remove_one (e : event) (es : list event) : list event :=
  match es with
  | [] => []
  | e' :: es' => if decide (e = e') then es' else e' :: remove_one e es'
  end.

Variable final : world → bool.

(** Every schedule of the events [es] from [w] ends in a world that
    passes [final] once it has run dry.  Turns past the point where the
    event loop is dry change nothing, so they need not be tried. *)
Fixpoint check (n fuel : nat) (es : list event) (w : world) : bool :=
  match turns_left fuel (w_state w) with
  | None => false
  | Some t =>
      match es, n with
      | [], _ => final (advance t w)
      | _, 0 => false
      | _, S n' =>
          forallb (λ k,
            forallb (λ e, check n' fuel (remove_one e es) (fire e (advance k w))) es)
            (seq 0 (S t))
      end
  end.
End Schedules.

#[global] Instance outcome_eq_dec : EqDecision outcome.
Proof. solve_decision. Defined.

Definition subtract : combiner :=
  λ _ a b, match a, b with
           | VNum x, VNum y => Ok (VNum (x - y))
           | _, _ => Ok VNaN
           end.

Definition fulfils (v : val) (w : world) : bool :=
  match w_result w with
  | Some (Ok r) => bool_decide (outcome_of (w_state w) r = Fulfilled v)
  | _ => false
  end.

Definition three_futures : world :=
  World (State [Pending []; Pending []; Pending []]
               [OArray [VProm 0; VProm 1; VProm 2]] []) None.

Definition reduceLeft_call : M val := reduceLeft (VObj 0) subtract (VNum 10) VUndef.

(** ** Composite values *)

(** Values that are not references. *)
Inductive prim :=
| PUndef
| PNull
| PBool (b : bool)
| PNum (z : Z)
| PNaN
| PStr (s : string).

Definition val_of (a : prim) : val :=
  match a with
  | PUndef => VUndef
  | PNull => VNull
  | PBool b => VBool b
  | PNum z => VNum z
  | PNaN => VNaN
  | PStr s => VStr s
  end.

(** A composite value with no future left in it: a tree of plain objects
    and arrays, with primitive values and dates at the leaves. *)
#[local] Unset Elimination Schemes.
Inductive tree :=
| Leaf (a : prim)
| TDate (time : Z)
| TObject (members : list (key * tree))
| TArray (elems : list tree).

#[local] Set Elimination Schemes.

(** The tree laid out in the heap, members before the container that holds
    them; the value is the reference to its root. *)
Fixpoint store (t : tree) (h : list obj) : list obj * val :=
  match t with
  | Leaf a => (h, val_of a)
  | TDate time => (h ++ [ODate time], VObj (length h))
  | TObject members =>
      let '(h', props) :=
        (fix members_in (ms : list (key * tree)) (h : list obj) :=
           match ms with
           | [] => (h, [])
           | (k, t') :: ms' =>
               let '(h1, v) := store t' h in
               let '(h2, props) := members_in ms' h1 in
               (h2, (k, v) :: props)
           end) members h in
      (h' ++ [OObject props None], VObj (length h'))
  | TArray elems =>
      let '(h', vs) :=
        (fix elems_in (ts : list tree) (h : list obj) :=
           match ts with
           | [] => (h, [])
           | t' :: ts' =>
               let '(h1, v) := store t' h in
               let '(h2, vs) := elems_in ts' h1 in
               (h2, v :: vs)
           end) elems h in
      (h' ++ [OArray vs], VObj (length h'))
  end.

(** The members the loop of [consolidate] visits, with the values it
    reads. *)
Definition kvs (h : list obj) (r : nat) : list (key * val) :=
  (λ k, (k, lookup_prop (length h) h r k)) <$> for_in (length h) h r [].

(** The test of line 198: the values [consolidate] returns as they are. *)
Definition is_leaf (h : list obj) (x : val) : bool :=
  negb (bool_decide (typeof x = "object")) || bool_decide (x = VNull) || instanceof_Date h x.

(** A member that is neither a future nor a reference to a later object. *)
Definition child_ok (r : nat) (c : val) : Prop :=
  match c with
  | VObj r' => r' < r
  | VProm _ | VErr _ _ => False
  | _ => True
  end.

Definition obj_wf (r : nat) (o : obj) : Prop :=
  match o with
  | OObject props proto => proto = None ∧ Forall (child_ok r) props.*2
  | OArray elems => Forall (child_ok r) elems
  | ODate _ => True
  end.

Definition heap_wf (h : list obj) : Prop :=
  ∀ r o, h !! r = Some o → obj_wf r o.

(** ** How much work deep resolution is

    For each object of the heap, from the first: the rank its promise needs
    and the number of messages its resolution sends. *)
Definition need_val (tbl : list (nat * nat)) (v : val) : nat :=
  match v with
  | VObj r => default 1 (fst <$> tbl !! r)
  | _ => 1
  end.

Definition work_val (tbl : list (nat * nat)) (v : val) : nat :=
  match v with
  | VObj r => default 0 (snd <$> tbl !! r)
  | _ => 0
  end.

Definition entry (tbl : list (nat * nat)) (h : list obj) (r : nat) : nat * nat :=
  if instanceof_Date h (VObj r) then (1, 0)
  else
    let cs := (kvs h r).*2 in
    (sum_list_with (λ c, need_val tbl c + 3) cs + 2,
     sum_list_with (λ c, work_val tbl c + 3) cs + 1).

Fixpoint table_upto (n : nat) (h : list obj) : list (nat * nat) :=
  match n with
  | 0 => []
  | S n' => let tbl := table_upto n' h in tbl ++ [entry tbl h n']
  end.

Definition table (h : list obj) : list (nat * nat) := table_upto (length h) h.

(** ** Deep resolution of a resolved value: the invariant *)

(** For each promise, the value it will be fulfilled with, and a rank
    that bounds how many promises it has to follow first. *)
Record plan := Plan {
  exps : list val;
  ranks : list nat
}.

Definition expv (γ : plan) (x : val) : val :=
  match x with
  | VProm q => default VUndef (exps γ !! q)
  | _ => x
  end.

Definition rankv (γ : plan) (x : val) : nat :=
  match x with
  | VProm q => default 0 (ranks γ !! q)
  | _ => 0
  end.

Definition rank_of (γ : plan) (d : nat) : nat := default 0 (ranks γ !! d).

Definition target_ok (n : nat) (x : val) : Prop :=
  match x with
  | VProm q => q < n
  | _ => True
  end.

Section Deep.
(** The heap, which deep resolution of a resolved value never changes. *)
Variable h : list obj.

Definition kont_ok (γ : plan) (k : kont) (e : val) (d : nat) : Prop :=
  match k with
  | K_consolidate Deep =>
      exps γ !! d = Some e ∧ child_ok (length h) e ∧ need_val (table h) e ≤ rank_of γ d
  | K_member Deep (VObj r) i c =>
      r < length h ∧ (i, c) ∈ kvs h r ∧ exps γ !! d = Some VUndef
      ∧ need_val (table h) c + 2 ≤ rank_of γ d
  | K_assign (VObj r) i =>
      r < length h ∧ (i, e) ∈ kvs h r ∧ exps γ !! d = Some VUndef
  | K_object o =>
      exps γ !! d = Some o ∧ child_ok (length h) o
  | _ => False
  end.

Definition msg_ok (γ : plan) (n : nat) (x : val) (m : msg) : Prop :=
  ∃ d k, m = MWhen d (Some k) None ∧ d < n ∧ target_ok n x
         ∧ kont_ok γ k (expv γ x) d ∧ rankv γ x < rank_of γ d.

Definition cell_fine (γ : plan) (n : nat) (p : nat) (c : cell) : Prop :=
  match c with
  | Pending _ => True
  | Resolved x =>
      target_ok n x ∧ exps γ !! p = Some (expv γ x) ∧ rankv γ x < rank_of γ p
      ∧ ∀ q, x = VProm q → p < q
  | Rejected _ => False
  end.

Record J (γ : plan) (s : state) : Prop := {
  j_heap : heap s = h;
  j_exps : length (exps γ) = length (cells s);
  j_ranks : length (ranks γ) = length (cells s);
  j_cells : ∀ p c, cells s !! p = Some c → cell_fine γ (length (cells s)) p c;
  j_tasks : ∀ x m, Send x m ∈ tasks s → msg_ok γ (length (cells s)) x m;
  j_waiters : ∀ p ws m,
    cells s !! p = Some (Pending ws) → m ∈ ws →
    msg_ok γ (length (cells s)) (VProm p) m;
  j_live : ∀ d ws,
    cells s !! d = Some (Pending ws) →
    ∃ x m, deferred m = d ∧
           (Send x m ∈ tasks s
            ∨ ∃ p ws', cells s !! p = Some (Pending ws') ∧ m ∈ ws')
}.

(** Messages still to be sent, counting those a message will cause. *)
Definition pot (e : val) (m : msg) : nat :=
  match m with
  | MWhen _ (Some (K_consolidate _)) _ => work_val (table h) e
  | MWhen _ (Some (K_member _ _ _ c)) _ => 2 + work_val (table h) c
  | _ => 0
  end.

Definition twork (γ : plan) (t : task) : nat :=
  match t with Send x m => 1 + pot (expv γ x) m end.

Definition cwork (γ : plan) (p : nat) (c : cell) : nat :=
  match c with
  | Pending ws => sum_list_with (λ m, 1 + pot (expv γ (VProm p)) m) ws
  | _ => 0
  end.

Definition work (γ : plan) (s : state) : nat :=
  sum_list_with (twork γ) (tasks s) + sum_list (imap (cwork γ) (cells s)).

Definition hops (γ : plan) (ts : list task) : nat :=
  sum_list_with (λ t, match t with Send x _ => 1 + rankv γ x end) ts.
End Deep.

(** ** Deep resolution: what the proof keeps track of *)

(** The plan only grows. *)
Definition grows (γ γ' : plan) : Prop :=
  exps γ `prefix_of` exps γ' ∧ ranks γ `prefix_of` ranks γ'.

(** The promise the loop of [consolidate] has in [synchronize] after [j]
    members, the first of which is promise [n]. *)
Definition last_sync (j n : nat) (sync : val) : val :=
  match j with
  | 0 => sync
  | S j' => VProm (n + j')
  end.

(** The messages the loop sends. *)
Fixpoint member_tasks (x : val) (l : list (key * val)) (n : nat) (sync : val)
  : list task :=
  match l with
  | [] => []
  | (i, c) :: l' =>
      Send sync (MWhen n (Some (K_member Deep x i c)) None)
      :: member_tasks x l' (S n) (VProm n)
  end.

Definition smaller (h : list obj) (γ γ' : plan) (s s' : state) : Prop :=
  work h γ' s' < work h γ s
  ∨ (work h γ' s' = work h γ s ∧ hops γ' (tasks s') < hops γ (tasks s)).

(** The ranks of the promises the loop makes for the members [cs]. *)
Definition member_ranks (tbl : list (nat * nat)) (cs : list val) : list nat :=
  (λ j, sum_list_with (λ c, need_val tbl c + 3) (take (S j) cs)) <$> seq 0 (length cs).

(** ** Trees in the heap *)

(** The members of an object and the elements of an array, laid out one
    after the other. *)
Fixpoint store_members (ms : list (key * tree)) (h : list obj)
  : list obj * list (key * val) :=
  match ms with
  | [] => (h, [])
  | (k, t') :: ms' =>
      let '(h1, v) := store t' h in
      let '(h2, props) := store_members ms' h1 in
      (h2, (k, v) :: props)
  end.

Fixpoint store_elems (ts : list tree) (h : list obj) : list obj * list val :=
  match ts with
  | [] => (h, [])
  | t' :: ts' =>
      let '(h1, v) := store t' h in
      let '(h2, vs) := store_elems ts' h1 in
      (h2, v :: vs)
  end.

Section TreeInd.
Variable P : tree → Prop.
Hypothesis Pleaf : ∀ a, P (Leaf a).
Hypothesis Pdate : ∀ time, P (TDate time).
Hypothesis Pobject : ∀ ms, Forall (λ kt, P kt.2) ms → P (TObject ms).
Hypothesis Parray : ∀ ts, Forall P ts → P (TArray ts).

Fixpoint tree_ind (t : tree) : P t :=
  match t with
  | Leaf a => Pleaf a
  | TDate time => Pdate time
  | TObject ms =>
      Pobject ms
        ((fix go (ms : list (key * tree)) : Forall (λ kt, P kt.2) ms :=
            match ms with
            | [] => @List.Forall_nil _ _
            | kt :: ms' => @List.Forall_cons _ _ _ _ (tree_ind kt.2) (go ms')
            end) ms)
  | TArray ts =>
      Parray ts
        ((fix go (ts : list tree) : Forall P ts :=
            match ts with
            | [] => @List.Forall_nil _ _
            | t' :: ts' => @List.Forall_cons _ _ _ _ (tree_ind t') (go ts')
            end) ts)
  end.
End TreeInd.

(** What laying out a tree guarantees. *)
Definition stored (t : tree) : Prop :=
  ∀ h, heap_wf h →
    heap_wf (store t h).1 ∧ child_ok (length (store t h).1) (store t h).2
    ∧ length h ≤ length (store t h).1.

(** ** The examples of the specification *)

#[global] Instance obj_eq_dec : EqDecision obj.
Proof. solve_decision. Defined.

#[global] Instance res_eq_dec {A} `{EqDecision A} : EqDecision (res A).
Proof. solve_decision. Defined.

(** The call returned a promise which is fulfilled with [v], and the heap
    is [h]. *)
Definition fulfils_in (v : val) (h : list obj) (w : world) : bool :=
  fulfils v w && bool_decide (heap (w_state w) = h).

(** [{a: Future(1), b: [Future(2), Future(3)]}]: the array is object 0, the
    object is object 1, and the futures are the deferreds 0, 1 and 2. *)
Definition nested : world :=
  World (State [Pending []; Pending []; Pending []]
               [OArray [VProm 1; VProm 2];
                OObject [(Name "a", VProm 0); (Name "b", VObj 0)] None] []) None.

(** [{a: 1, b: [2, 3]}] in the same two objects. *)
Definition nested_resolved : list obj :=
  [OArray [VNum 2; VNum 3];
   OObject [(Name "a", VNum 1); (Name "b", VObj 0)] None].

(** A combining function that writes down what it is applied to. *)
Definition bracket : combiner :=
  λ _ a b, match a, b with
           | VStr x, VStr y => Ok (VStr ("(" ++ x ++ "-" ++ y ++ ")"))
           | _, _ => Ok VNaN
           end.

Definition reduceLeft_bracket : M val :=
  reduceLeft (VObj 0) bracket (VStr "10") VUndef.

(** An object with the own property [a: 1] whose prototype has the
    enumerable property [x: Future(5)]: the prototype is object 0, the
    object is object 1 and the future is the deferred 0. *)
Definition inheriting : state :=
  State [Pending []]
        [OObject [(Name "x", VProm 0)] None;
         OObject [(Name "a", VNum 1)] (Some 0)] [].

(** The resolver is called, the event loop runs dry, the future is
    fulfilled with 5 and the event loop runs dry again. *)
Definition resolve_inheriting (r : resolver) : res val * state :=
  let (p, s) := consolidate (VObj 1) r inheriting in
  (p, run 20 (exec (resolve 0 (VNum 5)) (run 20 s))).

Definition add : combiner :=
  λ _ a b, match a, b with
           | VNum x, VNum y => Ok (VNum (x + y))
           | _, _ => Ok VNaN
           end.

Definition four_futures : world :=
  World (State [Pending []; Pending []; Pending []; Pending []]
               [OArray [VProm 0; VProm 1; VProm 2; VProm 3]] []) None.

Definition reduce_sum : M val := reduce (VObj 0) add None VUndef.

(** The call threw [e], and no promise of the store is fulfilled with [v]. *)
Definition threw_without (e v : val) (w : world) : bool :=
  bool_decide (w_result w = Some (Throw e))
  && forallb (λ p, negb (bool_decide (outcome_of (w_state w) (VProm p) = Fulfilled v)))
             (seq 0 (length (cells (w_state w)))).

Definition UTIL_is_not_defined : val := VErr "ReferenceError" "UTIL is not defined".

(** A collection whose first element is rejected. *)
Definition one_rejected : state :=
  State [Rejected (VStr "boom"); Pending []] [OArray [VProm 0; VProm 1]] [].

(** ** Forecasts

    For each promise, what it will settle to, and a level that bounds how
    many promises it has to follow first.  Which callbacks may be sent
    which values, and what they cost, is left to each function. *)
Record forecast := Forecast {
  fates : list outcome;
  levels : list nat
}.

(** What a value is forecast to settle to, and its level. *)
Definition fate (φ : forecast) (x : val) : outcome :=
  match x with
  | VProm q => default Unsettled (fates φ !! q)
  | _ => Fulfilled x
  end.

Definition level (φ : forecast) (x : val) : nat :=
  match x with
  | VProm q => default 0 (levels φ !! q)
  | _ => 0
  end.

Definition level_of (φ : forecast) (d : nat) : nat := default 0 (levels φ !! d).

(** The forecast only grows. *)
Definition extends (φ φ' : forecast) : Prop :=
  fates φ `prefix_of` fates φ' ∧ levels φ `prefix_of` levels φ'.

Section Forecast.
(** What the heap may be, given the promises resolved so far; the values a
    callback may be applied to, with the deferred that takes what it
    returns; and a bound on the messages the callback will cause. *)
Variable hp : forecast → list cell → list obj → Prop.
Variable ok : forecast → kont → val → nat → Prop.
Variable cost : kont → val → nat.

(** A message in order: its deferred is above its target, and its callback
    may be applied to what the target is forecast to be fulfilled with, or
    its deferred is forecast to be rejected as the target is. *)
Definition note_ok (φ : forecast) (n : nat) (x : val) (m : msg) : Prop :=
  ∃ d k, m = MWhen d (Some k) None ∧ d < n ∧ target_ok n x
         ∧ level φ x < level_of φ d
         ∧ match fate φ x with
           | Fulfilled v => ok φ k v d
           | Failed e => fates φ !! d = Some (Failed e)
           | Unsettled => False
           end.

(** A promise that is resolved is forecast to settle as what it is
    resolved to does, which is of lower level. *)
Definition cell_sound (φ : forecast) (n : nat) (p : nat) (c : cell) : Prop :=
  match c with
  | Pending _ => True
  | Resolved x =>
      target_ok n x ∧ fates φ !! p = Some (fate φ x) ∧ level φ x < level_of φ p
  | Rejected r => fates φ !! p = Some (Failed r)
  end.

(** The state agrees with the forecast, and for every pending promise a
    message that will resolve it is on its way. *)
Record Sound (φ : forecast) (s : state) : Prop := {
  so_heap : hp φ (cells s) (heap s);
  so_fates : length (fates φ) = length (cells s);
  so_levels : length (levels φ) = length (cells s);
  so_cells : ∀ p c, cells s !! p = Some c → cell_sound φ (length (cells s)) p c;
  so_tasks : ∀ x m, Send x m ∈ tasks s → note_ok φ (length (cells s)) x m;
  so_waiters : ∀ p ws m,
    cells s !! p = Some (Pending ws) → m ∈ ws →
    note_ok φ (length (cells s)) (VProm p) m;
  so_live : ∀ d ws,
    cells s !! d = Some (Pending ws) →
    ∃ x m, deferred m = d ∧
           (Send x m ∈ tasks s
            ∨ ∃ p ws', cells s !! p = Some (Pending ws') ∧ m ∈ ws')
}.

(** Messages still to be sent, counting those a message will cause. *)
Definition toll (φ : forecast) (t : task) : nat :=
  match t with
  | Send x m =>
      1 + match m, fate φ x with
          | MWhen _ (Some k) _, Fulfilled v => cost k v
          | _, _ => 0
          end
  end.

Definition owed (φ : forecast) (p : nat) (c : cell) : nat :=
  match c with
  | Pending ws => sum_list_with (λ m, toll φ (Send (VProm p) m)) ws
  | _ => 0
  end.

Definition effort (φ : forecast) (s : state) : nat :=
  sum_list_with (toll φ) (tasks s) + sum_list (imap (owed φ) (cells s)).

(** How far the messages are from the values their targets follow. *)
Definition distance (φ : forecast) (ts : list task) : nat :=
  sum_list_with (λ t, match t with Send x _ => 1 + level φ x end) ts.

(** What a callback does when it is applied to a value it may be applied
    to: it throws what its deferred is forecast to be rejected with, or it
    makes promises, sends messages that are in order and returns what its
    deferred is forecast to settle to, in a heap that is as it may be
    whether or not its deferred takes the result. *)
Definition applies (φ : forecast) (cs : list cell) (h : list obj) (rest : list task)
  (k : kont) (v : val) (d : nat) : Prop :=
  (∃ e, apply_kont k v (State cs h rest) = (Throw e, State cs h rest)
        ∧ fates φ !! d = Some (Failed e))
  ∨ (∃ r nf nl newtasks h',
       apply_kont k v (State cs h rest)
       = (Ok r, State (cs ++ replicate (length nf) (Pending [])) h' (rest ++ newtasks))
       ∧ hp (Forecast (fates φ ++ nf) (levels φ ++ nl))
            (cs ++ replicate (length nf) (Pending [])) h'
       ∧ hp (Forecast (fates φ ++ nf) (levels φ ++ nl))
            (<[d := Resolved r]> (cs ++ replicate (length nf) (Pending []))) h'
       ∧ length nl = length nf
       ∧ (∀ y m, Send y m ∈ newtasks →
                 note_ok (Forecast (fates φ ++ nf) (levels φ ++ nl))
                         (length cs + length nf) y m)
       ∧ (∀ j, j < length nf →
               ∃ y m, deferred m = length cs + j ∧ Send y m ∈ newtasks)
       ∧ target_ok (length cs + length nf) r
       ∧ fates φ !! d = Some (fate (Forecast (fates φ ++ nf) (levels φ ++ nl)) r)
       ∧ level (Forecast (fates φ ++ nf) (levels φ ++ nl)) r < level_of φ d
       ∧ sum_list_with (toll (Forecast (fates φ ++ nf) (levels φ ++ nl))) newtasks
         ≤ cost k v).
End Forecast.


(** The promises of level below [l]. *)
Definition below (φ : forecast) (l : nat) : nat :=
  length (filter (λ x, x < l) (levels φ)).

(** A turn makes progress: less is left to do, or as much with the
    messages nearer to their targets. *)
Definition nearer (cost : kont → val → nat) (φ φ' : forecast) (s s' : state) : Prop :=
  effort cost φ' s' < effort cost φ s
  ∨ (effort cost φ' s' = effort cost φ s
     ∧ distance φ' (tasks s') < distance φ (tasks s)).

(** ** reducer on an array of values and settled promises *)






(** A store in which every promise is fulfilled with a value or rejected. *)
Definition settled_cell (c : cell) : Prop :=
  match c with
  | Pending _ => False
  | Resolved v => plain v
  | Rejected _ => True
  end.

(** An element that is a value or a promise of the store. *)
Definition element (cs : list cell) (e : val) : Prop :=
  match e with
  | VProm q => q < length cs
  | _ => True
  end.



(** An element as a forecast sees it: a value, or a promise that is
    forecast to settle and is at most one step from what it settles to. *)
Definition elem_ok (φ : forecast) (e : val) : Prop :=
  plain e
  ∨ ∃ q o l, e = VProm q ∧ fates φ !! q = Some o ∧ o ≠ Unsettled
             ∧ levels φ !! q = Some l ∧ l ≤ 1.





(** The forecast of a store of settled promises. *)
Definition cell_outcome (c : cell) : outcome :=
  match c with
  | Pending _ => Unsettled
  | Resolved v => Fulfilled v
  | Rejected e => Failed e
  end.

Definition cell_level (c : cell) : nat :=
  match c with
  | Resolved _ => 1
  | _ => 0
  end.


(** ** shallow on a container whose members are values or settled promises *)

Definition no_proto (o : obj) : Prop :=
  match o with
  | OObject _ proto => proto = None
  | _ => True
  end.

(** A key that may be an array index: an index, or a name written with
    digits only.  The loop [for (var i in object)] visits such keys of an
    object before its other keys, from the least, whatever the order in
    which they were added; the other keys it visits in the order in which
    they were added, as [for_in] does. *)
Definition digit (a : Ascii.ascii) : bool :=
  (48 <=? Ascii.nat_of_ascii a) && (Ascii.nat_of_ascii a <=? 57).

Fixpoint digits (s : string) : bool :=
  match s with
  | EmptyString => true
  | String a s' => digit a && digits s'
  end.

Definition index_like (k : key) : bool :=
  match k with
  | Index _ => true
  | Name EmptyString => false
  | Name s => digits s
  end.

(** An object none of whose keys may be an array index; the keys of an
    array are its indices, from the first. *)
Definition named (o : obj) : Prop :=
  match o with
  | OObject props _ => Forall (λ k, index_like k = false) props.*1
  | _ => True
  end.

(** The keys of an object and its members, in the order of the keys. *)
Definition keys_of (o : obj) : list key :=
  match o with
  | OObject props _ => props.*1
  | OArray elems => Index <$> seq 0 (length elems)
  | ODate _ => []
  end.

Definition members_of (o : obj) : list val :=
  match o with
  | OObject props _ => props.*2
  | OArray elems => elems
  | ODate _ => []
  end.

(** The object with other members under the same keys. *)
Definition with_members (o : obj) (l : list val) : obj :=
  match o with
  | OObject props proto => OObject (zip props.*1 l) proto
  | OArray _ => OArray l
  | ODate t => ODate t
  end.

(** The reason a member is rejected with, if it is a rejected promise. *)
Definition rejection (cs : list cell) (c : val) : option val :=
  match c with
  | VProm q => match cs !! q with Some (Rejected e) => Some e | _ => None end
  | _ => None
  end.

(** The value of a member: what a promise is resolved to, and any other
    member itself. *)
Definition value_of (cs : list cell) (c : val) : val :=
  match c with
  | VProm q => match cs !! q with Some (Resolved v) => v | _ => c end
  | _ => c
  end.

(** The reason of the first rejected member. *)
Fixpoint first_rejected (cs : list cell) (members : list val) : option val :=
  match members with
  | [] => None
  | c :: members' =>
      match rejection cs c with
      | Some e => Some e
      | None => first_rejected cs members'
      end
  end.

(** The members with each one before the first rejected member replaced by
    its value. *)
Fixpoint resolve_members (cs : list cell) (members : list val) : list val :=
  match members with
  | [] => []
  | c :: members' =>
      match rejection cs c with
      | Some _ => c :: members'
      | None => value_of cs c :: resolve_members cs members'
      end
  end.

(** What a member settles to, and the promise the loop has made when it
    has chained [j] members. *)
Definition store_fate (cs : list cell) (c : val) : outcome :=
  match rejection cs c with
  | Some e => Failed e
  | None => Fulfilled (value_of cs c)
  end.

Definition sync_fate (cs : list cell) (members : list val) (j : nat) : outcome :=
  match first_rejected cs (take j members) with
  | Some e => Failed e
  | None => Fulfilled VUndef
  end.

Definition loop_fate (cs : list cell) (members : list val) (v : val) : outcome :=
  match first_rejected cs members with
  | Some e => Failed e
  | None => Fulfilled v
  end.

(** The messages the loop of [consolidate] sends for a resolver. *)
Fixpoint loop_tasks (rs : resolver) (x : val) (l : list (key * val)) (n : nat)
  (sync : val) : list task :=
  match l with
  | [] => []
  | (i, c) :: l' =>
      Send sync (MWhen n (Some (K_member rs x i c)) None)
      :: loop_tasks rs x l' (S n) (VProm n)
  end.

Section ShallowForecast.
(** The store when [shallow] is called, and the object it is called on. *)
Variable cs0 : list cell.
Variable r : nat.
Variable o : obj.

(** What each callback of [shallow] may be applied to.  The promise of
    the [j]-th turn of the loop has level [2 * j + 4], the promise of the
    [j]-th assignment level [2 * j + 3]. *)
Definition shallow_ok (φ : forecast) (k : kont) (v : val) (d : nat) : Prop :=
  match k with
  | K_member Shallow (VObj r') i c =>
      r' = r
      ∧ ∃ j, keys_of o !! j = Some i ∧ members_of o !! j = Some c
             ∧ first_rejected cs0 (take j (members_of o)) = None
             ∧ elem_ok φ c ∧ fate φ c = store_fate cs0 c
             ∧ fates φ !! d = Some (sync_fate cs0 (members_of o) (S j))
             ∧ levels φ !! d = Some (2 * j + 4)
  | K_assign (VObj r') i =>
      r' = r
      ∧ ∃ j c, keys_of o !! j = Some i ∧ members_of o !! j = Some c
               ∧ first_rejected cs0 (take (S j) (members_of o)) = None
               ∧ v = value_of cs0 c
               ∧ fates φ !! d = Some (Fulfilled VUndef)
               ∧ levels φ !! d = Some (2 * j + 3)
  | K_object x =>
      x = VObj r ∧ fates φ !! d = Some (Fulfilled (VObj r))
      ∧ levels φ !! d = Some (2 * length (members_of o) + 4)
  | _ => False
  end.

Definition shallow_cost (k : kont) (v : val) : nat :=
  match k with
  | K_member _ _ _ _ => 1
  | _ => 0
  end.

(** The members of the object while [shallow] is at work: each one is as
    it was or has been replaced by its value, and has been replaced once
    the promise of its assignment is resolved. *)
Definition members_at (φ : forecast) (cs : list cell) (l : list val) : Prop :=
  length l = length (members_of o)
  ∧ (∀ j c, members_of o !! j = Some c →
            l !! j = Some c
            ∨ (first_rejected cs0 (take (S j) (members_of o)) = None
               ∧ l !! j = Some (value_of cs0 c)))
  ∧ (∀ d x y j, cs !! d = Some (Resolved x) → fates φ !! d = Some (Fulfilled y) →
                levels φ !! d = Some (2 * j + 4) → j < length (members_of o) →
                ∃ a, x = VProm a ∧ levels φ !! a = Some (2 * j + 3))
  ∧ (∀ a x y j c, cs !! a = Some (Resolved x) → fates φ !! a = Some (Fulfilled y) →
                  levels φ !! a = Some (2 * j + 3) → members_of o !! j = Some c →
                  l !! j = Some (value_of cs0 c)).

Definition shallow_heap (h0 : list obj) (φ : forecast) (cs : list cell)
  (h : list obj) : Prop :=
  ∃ l, h = <[r := with_members o l]> h0 ∧ members_at φ cs l.
End ShallowForecast.

(** The forecast when the callback of [consolidate] has run on the object:
    the store, the promise of the call, one promise for each member and the
    promise the loop ends with. *)
Definition shallow_forecast (cs : list cell) (r : nat) (o : obj) : forecast :=
  let members := members_of o in
  let m := length members in
  Forecast ((cell_outcome <$> cs)
            ++ [loop_fate cs members (VObj r)]
            ++ ((λ j, sync_fate cs members (S j)) <$> seq 0 m)
            ++ [loop_fate cs members (VObj r)])
           ((cell_level <$> cs)
            ++ [2 * m + 5]
            ++ ((λ j, 2 * j + 4) <$> seq 0 m)
            ++ [2 * m + 4]).

(** The store and the tasks then. *)
Definition shallow_cells (cs : list cell) (o : obj) : list cell :=
  cs ++ [Resolved (VProm (length cs + 1 + length (members_of o)))]
     ++ replicate (length (members_of o) + 1) (Pending []).

Definition shallow_tasks (cs : list cell) (r : nat) (o : obj) : list task :=
  loop_tasks Shallow (VObj r) (zip (keys_of o) (members_of o)) (length cs + 1) VUndef
  ++ [Send (last_sync (length (members_of o)) (length cs + 1) VUndef)
           (MWhen (length cs + 1 + length (members_of o))
                  (Some (K_object (VObj r))) None)].

(** * Proofs *)

(* stdpp's [naive_solver] clears hypotheses that are already gone. *)
#[local] Set Warnings "-clear-no-such-hyp".

(** ** Queue: every call and every turn keeps the invariant *)

(** The ghost state grows, and what was known of it stays known. *)
Lemma ext_refl g : ext g g.
Proof. split; done. Qed.

Lemma ext_role g g' p r : ext g g' → roles g !! p = Some r → roles g' !! p = Some r.
Proof. intros [H _ _ _] ?. by eapply prefix_lookup_Some. Qed.

Lemma ext_orole g g' p r : ext g g' → oroles g !! p = Some r → oroles g' !! p = Some r.
Proof. intros [_ H _ _] ?. by eapply prefix_lookup_Some. Qed.

Lemma ext_put g g' i v : ext g g' → puts g !! i = Some v → puts g' !! i = Some v.
Proof. intros [_ _ H _] ?. by eapply prefix_lookup_Some. Qed.

Lemma ext_closed g g' : ext g g' → reason g ≠ None →
  length (puts g') = length (puts g) ∧ reason g' ≠ None.
Proof. intros [_ _ _ H] Hr. destruct (H Hr) as [-> ->]. done. Qed.

Lemma at_pos_ext g g' j x : ext g g' → at_pos g j x → at_pos g' j x.
Proof.
  intros He. destruct x; simpl; try done.
  - intros [?|(?&?&?)]; [left; by eapply ext_orole|].
    right. destruct (ext_closed _ _ He) as [-> ?]; [naive_solver|].
    split_and!; [by eapply ext_orole|naive_solver..].
  - intros [?|(i&->&?)]; [left|right; exists i; split; [done|]]; by eapply ext_role.
Qed.

Lemma low_ext g g' x : ext g g' → low g x → low g' x.
Proof. intros He H p ->. destruct (H p eq_refl) as [j ?]. exists j. by eapply ext_role. Qed.

Lemma res_of_ext g g' i x : ext g g' → res_of g i x → res_of g' i x.
Proof.
  intros He [?|(p&->&?&?&?)]; [left; by eapply ext_put|right].
  exists p. destruct (ext_closed _ _ He) as [-> ?]; [done|].
  split_and!; [done|by eapply ext_role|done..].
Qed.

Lemma at_res_ext g g' i x : ext g g' → at_res g i x → at_res g' i x.
Proof.
  intros He [(p&->&?)|?]; [left; exists p; split; [done|by eapply ext_role]|].
  right. by eapply res_of_ext.
Qed.

Lemma good_ext g g' c x m : ext g g' → good g c x m → good g' c x m.
Proof.
  intros He []; econstructor; eauto using ext_role, at_pos_ext, at_res_ext.
Qed.

Lemma obj_ok_ext g g' o r ob : ext g g' → obj_ok g o r ob → obj_ok g' o r ob.
Proof.
  intros He. destruct r; simpl; [| |done].
  - intros (v&d&?&?&->). exists v, d. eauto using ext_put, ext_role.
  - intros (rj&?&?&->). exists rj. destruct (ext_closed _ _ He); eauto using ext_role.
Qed.

(** A fresh queue satisfies the invariant. *)
Lemma Queue_inv :
  Inv (Ghost [] None 0 [RD 0; RClosed] [])
      {| ends_promise := VProm 0; ends_resolve := 0; closed := 1 |}
      (State [Pending []; Pending []] [] []).
Proof.
  split; simpl; try done.
  - intros [|[|p]] r c _; simpl; intros; simplify_eq; simpl; done.
  - intros x m H. inversion H.
  - intros [|[|p]] ws m; simpl; intros ? H; simplify_eq; inversion H.
  - intros [|[|p]] r ws m _; simpl; intros; simplify_eq.
  - exists 0. split; [done|]. left. done.
  - left. done.
  - intros [|[|?]] i p; simpl; intros; simplify_eq.
  - intros [|[|?]] i; simpl; intros; simplify_eq.
Qed.

Lemma resolve_pending d x s ws :
  cells s !! d = Some (Pending ws) →
  resolve d x s = (Ok tt, State (<[d := Resolved x]> (cells s)) (heap s)
                                (tasks s ++ (Send x <$> ws))).
Proof. intros H. unfold resolve. by rewrite H. Qed.

Lemma resolve_settled d x s :
  (∀ ws, cells s !! d ≠ Some (Pending ws)) → resolve d x s = (Ok tt, s).
Proof. intros H. unfold resolve. destruct (cells s !! d) as [[]|] eqn:E; naive_solver. Qed.

Lemma inflight_resolve cs h ts d ws x m :
  cs !! d = Some (Pending ws) →
  inflight (State cs h ts) m →
  inflight (State (<[d := Resolved x]> cs) h (ts ++ (Send x <$> ws))) m.
Proof.
  intros Hd [(y&Hy)|(p&ws'&Hp&Hm)]; simpl in *.
  - left. exists y. simpl. apply elem_of_app. by left.
  - destruct (decide (p = d)) as [->|Hne].
    + left. exists x. simpl. apply elem_of_app. right.
      simplify_eq. apply list_elem_of_fmap. eauto.
    + right. exists p, ws'. simpl. by rewrite list_lookup_insert_ne.
Qed.

(** Resolving a pending deferred to a value that suits its role. *)
Lemma resolve_inv g q s d r x ws :
  InvX (λ p, p = d) g q s →
  roles g !! d = Some r →
  cells s !! d = Some (Pending ws) →
  cell_ok g q d r (Resolved x) →
  (∀ m, good g (closed q) (VProm d) m → good g (closed q) x m) →
  r ≠ RClosed → (∀ i, r = RW i → plain x) →
  Inv g q (State (<[d := Resolved x]> (cells s)) (heap s) (tasks s ++ (Send x <$> ws))).
Proof.
  intros HI Hr Hd Hok Htr Hnc Hpl.
  assert (d < length (cells s)) as Hlt by (by eapply lookup_lt_Some).
  destruct HI. split; simpl; try done.
  - by rewrite length_insert.
  - intros p r' c _ Hr' Hc. apply list_lookup_insert_Some in Hc as [(<-&<-&_)|(?&?)].
    + by simplify_eq.
    + by eapply inv_cells0.
  - intros y m [?|Hm]%elem_of_app; [by eauto|].
    apply list_elem_of_fmap in Hm as (m'&?&?); simplify_eq. by eauto.
  - intros p ws' m Hc. apply list_lookup_insert_Some in Hc as [(?&?&_)|(?&?)]; [done|by eauto].
  - intros d' r' ws' m _ Hr' Hc Hm.
    apply list_lookup_insert_Some in Hc as [(?&?&_)|(?&?)]; [done|].
    eapply inflight_resolve; [done|]. by eapply inv_live0.
  - intros w i p Hw Hc. apply list_lookup_insert_Some in Hc as [(<-&?&_)|(?&?)].
    + simplify_eq. by destruct (Hpl i eq_refl p).
    + assert (closed q ≠ d) by (intros <-; naive_solver).
      rewrite list_lookup_insert_ne; [|done]. by eapply inv_observed0.
  - intros y Hc. apply list_lookup_insert_Some in Hc as [(Heq&?&_)|(?&?)]; [congruence|].
    destruct (inv_signalled0 y) as (w&i&p&?&?&?); [done|].
    exists w, i, p. split_and!; [done..|].
    rewrite list_lookup_insert_ne; [done|]. intros <-. naive_solver.
Qed.

Lemma message_of_deferred c d r m : message_of c d r = Some m → deferred m = d.
Proof. destruct r; simpl; intros; by simplify_eq. Qed.

Lemma role_cell X g q s p r :
  InvX X g q s → roles g !! p = Some r → ∃ c, cells s !! p = Some c.
Proof.
  intros HI Hr. apply lookup_lt_is_Some. rewrite <- (inv_roles _ _ _ _ HI).
  by eapply lookup_lt_Some.
Qed.

Lemma Inv_cells {g q s} (HI : Inv g q s) p r c :
  roles g !! p = Some r → cells s !! p = Some c → cell_ok g q p r c.
Proof. apply (inv_cells _ _ _ _ HI). tauto. Qed.

Lemma Inv_live {g q s} (HI : Inv g q s) d r ws m :
  roles g !! d = Some r → cells s !! d = Some (Pending ws) →
  message_of (closed q) d r = Some m → inflight s m.
Proof. apply (inv_live _ _ _ _ HI). tauto. Qed.

(** Taking the first task off the queue of the event loop. *)
Lemma pop_inv g q s x m rest :
  Inv g q s → tasks s = Send x m :: rest →
  InvX (λ p, p = deferred m) g q (State (cells s) (heap s) rest).
Proof.
  intros HI Ht. pose proof (Inv_cells HI). pose proof (Inv_live HI).
  destruct HI. split; simpl; try done.
  - intros. eauto.
  - intros y m' Hin. apply inv_tasks0. rewrite Ht. by right.
  - intros d r ws m' Hne Hr Hc Hm.
    destruct (H0 d r ws m') as [(y&Hin)|(p&ws'&?&?)]; try done.
    + rewrite Ht in Hin. apply elem_of_cons in Hin as [?|?].
      * simplify_eq. by apply message_of_deferred in Hm.
      * left. by exists y.
    + right. by exists p, ws'.
Qed.

Lemma settled_inv g q s d :
  InvX (λ p, p = d) g q s →
  (∀ r c, roles g !! d = Some r → cells s !! d = Some c → cell_ok g q d r c) →
  (∀ ws, cells s !! d ≠ Some (Pending ws)) →
  Inv g q s.
Proof.
  intros [] Hok Hnp. split; try done.
  - intros p r c _ ??. destruct (decide (p = d)) as [->|]; [by apply Hok|by eapply inv_cells0].
  - intros d' r ws m _ ???. destruct (decide (d' = d)) as [->|]; [naive_solver|by eapply inv_live0].
Qed.

Lemma transfer g q s p v m :
  Inv g q s → cells s !! p = Some (Resolved v) →
  good g (closed q) (VProm p) m → good g (closed q) v m.
Proof.
  intros HI Hc Hg.
  assert (∀ r, roles g !! p = Some r → cell_ok g q p r (Resolved v)) as Hok.
  { intros r Hr. by eapply (Inv_cells HI). }
  inversion Hg as [d i x Hd Hp|d i x Hd Hp|d i x Hd Hp]; subst.
  - econstructor; [done|]. destruct Hp as [Hp|(i'&->&Hp)]; apply Hok in Hp; simpl in Hp.
    + destruct Hp as (o&->&[?|(?&->&?)]); simpl; naive_solver.
    + tauto.
  - econstructor; [done|]. destruct Hp as [Hp|(i'&->&Hp)]; apply Hok in Hp; simpl in Hp.
    + destruct Hp as (o&->&[?|(?&->&?)]); simpl; naive_solver.
    + tauto.
  - econstructor; [done|]. destruct Hp as [(p'&?&Hp)|[Hp|(p'&?&Hp&?)]]; simplify_eq.
    + apply Hok in Hp. by right.
    + pose proof (inv_plain _ _ _ _ HI) as Hpl.
      eapply Forall_lookup_1 in Hpl; [|done]. by destruct (Hpl p).
    + apply Hok in Hp. done.
Qed.

(** A message for a pending promise is parked with it. *)
Lemma park_inv g q s p m rest ws :
  Inv g q s → tasks s = Send (VProm p) m :: rest →
  cells s !! p = Some (Pending ws) →
  Inv g q (State (<[p := Pending (ws ++ [m])]> (cells s)) (heap s) rest).
Proof.
  intros HI Ht Hp. pose proof (pop_inv _ _ _ _ _ _ HI Ht) as HX.
  assert (good g (closed q) (VProm p) m) as Hg.
  { apply (inv_tasks _ _ _ _ HI). rewrite Ht. by left. }
  pose proof (Inv_cells HI) as HC.
  destruct HI. split; simpl; try done.
  - by rewrite length_insert.
  - intros p' r c _ Hr Hc. apply list_lookup_insert_Some in Hc as [(?&?&_)|(?&?)].
    + simplify_eq. specialize (HC p' r _ Hr Hp).
      destruct r; simpl in *; done.
    + by eapply HC.
  - intros y m' Hin. apply inv_tasks0. rewrite Ht. by right.
  - intros p' ws' m' Hc Hin. apply list_lookup_insert_Some in Hc as [(?&?&_)|(?&?)].
    + simplify_eq. apply elem_of_app in Hin as [?|Hin]; [by eauto|].
      apply list_elem_of_singleton in Hin as ->. done.
    + by eauto.
  - intros d r ws' m' _ Hr Hc Hm.
    destruct (decide (d = deferred m)) as [Hd|Hd].
    + assert (m' = m) as ->.
      { inversion Hg; subst; simpl in *; simplify_eq; simpl in *; by simplify_eq. }
      right. exists p, (ws ++ [m]). simpl. split.
      * apply list_lookup_insert_eq. by eapply lookup_lt_Some.
      * apply elem_of_app. right. by left.
    + assert (∃ ws0, cells s !! d = Some (Pending ws0)) as [ws0 Hc0].
      { apply list_lookup_insert_Some in Hc as [(?&?&_)|(?&?)]; simplify_eq; eauto. }
      destruct (inv_live _ _ _ _ HX d r ws0 m') as [(y&Hin)|(p'&ws1&Hp1&Hin)]; try done.
      * left. by exists y.
      * right. simpl in *. destruct (decide (p' = p)) as [->|].
        -- exists p, (ws ++ [m]). split; [apply list_lookup_insert_eq; by eapply lookup_lt_Some|].
           simplify_eq. apply elem_of_app. by left.
        -- exists p', ws1. by rewrite list_lookup_insert_ne.
  - intros w i p' Hw Hc. apply list_lookup_insert_Some in Hc as [(?&?&_)|(?&Hc)]; [done|].
    pose proof (inv_observed0 _ _ _ Hw Hc) as Hcl.
    rewrite list_lookup_insert_ne; [done|]. intros Heq. rewrite <- Heq in Hcl. congruence.
  - intros y Hc. apply list_lookup_insert_Some in Hc as [(?&?&_)|(?&?)]; [done|].
    destruct (inv_signalled0 y) as (w&i&p'&?&?&?); [done|].
    exists w, i, p'. split_and!; [done..|].
    rewrite list_lookup_insert_ne; [done|]. intros Heq. congruence.
Qed.

(** A message for a resolved promise is forwarded to what the promise
    was resolved to. *)
Lemma follow_inv g q s p m rest v :
  Inv g q s → tasks s = Send (VProm p) m :: rest →
  cells s !! p = Some (Resolved v) →
  Inv g q (State (cells s) (heap s) (rest ++ [Send v m])).
Proof.
  intros HI Ht Hp. pose proof (pop_inv _ _ _ _ _ _ HI Ht) as HX.
  assert (good g (closed q) (VProm p) m) as Hg.
  { apply (inv_tasks _ _ _ _ HI). rewrite Ht. by left. }
  pose proof (transfer _ _ _ _ _ _ HI Hp Hg) as Hg'.
  destruct HI. split; simpl; try done.
  - intros y m' [Hin|Hin]%elem_of_app.
    + apply inv_tasks0. rewrite Ht. by right.
    + apply list_elem_of_singleton in Hin. by simplify_eq.
  - intros d r ws' m' _ Hr Hc Hm.
    destruct (decide (d = deferred m)) as [Hd|Hd].
    + assert (m' = m) as ->.
      { inversion Hg; subst; simpl in *; simplify_eq; simpl in *; by simplify_eq. }
      left. exists v. simpl. apply elem_of_app. right. by left.
    + destruct (inv_live _ _ _ _ HX d r ws' m') as [(y&Hin)|(p'&ws1&Hp1&Hin)]; try done.
      * left. exists y. simpl in *. apply elem_of_app. by left.
      * right. by exists p', ws1.
Qed.

Lemma deliver_resolve_inv g q s x m rest r v :
  Inv g q s → tasks s = Send x m :: rest →
  roles g !! deferred m = Some r →
  cell_ok g q (deferred m) r (Resolved v) →
  (∀ m', good g (closed q) (VProm (deferred m)) m' → good g (closed q) v m') →
  r ≠ RClosed → (∀ i, r = RW i → plain v) →
  Inv g q (exec (resolve (deferred m) v) (State (cells s) (heap s) rest)).
Proof.
  intros HI Ht Hr Hok Htr Hnc Hpl.
  pose proof (pop_inv _ _ _ _ _ _ HI Ht) as HX.
  destruct (cells s !! deferred m) as [c|] eqn:Hc.
  - destruct c as [ws| |].
    + unfold exec. erewrite resolve_pending by done. simpl.
      eapply (resolve_inv _ _ (State (cells s) (heap s) rest)); done.
    + unfold exec. rewrite resolve_settled by (simpl; congruence). simpl.
      eapply settled_inv; [done| |simpl; congruence].
      simpl. apply (Inv_cells HI).
    + unfold exec. rewrite resolve_settled by (simpl; congruence). simpl.
      eapply settled_inv; [done| |simpl; congruence].
      simpl. apply (Inv_cells HI).
  - unfold exec. rewrite resolve_settled by (simpl; congruence). simpl.
    eapply settled_inv; [done| |simpl; congruence].
    simpl. apply (Inv_cells HI).
Qed.

Lemma lookup_cell h o v t n k :
  h !! o = Some (OObject [(Name "head", v); (Name "tail", t)] None) →
  k = "head" ∨ k = "tail" →
  lookup_prop n h o (Name k) = if decide (k = "head") then v else t.
Proof.
  intros Ho [-> | ->]; destruct n; simpl; rewrite Ho; reflexivity.
Qed.

Lemma step_plain s x m rest :
  plain x → tasks s = Send x m :: rest →
  step s = exec (deliver_fulfilled x m) (State (cells s) (heap s) rest).
Proof.
  intros Hp Ht. unfold step. rewrite Ht.
  destruct x; try reflexivity. by destruct (Hp p).
Qed.

Lemma orole_obj X g q s o r :
  InvX X g q s → oroles g !! o = Some r → ∃ ob, heap s !! o = Some ob ∧ obj_ok g o r ob.
Proof.
  intros HI Hr.
  assert (is_Some (heap s !! o)) as [ob Hob].
  { apply lookup_lt_is_Some. rewrite <- (inv_oroles _ _ _ _ HI). by eapply lookup_lt_Some. }
  exists ob. split; [done|]. by eapply (inv_heap _ _ _ _ HI).
Qed.

Lemma no_good_at g c d m :
  (∃ i, roles g !! d = Some (RW i)) ∨ roles g !! d = Some RClosed ∨ roles g !! d = Some RJunk →
  Forall plain (puts g) →
  ¬ good g c (VProm d) m.
Proof.
  intros Hr Hpl Hg. inversion Hg as [? ? ? ? Hp|? ? ? ? Hp|? ? ? ? Hp]; subst; simpl in Hp.
  - naive_solver.
  - naive_solver.
  - destruct Hp as [(p'&?&Hp)|[Hp|(p'&?&Hp&?)]]; simplify_eq; [naive_solver| |naive_solver].
    eapply Forall_lookup_1 in Hpl; [|done]. by destruct (Hpl d).
Qed.

Lemma not_plain_put g i p : Forall plain (puts g) → puts g !! i ≠ Some (VProm p).
Proof. intros Hpl Hi. eapply Forall_lookup_1 in Hpl; [|done]. by destruct (Hpl p). Qed.

Lemma good_at_RR g c d i m v :
  roles g !! d = Some (RR i) → Forall plain (puts g) →
  good g c (VProm d) m → res_of g i v → good g c v m.
Proof.
  intros Hr Hpl Hg Hv.
  inversion Hg as [? ? ? ? Hp|? ? ? ? Hp|? ? ? ? Hp]; subst; simpl in Hp.
  - destruct Hp as [?|(?&?&?)]; congruence.
  - destruct Hp as [?|(?&?&?)]; congruence.
  - econstructor; [done|]. right.
    destruct Hp as [(p'&?&Hp)|[Hp|(p'&?&Hp&?)]]; simplify_eq; [done|].
    by apply not_plain_put in Hp.
Qed.

Lemma good_at_pos g c d j m v :
  roles g !! d = Some (RD j) ∨ (∃ i, j = S i ∧ roles g !! d = Some (RT i)) →
  Forall plain (puts g) →
  good g c (VProm d) m → at_pos g j v → good g c v m.
Proof.
  intros Hr Hpl Hg Hv.
  assert (∀ j', at_pos g j' (VProm d) → j' = j) as Hj.
  { simpl. intros j' [?|(?&?&?)]; destruct Hr as [?|(?&?&?)]; congruence. }
  inversion Hg as [? ? ? ? Hp|? ? ? ? Hp|? ? ? ? Hp]; subst.
  - apply Hj in Hp as ->. by econstructor.
  - apply Hj in Hp as ->. by econstructor.
  - destruct Hp as [(p'&?&Hp)|[Hp|(p'&?&Hp&?)]]; simplify_eq.
    + destruct Hr as [?|(?&?&?)]; congruence.
    + by apply not_plain_put in Hp.
    + destruct Hr as [?|(?&?&?)]; congruence.
Qed.

(** [Q.get] delivered to a cell of the queue. *)
Lemma step_get_inv g q s o d k rest :
  Inv g q s → tasks s = Send (VObj o) (MGet d k) :: rest →
  Inv g q (step s).
Proof.
  intros HI Ht.
  assert (good g (closed q) (VObj o) (MGet d k)) as Hg.
  { apply (inv_tasks _ _ _ _ HI). rewrite Ht. by left. }
  rewrite (step_plain s (VObj o) (MGet d k) rest); [|done|done].
  pose proof (inv_plain _ _ _ _ HI) as Hpl.
  inversion Hg as [? i ? Hd Hp|? i ? Hd Hp|]; subst; simpl in Hp.
  - (* head *)
    destruct Hp as [Ho|(Ho&?&?)]; destruct (orole_obj _ _ _ _ _ _ HI Ho) as (ob&Hob&Hok);
      simpl in Hok.
    + destruct Hok as (v&d'&?&?&->).
      unfold deliver_fulfilled, catch, get_member, gets, bind, exec. simpl.
      erewrite lookup_cell by eauto. simpl.
      apply (deliver_resolve_inv g q s (VObj o) (MGet d (Name "head")) rest (RR i)); try done.
      * simpl. by left.
      * intros m' Hg'. eapply good_at_RR; [done..|]. by left.
    + destruct Hok as (rj&?&?&->).
      unfold deliver_fulfilled, catch, get_member, gets, bind, exec. simpl.
      erewrite lookup_cell by eauto. simpl.
      apply (deliver_resolve_inv g q s (VObj o) (MGet d (Name "head")) rest (RR i)); try done.
      * simpl. right. by exists rj.
      * intros m' Hg'. eapply good_at_RR; [done..|]. right. by exists rj.
  - (* tail *)
    destruct Hp as [Ho|(Ho&?&?)]; destruct (orole_obj _ _ _ _ _ _ HI Ho) as (ob&Hob&Hok);
      simpl in Hok.
    + destruct Hok as (v&d'&?&?&->).
      unfold deliver_fulfilled, catch, get_member, gets, bind, exec. simpl.
      erewrite lookup_cell by eauto. simpl.
      apply (deliver_resolve_inv g q s (VObj o) (MGet d (Name "tail")) rest (RT i)); try done.
      * simpl. split; [by left|]. intros p ?. simplify_eq. eauto.
      * intros m' Hg'. eapply good_at_pos; [right; eauto|done..|]. simpl. by left.
    + destruct Hok as (rj&?&?&->).
      unfold deliver_fulfilled, catch, get_member, gets, bind, exec. simpl.
      erewrite lookup_cell by eauto. simpl.
      apply (deliver_resolve_inv g q s (VObj o) (MGet d (Name "tail")) rest (RT i)); try done.
      * simpl. split; [right; split_and!; [done|lia|done]|]. intros p ?. simplify_eq.
      * intros m' Hg'. eapply good_at_pos; [right; eauto|done..|].
        simpl. right. split_and!; [done|lia|done].
Qed.

(** The [Q.when] of [get] delivered to a value. *)
Lemma step_when_inv g q s x d c rest :
  Inv g q s → plain x →
  tasks s = Send x (MWhen d None (Some (K_get_rejected c))) :: rest →
  Inv g q (step s).
Proof.
  intros HI Hx Ht.
  assert (good g (closed q) x (MWhen d None (Some (K_get_rejected c)))) as Hg.
  { apply (inv_tasks _ _ _ _ HI). rewrite Ht. by left. }
  erewrite step_plain; [|done|done].
  pose proof (inv_plain _ _ _ _ HI) as Hpl.
  inversion Hg as [| |? i ? Hd Hp]; subst.
  unfold deliver_fulfilled, catch, ret, bind, exec. simpl.
  apply (deliver_resolve_inv g q s x (MWhen d None (Some (K_get_rejected (closed q)))) rest (RW i));
    try done.
  - simpl. destruct Hp as [(p&->&?)|?]; [by destruct (Hx p)|done].
  - intros m' Hg'. exfalso. eapply no_good_at; [|done..]. left. eauto.
Qed.

Lemma resolve_quiet d x s :
  (∀ ws, cells s !! d = Some (Pending ws) → ws = []) →
  resolve d x s = (Ok tt, State (settle_cell d x (cells s)) (heap s) (tasks s)).
Proof.
  intros H. unfold resolve, settle_cell. destruct s as [cs h ts]; simpl in *.
  destruct (cs !! d) as [[ws| |]|] eqn:E; try done.
  rewrite (H ws eq_refl). simpl. by rewrite app_nil_r.
Qed.

Lemma settle_cell_length d x cs : length (settle_cell d x cs) = length cs.
Proof. unfold settle_cell. destruct (cs !! d) as [[]|]; by rewrite ?length_insert. Qed.

Lemma settle_cell_lookup d x cs p :
  settle_cell d x cs !! p =
  if decide (p = d)
  then match cs !! d with Some (Pending _) => Some (Resolved x) | o => o end
  else cs !! p.
Proof.
  unfold settle_cell. destruct (cs !! d) as [[ws| |]|] eqn:E; case_decide; subst; try done.
  - apply list_lookup_insert_eq. by eapply lookup_lt_Some.
  - by apply list_lookup_insert_ne.
Qed.

Lemma cell_ok_ext g g' q p r c :
  ext g g' → puts g' = puts g → reason g' = reason g →
  cell_ok g q p r c → cell_ok g' q p r c.
Proof.
  intros He Hp Hr. destruct r, c; simpl; rewrite ?Hp, ?Hr; try done.
  - intros (o&->&[?|(?&?&?)]); exists o; split; [done|left|done|right];
      eauto using ext_orole.
  - intros [??]. eauto using at_pos_ext, low_ext.
  - apply res_of_ext; done.
  - apply res_of_ext; done.
Qed.

Lemma cursor_ok_ext g g' x :
  ext g g' → ngets g' = ngets g → cursor_ok g x → cursor_ok g' x.
Proof.
  intros He Hn (c&->&[[??]|(i&?&?)]); exists c; (split; [done|]); rewrite Hn;
    [left|right; exists i]; eauto using ext_role.
Qed.

Lemma ext_snoc_role g r :
  ext g (Ghost (puts g) (reason g) (ngets g) (roles g ++ [r]) (oroles g)).
Proof. split; simpl; try done. by apply prefix_app_r. Qed.

Lemma step_rejected_eq g q s p d c r0 rest :
  Inv g q s →
  tasks s = Send (VProm p) (MWhen d None (Some (K_get_rejected c))) :: rest →
  cells s !! p = Some (Rejected r0) →
  step s = State (settle_cell d (VProm (length (cells s)))
                    (settle_cell (closed q) VUndef (cells s) ++ [Rejected r0]))
                 (heap s) rest.
Proof.
  intros HI Ht Hp.
  assert (good g (closed q) (VProm p) (MWhen d None (Some (K_get_rejected c)))) as Hg.
  { apply (inv_tasks _ _ _ _ HI). rewrite Ht. by left. }
  pose proof (inv_plain _ _ _ _ HI) as Hpl.
  pose proof (inv_closed _ _ _ _ HI) as Hcl.
  inversion Hg as [| |? i ? Hd Hpos]; subst.
  assert (closed q ≠ d) as Hcd by congruence.
  assert (∀ ws, cells s !! closed q = Some (Pending ws) → ws = []) as Hq1.
  { intros [|m' ws] Hc; [done|]. exfalso. eapply (no_good_at g (closed q) (closed q) m').
    - right. by left.
    - done.
    - eapply (inv_waiters _ _ _ _ HI); [done|]. by left. }
  assert (∀ ws, cells s !! d = Some (Pending ws) → ws = []) as Hq2.
  { intros [|m' ws] Hc; [done|]. exfalso. eapply (no_good_at g (closed q) d m').
    - left. eauto.
    - done.
    - eapply (inv_waiters _ _ _ _ HI); [done|]. by left. }
  unfold step. rewrite Ht, Hp. unfold exec, deliver_rejected, catch, bind.
  cbn [apply_kont]. unfold bind.
  rewrite resolve_quiet by done. unfold reject. cbn -[resolve settle_cell].
  rewrite resolve_quiet; cbn -[settle_cell].
  - by rewrite settle_cell_length.
  - intros ws Hc. apply lookup_snoc_Some in Hc as [[_ Hc]|[_ ?]]; [|done].
    rewrite settle_cell_lookup in Hc. rewrite decide_False in Hc by done. eauto.
Qed.

(** The [Q.when] of [get] delivered to the rejection of [close]: the
    callback of line 54 resolves [closed]. *)
Lemma step_rejected_inv g q s p d c r0 rest :
  Inv g q s →
  tasks s = Send (VProm p) (MWhen d None (Some (K_get_rejected c))) :: rest →
  cells s !! p = Some (Rejected r0) →
  Inv (Ghost (puts g) (reason g) (ngets g) (roles g ++ [RRej]) (oroles g)) q (step s).
Proof.
  intros HI Ht Hp.
  set (m := MWhen d None (Some (K_get_rejected c))) in *.
  set (g' := Ghost _ _ _ _ _).
  assert (ext g g') as He by apply ext_snoc_role.
  assert (good g (closed q) (VProm p) m) as Hg.
  { apply (inv_tasks _ _ _ _ HI). rewrite Ht. by left. }
  pose proof (inv_plain _ _ _ _ HI) as Hpl.
  pose proof (pop_inv _ _ _ _ _ _ HI Ht) as HX. simpl in HX.
  pose proof (Inv_cells HI) as HC.
  inversion Hg as [| |? i ? Hd Hpos]; subst.
  assert (roles g !! p = Some RRej ∧ length (puts g) ≤ i ∧ reason g = Some r0)
    as (Hrp & Hni & Hreason).
  { destruct Hpos as [(p'&?&Hr)|[Hr|(p'&?&Hr&?&?)]]; simplify_eq.
    - by apply (HC _ _ _ Hr) in Hp.
    - by apply not_plain_put in Hr.
    - split_and!; [done..|]. by apply (HC _ _ _ Hr) in Hp. }
  pose proof (inv_closed _ _ _ _ HI) as Hcl.
  pose proof (inv_roles _ _ _ _ HI) as Hlen.
  assert (closed q ≠ d) as Hcd by congruence.
  assert (∀ ws, cells s !! closed q = Some (Pending ws) → ws = []) as Hq1.
  { intros [|m' ws] Hc; [done|]. exfalso. eapply (no_good_at g (closed q) (closed q) m').
    - right. by left.
    - done.
    - eapply (inv_waiters _ _ _ _ HI); [done|]. by left. }
  assert (∀ ws, cells s !! d = Some (Pending ws) → ws = []) as Hq2.
  { intros [|m' ws] Hc; [done|]. exfalso. eapply (no_good_at g (closed q) d m').
    - left. eauto.
    - done.
    - eapply (inv_waiters _ _ _ _ HI); [done|]. by left. }
  assert (step s = State (settle_cell d (VProm (length (cells s)))
                            (settle_cell (closed q) VUndef (cells s) ++ [Rejected r0]))
                         (heap s) rest) as ->.
  { unfold step. rewrite Ht, Hp. subst m. unfold exec, deliver_rejected, catch, bind.
    cbn [apply_kont]. unfold bind.
    rewrite resolve_quiet by done. unfold reject. cbn -[resolve settle_cell].
    rewrite resolve_quiet; cbn -[settle_cell].
    - by rewrite settle_cell_length.
    - intros ws Hc. apply lookup_snoc_Some in Hc as [[_ Hc]|[_ ?]]; [|done].
      rewrite settle_cell_lookup in Hc. rewrite decide_False in Hc by done. eauto. }
  set (N := length (cells s)).
  assert (∀ p', (settle_cell d (VProm N)
                  (settle_cell (closed q) VUndef (cells s) ++ [Rejected r0])) !! p' =
          if decide (p' = N) then Some (Rejected r0)
          else if decide (p' = d) then
                 match cells s !! d with Some (Pending _) => Some (Resolved (VProm N)) | o => o end
          else if decide (p' = closed q) then
                 match cells s !! closed q with Some (Pending _) => Some (Resolved VUndef) | o => o end
          else cells s !! p') as Hlook.
  { intros p'.
    assert (d < N) by (unfold N; rewrite <- Hlen; by eapply lookup_lt_Some).
    rewrite settle_cell_lookup. repeat case_decide; subst; try lia.
    - rewrite lookup_app_l by (rewrite settle_cell_length; lia).
      rewrite settle_cell_lookup, decide_False by done. done.
    - rewrite lookup_app_r by (rewrite settle_cell_length; lia).
      rewrite settle_cell_length. by rewrite Nat.sub_diag.
    - destruct (decide (closed q < N)).
      + rewrite lookup_app_l by (rewrite settle_cell_length; lia).
        by rewrite settle_cell_lookup, decide_True.
      + rewrite !lookup_ge_None_2; [done|lia|].
        rewrite length_app, settle_cell_length. simpl. fold N. lia.
    - destruct (decide (p' < N)).
      + rewrite lookup_app_l by (rewrite settle_cell_length; lia).
        by rewrite settle_cell_lookup, decide_False.
      + rewrite !lookup_ge_None_2; [done|fold N; lia|].
        rewrite length_app, settle_cell_length. simpl. fold N. lia. }
  assert (∀ p' c', p' ≠ N →
            (p' ≠ d ∧ p' ≠ closed q) ∨ (∀ ws, c' ≠ Pending ws) →
            cells s !! p' = Some c' →
            (settle_cell d (VProm N)
               (settle_cell (closed q) VUndef (cells s) ++ [Rejected r0])) !! p' = Some c')
    as Hkeep.
  { intros p' c' ? Hor Hc. rewrite Hlook. repeat case_decide; subst; try done.
    - rewrite Hc. destruct c'; naive_solver.
    - rewrite Hc. destruct c'; naive_solver. }
  assert (roles g' !! N = Some RRej) as HrN.
  { simpl. unfold N. rewrite <- Hlen. by rewrite list_lookup_middle. }
  simpl in HrN.
  destruct HI. split; simpl.
  - rewrite length_app, settle_cell_length, length_app, settle_cell_length. simpl. lia.
  - done.
  - done.
  - intros p' r c' _ Hr Hc. rewrite Hlook in Hc. repeat case_decide; subst.
    + simplify_eq. done.
    + apply lookup_snoc_Some in Hr as [[_ Hr]|[? _]]; [|lia]. simplify_eq.
      destruct (cells s !! d) as [[]|] eqn:E; simplify_eq.
      * simpl. right. exists N. split_and!; [done..|]. unfold g'; simpl; congruence.
      * eapply cell_ok_ext; [done..|]. by eapply HC.
      * eapply cell_ok_ext; [done..|]. by eapply HC.
    + apply lookup_snoc_Some in Hr as [[_ Hr]|[? _]]; [|lia]. simplify_eq.
      destruct (cells s !! closed q) as [[]|] eqn:E; simplify_eq.
      * done.
      * eapply cell_ok_ext; [done..|]. by eapply HC.
      * eapply cell_ok_ext; [done..|]. by eapply HC.
    + apply lookup_snoc_Some in Hr as [[_ Hr]|[? _]]; [|lia].
      eapply cell_ok_ext; [done..|]. by eapply HC.
  - intros. eapply obj_ok_ext; eauto.
  - intros. eapply good_ext; [done|]. apply inv_tasks0. rewrite Ht. by right.
  - intros p' ws' m' Hc Hin. rewrite Hlook in Hc. eapply good_ext; [done|].
    repeat case_decide; subst; try done.
    + destruct (cells s !! d) as [[]|] eqn:E; by simplify_eq.
    + destruct (cells s !! closed q) as [[]|] eqn:E; by simplify_eq.
    + eauto.
  - intros d' r ws' m' _ Hr Hc Hm. rewrite Hlook in Hc.
    assert (d' ≠ d ∧ cells s !! d' = Some (Pending ws') ∧ roles g !! d' = Some r)
      as (Hne & Hc' & Hr').
    { repeat case_decide; subst; try done.
      - destruct (cells s !! d) as [[]|] eqn:E; simplify_eq.
      - destruct (cells s !! closed q) as [[]|] eqn:E; simplify_eq.
      - apply lookup_snoc_Some in Hr as [[_ Hr]|[? _]]; [done|lia]. }
    destruct (inv_live _ _ _ _ HX d' r ws' m') as [(y&Hin)|(p'&ws1&Hp1&Hin)]; try done.
    + left. by exists y.
    + right. exists p', ws1. simpl in *. split; [|done].
      apply Hkeep; [| |done].
      * apply lookup_lt_Some in Hp1. unfold N. lia.
      * left. split; intros ->.
        -- rewrite (Hq2 _ Hp1) in Hin. by apply elem_of_nil in Hin.
        -- rewrite (Hq1 _ Hp1) in Hin. by apply elem_of_nil in Hin.
  - by eapply cursor_ok_ext.
  - destruct inv_ends0 as [?|[??]]; [left|right; split; [done|]]; by eapply (ext_role g g').
  - by eapply (ext_role g g').
  - intros w i' p' _ _. rewrite Hlook.
    assert (closed q < N) by (unfold N; rewrite <- Hlen; by eapply lookup_lt_Some).
    rewrite decide_False by lia. rewrite decide_False by done. rewrite decide_True by done.
    destruct (cells s !! closed q) as [[]|] eqn:E; try done.
    + pose proof (HC _ _ _ Hcl E) as Hv. simpl in Hv. by subst.
    + by pose proof (HC _ _ _ Hcl E).
    + apply lookup_ge_None in E. lia.
  - intros y _. exists d, i.
    assert (d < N) by (unfold N; rewrite <- Hlen; by eapply lookup_lt_Some).
    destruct (cells s !! d) as [[]|] eqn:E.
    + exists N. split_and!; [by eapply (ext_role g g')|done|].
      rewrite Hlook. rewrite decide_False by lia. by rewrite decide_True by done.
    + pose proof (HC _ _ _ Hd E) as Hres. simpl in Hres.
      destruct Hres as [Hres|(p'&->&?)].
      * apply lookup_lt_Some in Hres. lia.
      * exists p'. split_and!; [by eapply (ext_role g g')|done|].
        rewrite Hlook. rewrite decide_False by lia. by rewrite decide_True by done.
    + by pose proof (HC _ _ _ Hd E).
    + apply lookup_ge_None in E. lia.
  - intros w i' Hw. apply lookup_snoc_Some in Hw as [[_ Hw]|[_ ?]]; [by eauto|done].
Qed.

Lemma same_queue_refl g : same_queue g g.
Proof. split; [apply ext_refl|done..]. Qed.

Lemma snoc_not_RW (l : list role) r w i :
  (∀ j, r ≠ RW j) → (l ++ [r]) !! w = Some (RW i) → l !! w = Some (RW i).
Proof. intros Hr [[_ ?]|[_ ?]]%lookup_snoc_Some; [done|]. by destruct (Hr i). Qed.

(** One turn of the event loop keeps the invariant. *)
Lemma step_inv g q s :
  Inv g q s → ∃ g', same_queue g g' ∧ Inv g' q (step s).
Proof.
  intros HI. destruct (tasks s) as [|[x m] rest] eqn:Ht.
  { exists g. split; [apply same_queue_refl|]. unfold step. by rewrite Ht. }
  assert (good g (closed q) x m) as Hg.
  { apply (inv_tasks _ _ _ _ HI). rewrite Ht. by left. }
  pose proof (inv_plain _ _ _ _ HI) as Hpl.
  assert (plain x ∨ ∃ p, x = VProm p) as [Hx|[p ->]].
  { destruct x; try (left; intros ??; congruence). right. eauto. }
  - exists g. split; [apply same_queue_refl|].
    inversion Hg as [? ? ? ? Hp|? ? ? ? Hp|? ? ? ? Hp]; subst.
    + destruct x; simpl in Hp; try done. by eapply step_get_inv. by destruct (Hx p).
    + destruct x; simpl in Hp; try done. by eapply step_get_inv. by destruct (Hx p).
    + by eapply step_when_inv.
  - assert (∃ r, roles g !! p = Some r) as [r Hr].
    { inversion Hg as [? ? ? ? Hp|? ? ? ? Hp|? ? ? ? Hp]; subst; simpl in Hp.
      - destruct Hp as [?|(?&?&?)]; eauto.
      - destruct Hp as [?|(?&?&?)]; eauto.
      - destruct Hp as [(p'&?&Hp)|[Hp|(p'&?&Hp&?)]]; simplify_eq; eauto.
        by apply not_plain_put in Hp. }
    destruct (role_cell _ _ _ _ _ _ HI Hr) as [c Hc].
    destruct c as [ws|v|r0].
    + exists g. split; [apply same_queue_refl|].
      unfold step. rewrite Ht, Hc. unfold set_cells. simpl. by eapply park_inv.
    + exists g. split; [apply same_queue_refl|].
      unfold step. rewrite Ht, Hc. unfold set_tasks. simpl. by eapply follow_inv.
    + pose proof (Inv_cells HI _ _ _ Hr Hc) as Hok.
      inversion Hg as [? ? ? ? Hp|? ? ? ? Hp|? ? ? ? Hp]; subst; simpl in Hp.
      * destruct Hp as [?|(?&?&?)]; simplify_eq; done.
      * destruct Hp as [?|(?&?&?)]; simplify_eq; done.
      * eexists. split; [|by eapply step_rejected_inv].
        split; [apply ext_snoc_role|done..|]. simpl. intros w i'. by apply snoc_not_RW.
Qed.

Lemma cell_ok_grow g g' q q' p r c :
  ext g g' →
  ((∃ j ws, r = RD j ∧ c = Pending ws) →
   puts g' = puts g ∧ reason g' = reason g ∧ ends_resolve q' = ends_resolve q) →
  cell_ok g q p r c → cell_ok g' q' p r c.
Proof.
  intros He Hp. destruct r, c; simpl; try done.
  - destruct Hp as (->&->&->); eauto.
  - intros (o&->&[?|(?&?&?)]); exists o; (split; [done|]); [left|right]; eauto using ext_orole.
    destruct (ext_closed _ _ He) as [-> ?]; [done|]. eauto using ext_orole.
  - intros [??]. eauto using at_pos_ext, low_ext.
  - apply res_of_ext; done.
  - apply res_of_ext; done.
  - intros Hr. destruct (ext_reason _ _ He) as [_ ->]; [congruence|done].
Qed.

Lemma inflight_grow s cs os ts m :
  inflight s m → inflight (State (cells s ++ cs) (heap s ++ os) (tasks s ++ ts)) m.
Proof.
  intros [(y&Hy)|(p&ws'&Hp&Hm)]; simpl in *.
  - left. exists y. simpl. apply elem_of_app. by left.
  - right. exists p, ws'. simpl. split; [|done]. by apply lookup_app_l_Some.
Qed.

(** New promises, objects and tasks that suit their roles. *)
Lemma grow_inv (X : nat → Prop) g g' q q' s rs cs ors os ts :
  Inv g q s → ext g g' →
  roles g' = roles g ++ rs → length rs = length cs →
  oroles g' = oroles g ++ ors → length ors = length os →
  closed q' = closed q →
  Forall plain (puts g') →
  (∀ p r c, ¬ X p → roles g !! p = Some r → cells s !! p = Some c →
            cell_ok g q p r c → cell_ok g' q' p r c) →
  (∀ i r c, rs !! i = Some r → cs !! i = Some c →
            cell_ok g' q' (length (cells s) + i) r c ∧
            (∀ v, c ≠ Resolved v) ∧
            ∀ ws, c = Pending ws → ws = [] ∧
              ∀ m, message_of (closed q) (length (cells s) + i) r = Some m →
                   ∃ x, Send x m ∈ ts) →
  (∀ i r ob, ors !! i = Some r → os !! i = Some ob →
             obj_ok g' (length (heap s) + i) r ob) →
  (∀ x m, Send x m ∈ ts → good g' (closed q) x m) →
  cursor_ok g' (ends_promise q') →
  (roles g' !! ends_resolve q' = Some (RD (length (puts g')))
   ∨ (reason g' ≠ None ∧ roles g' !! ends_resolve q' = Some RJunk)) →
  ngets g ≤ ngets g' →
  (∀ j i, rs !! j = Some (RW i) → i < ngets g') →
  InvX X g' q' (State (cells s ++ cs) (heap s ++ os) (tasks s ++ ts)).
Proof.
  intros HI He Hrs Hlrs Hors Hlors Hcl Hpl Hold Hnew Hobj Hts Hcur Hends Hng Hiss.
  pose proof (Inv_cells HI) as HC. pose proof (Inv_live HI) as HL.
  pose proof (inv_roles _ _ _ _ HI) as Hlen.
  pose proof (inv_oroles _ _ _ _ HI) as Holen.
  destruct HI. split; simpl; rewrite ?Hcl.
  - rewrite Hrs, !length_app. lia.
  - rewrite Hors, !length_app. lia.
  - done.
  - intros p r c HX Hr Hc. rewrite Hrs in Hr.
    apply lookup_app_Some in Hr as [Hr|[? Hr]].
    + assert (cells s !! p = Some c) as Hc'.
      { apply lookup_app_Some in Hc as [?|[? _]]; [done|].
        apply lookup_lt_Some in Hr. lia. }
      eauto.
    + apply lookup_app_Some in Hc as [Hc|[? Hc]].
      { apply lookup_lt_Some in Hc. lia. }
      rewrite Hlen in Hr. destruct (Hnew _ _ _ Hr Hc) as [Hok _].
      replace (length (cells s) + (p - length (cells s))) with p in Hok by lia. done.
  - intros o r ob Hr Hc. rewrite Hors in Hr.
    apply lookup_app_Some in Hr as [Hr|[? Hr]].
    + assert (heap s !! o = Some ob) as Hc'.
      { apply lookup_app_Some in Hc as [?|[? _]]; [done|].
        apply lookup_lt_Some in Hr. lia. }
      eapply obj_ok_ext; eauto.
    + apply lookup_app_Some in Hc as [Hc|[? Hc]].
      { apply lookup_lt_Some in Hc. lia. }
      rewrite Holen in Hr. pose proof (Hobj _ _ _ Hr Hc) as Hok.
      replace (length (heap s) + (o - length (heap s))) with o in Hok by lia. done.
  - intros x m [Hin|Hin]%elem_of_app; [|by eauto]. eapply good_ext; eauto.
  - intros p ws m Hc Hin. apply lookup_app_Some in Hc as [Hc|[? Hc]].
    + eapply good_ext; eauto.
    + assert (is_Some (rs !! (p - length (cells s)))) as [r Hr].
      { apply lookup_lt_is_Some. rewrite Hlrs. by eapply lookup_lt_Some. }
      destruct (Hnew _ _ _ Hr Hc) as (_&_&Hw). destruct (Hw ws eq_refl) as [-> _].
      by apply elem_of_nil in Hin.
  - intros d r ws m HX Hr Hc Hm. rewrite Hrs in Hr.
    apply lookup_app_Some in Hr as [Hr|[? Hr]].
    + assert (cells s !! d = Some (Pending ws)) as Hc'.
      { apply lookup_app_Some in Hc as [?|[? _]]; [done|].
        apply lookup_lt_Some in Hr. lia. }
      apply inflight_grow. eauto.
    + apply lookup_app_Some in Hc as [Hc|[? Hc]].
      { apply lookup_lt_Some in Hc. lia. }
      rewrite Hlen in Hr. destruct (Hnew _ _ _ Hr Hc) as (_&_&Hw).
      destruct (Hw ws eq_refl) as [_ Hm'].
      replace (length (cells s) + (d - length (cells s))) with d in Hm' by lia.
      destruct (Hm' _ Hm) as [x Hx]. left. exists x. simpl. apply elem_of_app. by right.
  - done.
  - done.
  - by eapply ext_role.
  - intros w i p Hr Hc. rewrite Hrs in Hr.
    apply lookup_app_Some in Hc as [Hc|[? Hc]].
    + apply lookup_app_l_Some. eapply inv_observed0; [|done].
      apply lookup_app_Some in Hr as [?|[? _]]; [done|].
      apply lookup_lt_Some in Hc. lia.
    + assert (is_Some (rs !! (w - length (cells s)))) as [r Hr'].
      { apply lookup_lt_is_Some. rewrite Hlrs. by eapply lookup_lt_Some. }
      destruct (Hnew _ _ _ Hr' Hc) as (_&Hnr&_). by destruct (Hnr (VProm p)).
  - intros x Hc.
    assert (cells s !! closed q = Some (Resolved x)) as Hc'.
    { apply lookup_app_Some in Hc as [?|[? _]]; [done|].
      apply lookup_lt_Some in inv_closed0. lia. }
    destruct (inv_signalled0 _ Hc') as (w&i&p&Hw&Hi&Hres).
    exists w, i, p. split_and!; [by eapply ext_role| |by apply lookup_app_l_Some].
    pose proof (HC _ _ _ Hw Hres) as Hok. simpl in Hok.
    destruct Hok as [Hok|(p'&?&?&?&?)].
    + by apply not_plain_put in Hok.
    + destruct (ext_closed _ _ He) as [-> _]; done.
  - intros w i Hw. rewrite Hrs in Hw. apply lookup_app_Some in Hw as [Hw|[_ Hw]].
    + apply inv_issued0 in Hw. lia.
    + by eapply Hiss.
Qed.

Lemma get_eq q s :
  get q s =
  (Ok (VProm (length (cells s) + 2),
       {| ends_promise := VProm (length (cells s) + 1);
          ends_resolve := ends_resolve q; closed := closed q |}),
   State (cells s ++ [Pending []; Pending []; Pending []]) (heap s)
         (tasks s ++ [Send (ends_promise q) (MGet (length (cells s) + 0) (Name "head"));
                      Send (ends_promise q) (MGet (length (cells s) + 1) (Name "tail"));
                      Send (VProm (length (cells s) + 0))
                           (MWhen (length (cells s) + 2) None
                                  (Some (K_get_rejected (closed q))))])).
Proof.
  unfold get, Qget, when, bind, defer, enqueue, modify, ret, set_cells, set_tasks. simpl.
  rewrite !length_app. simpl. rewrite <- !app_assoc. simpl.
  rewrite Nat.add_0_r. by rewrite <- !Nat.add_assoc.
Qed.

(** [get] keeps the invariant: the cursor moves to the next tail. *)
Lemma get_inv g q s :
  Inv g q s →
  Inv (Ghost (puts g) (reason g) (S (ngets g))
             (roles g ++ [RR (ngets g); RT (ngets g); RW (ngets g)]) (oroles g))
      {| ends_promise := VProm (length (cells s) + 1);
         ends_resolve := ends_resolve q; closed := closed q |}
      (State (cells s ++ [Pending []; Pending []; Pending []]) (heap s)
         (tasks s ++ [Send (ends_promise q) (MGet (length (cells s) + 0) (Name "head"));
                      Send (ends_promise q) (MGet (length (cells s) + 1) (Name "tail"));
                      Send (VProm (length (cells s) + 0))
                           (MWhen (length (cells s) + 2) None
                                  (Some (K_get_rejected (closed q))))])).
Proof.
  intros HI. set (g' := Ghost _ _ _ _ _).
  pose proof (inv_roles _ _ _ _ HI) as Hlen.
  assert (ext g g') as He.
  { split; simpl; try done. by apply prefix_app_r. }
  assert (∀ i, roles g' !! (length (cells s) + i) =
               [RR (ngets g); RT (ngets g); RW (ngets g)] !! i) as Hnew.
  { intros i. unfold g'. simpl. rewrite <- Hlen. by rewrite lookup_app_r, Nat.add_sub' by lia. }
  assert (at_pos g' (ngets g) (ends_promise q)) as Hpos.
  { destruct (inv_cursor _ _ _ _ HI) as (c&->&[[-> ?]|(i&->&?)]); simpl.
    - left. by apply lookup_app_l_Some.
    - right. exists i. split; [done|]. by apply lookup_app_l_Some. }
  rewrite <- (app_nil_r (heap s)).
  eapply (grow_inv (λ _, False) g g' q _ s
            [RR (ngets g); RT (ngets g); RW (ngets g)] _ [] []);
    [done|done|done|done|by rewrite app_nil_r|done|done|..].
  - apply (inv_plain _ _ _ _ HI).
  - intros p r c _ _ _. apply cell_ok_grow; [exact He|]. intros _. split_and!; reflexivity.
  - intros [|[|[|i]]] r c Hr Hc; simpl in *; simplify_eq; (split; [done|]);
      (split; [done|]); intros ws [= <-]; (split; [done|]); intros m Hm; simpl in Hm;
      simplify_eq; eexists; rewrite !elem_of_cons; eauto.
  - intros ? ? ? Hr. done.
  - intros x m Hin. rewrite !elem_of_cons, elem_of_nil in Hin.
    destruct Hin as [?|[?|[?|[]]]]; simplify_eq.
    + econstructor; [by rewrite Hnew|done].
    + econstructor; [by rewrite Hnew|done].
    + econstructor; [by rewrite Hnew|]. left. eexists. split; [done|]. by rewrite Hnew.
  - eexists. split; [done|]. right. exists (ngets g). split; [done|]. by rewrite Hnew.
  - simpl. destruct (inv_ends _ _ _ _ HI) as [?|[??]]; [left|right; split; [done|]];
      by apply lookup_app_l_Some.
  - simpl. lia.
  - intros [|[|[|j]]] i Hj; simpl in *; simplify_eq. lia.
Qed.

Lemma resolve_ok d x s : (resolve d x s).1 = Ok tt.
Proof. unfold resolve. by destruct (cells s !! d) as [[]|]. Qed.

Lemma put_eq q v s :
  put q v s =
  (Ok {| ends_promise := ends_promise q; ends_resolve := length (cells s);
         closed := closed q |},
   exec (resolve (ends_resolve q) (VObj (length (heap s))))
        (State (cells s ++ [Pending []])
               (heap s ++ [OObject [(Name "head", v);
                                    (Name "tail", VProm (length (cells s)))] None])
               (tasks s))).
Proof.
  unfold put, bind, defer, new_object, ret, exec, set_cells, set_heap. simpl.
  destruct (resolve _ _ _) as [[[]|e] s'] eqn:E; [done|].
  pose proof (resolve_ok (ends_resolve q) (VObj (length (heap s)))
    (State (cells s ++ [Pending []])
           (heap s ++ [OObject [(Name "head", v); (Name "tail", VProm (length (cells s)))] None])
           (tasks s))) as H.
  rewrite E in H. done.
Qed.

Lemma InvX_weaken X g q s : Inv g q s → InvX X g q s.
Proof.
  intros HI. pose proof (Inv_cells HI). pose proof (Inv_live HI).
  destruct HI. split; eauto.
Qed.

(** [put] keeps the invariant: the value is queued unless the queue was
    closed. *)
Lemma put_inv g q s v :
  Inv g q s → plain v →
  ∃ g', ext g g' ∧ ngets g' = ngets g ∧ reason g' = reason g ∧
        puts g' = match reason g with None => puts g ++ [v] | Some _ => puts g end ∧
        (∀ w i, roles g' !! w = Some (RW i) → roles g !! w = Some (RW i)) ∧
        Inv g' {| ends_promise := ends_promise q; ends_resolve := length (cells s);
                  closed := closed q |}
            (exec (put q v) s).
Proof.
  intros HI Hv. unfold exec at 1. rewrite put_eq. simpl.
  pose proof (inv_roles _ _ _ _ HI) as Hlen.
  pose proof (inv_oroles _ _ _ _ HI) as Holen.
  pose proof (inv_plain _ _ _ _ HI) as Hpl.
  pose proof (Inv_cells HI) as HC.
  set (q' := {| ends_promise := _ |}).
  set (s1 := State _ _ _).
  destruct (reason g) as [r0|] eqn:Hreason.
  - (* closed: the new cell is out of reach *)
    set (g' := Ghost (puts g) (reason g) (ngets g) (roles g ++ [RJunk]) (oroles g ++ [OJunk])).
    assert (ext g g') as He.
    { split; simpl; try done; by apply prefix_app_r. }
    assert (Inv g' q' s1) as HI1.
    { unfold s1. rewrite <- (app_nil_r (tasks s)).
      eapply (grow_inv (λ _, False) g g' q q' s [RJunk] _ [OJunk] _ []);
        [done|done|done|done|done|done|done|done|..].
      - intros p r c _ Hr Hc. apply cell_ok_grow; [done|].
        intros (j&ws&->&->). intros. exfalso.
        pose proof (HC _ _ _ Hr Hc) as Hok. simpl in Hok. naive_solver.
      - intros [|i] r c Hr Hc; simpl in *; simplify_eq.
        split; [done|]. split; [done|]. intros ws [= <-]. split; [done|]. intros m Hm. done.
      - intros [|i] r c Hr Hc; simpl in *; simplify_eq. done.
      - intros x m Hin. by apply elem_of_nil in Hin.
      - eapply cursor_ok_ext; [done|done|]. apply (inv_cursor _ _ _ _ HI).
      - right. split; [unfold g'; simpl; congruence|].
        unfold g'. simpl. rewrite <- Hlen. by rewrite list_lookup_middle.
      - done.
      - intros [|j] i Hj; simpl in *; simplify_eq. }
    exists g'. split_and!; [done|done|done|done|intros w i; by apply snoc_not_RW|].
    destruct (cells s1 !! ends_resolve q) as [[ws| |]|] eqn:Hc.
    + assert (roles g' !! ends_resolve q = Some RJunk) as Hr.
      { destruct (inv_ends _ _ _ _ HI) as [Hr|[_ Hr]]; [|by eapply ext_role].
        eapply (ext_role g g') in Hr; [|done].
        pose proof (Inv_cells HI1 _ _ _ Hr Hc) as Hok. simpl in Hok.
        unfold g' in Hok. simpl in Hok. naive_solver. }
      unfold exec. erewrite resolve_pending by done.
      eapply resolve_inv; [by apply InvX_weaken|done|done|done| |done|done].
      intros m Hg. exfalso. eapply (no_good_at g'); [|exact Hpl|exact Hg]. eauto.
    + unfold exec. rewrite resolve_settled; [done|]. congruence.
    + unfold exec. rewrite resolve_settled; [done|]. congruence.
    + unfold exec. rewrite resolve_settled; [done|]. congruence.
  - (* open: the value is queued *)
    set (n := length (puts g)).
    set (g' := Ghost (puts g ++ [v]) None (ngets g) (roles g ++ [RD (S n)])
                     (oroles g ++ [OCell n])).
    assert (ext g g') as He.
    { split; simpl; try done; by apply prefix_app_r. }
    assert (roles g !! ends_resolve q = Some (RD n)) as Hrd.
    { destruct (inv_ends _ _ _ _ HI) as [?|[? _]]; done. }
    assert (∃ ws, cells s !! ends_resolve q = Some (Pending ws)) as [ws Hws].
    { destruct (role_cell _ _ _ _ _ _ HI Hrd) as [c Hc].
      pose proof (HC _ _ _ Hrd Hc) as Hok. destruct c as [ws|x|]; simpl in Hok; [eauto| |done].
      destruct Hok as (o&->&[Ho|(Ho&_&?)]); [|done].
      destruct (orole_obj _ _ _ _ _ _ HI Ho) as (ob&_&Hob). simpl in Hob.
      destruct Hob as (?&?&Hn&_). apply lookup_lt_Some in Hn. unfold n in *. lia. }
    assert (roles g' !! length (cells s) = Some (RD (S n))) as HrN.
    { unfold g'. simpl. rewrite <- Hlen. by rewrite list_lookup_middle. }
    assert (oroles g' !! length (heap s) = Some (OCell n)) as HoL.
    { unfold g'. simpl. rewrite <- Holen. by rewrite list_lookup_middle. }
    assert (Forall plain (puts g')) as Hpl'.
    { unfold g'. simpl. apply Forall_app. split; [done|]. by apply Forall_singleton. }
    assert (InvX (λ p, p = ends_resolve q) g' q' s1) as HI1.
    { unfold s1. rewrite <- (app_nil_r (tasks s)).
      eapply (grow_inv _ g g' q q' s [RD (S n)] _ [OCell n] _ []);
        [done|done|done|done|done|done|done|done|..].
      - intros p r c Hne Hr Hc Hok. revert Hok. apply cell_ok_grow; [done|].
        intros (j&ws'&->&->). exfalso.
        pose proof (HC _ _ _ Hr Hc) as Hok. simpl in Hok. naive_solver.
      - intros [|i] r c Hr Hc; simpl in *; simplify_eq.
        split; [|split; [done|]].
        + split_and!; [|done|simpl; lia]. unfold g'. simpl. rewrite length_app. simpl.
          unfold n. lia.
        + intros ws' [= <-]. split; [done|]. intros m Hm. done.
      - intros [|i] r c Hr Hc; simpl in *; simplify_eq.
        exists v, (length (cells s)). split_and!; [|done|done].
        unfold g', n. simpl. by apply list_lookup_middle.
      - intros x m Hin. by apply elem_of_nil in Hin.
      - eapply cursor_ok_ext; [done|done|]. apply (inv_cursor _ _ _ _ HI).
      - left. simpl. rewrite length_app. simpl. fold n. by rewrite Nat.add_1_r.
      - done.
      - intros [|j] i Hj; simpl in *; simplify_eq. }
    exists g'. split_and!; [done|done|done|done|intros w i; by apply snoc_not_RW|].
    assert (cells s1 !! ends_resolve q = Some (Pending ws)) as Hc1.
    { by apply lookup_app_l_Some. }
    unfold exec. erewrite resolve_pending by done.
    assert (roles g' !! ends_resolve q = Some (RD n)) as Hrd' by (by eapply ext_role).
    eapply resolve_inv; [done|done|done| | |done|done].
    + simpl. exists (length (heap s)). split; [done|]. by left.
    + intros m Hg. eapply good_at_pos; [by left|done|done|]. simpl. by left.
Qed.

Lemma resolve_closed_inv g q s d x :
  Inv g q s → reason g ≠ None →
  roles g !! d = Some (RD (length (puts g))) ∨ roles g !! d = Some RJunk →
  Inv g q (exec (resolve d x) s).
Proof.
  intros HI Hreason Hd.
  destruct (cells s !! d) as [[ws| |]|] eqn:Hc.
  - assert (roles g !! d = Some RJunk) as Hr.
    { destruct Hd as [Hr|Hr]; [|done].
      pose proof (Inv_cells HI _ _ _ Hr Hc) as Hok. simpl in Hok. naive_solver. }
    unfold exec. erewrite resolve_pending by done.
    eapply resolve_inv; [by apply InvX_weaken|done|done|done| |done|done].
    intros m Hg. exfalso. eapply (no_good_at g); [|apply (inv_plain _ _ _ _ HI)|exact Hg]. eauto.
  - unfold exec. rewrite resolve_settled; [done|]. congruence.
  - unfold exec. rewrite resolve_settled; [done|]. congruence.
  - unfold exec. rewrite resolve_settled; [done|]. congruence.
Qed.

Lemma close_eq q r s :
  close q r s =
  (Ok (VProm (closed q)),
   exec (resolve (ends_resolve q) (VObj (length (heap s))))
        (State (cells s ++ [Rejected r])
               (heap s ++ [OObject [(Name "head", VProm (length (cells s)));
                                    (Name "tail", VObj (length (heap s)))] None])
               (tasks s))).
Proof.
  unfold close, bind, reject, new_object, set_member, modify, ret, exec, set_cells, set_heap.
  simpl. rewrite list_lookup_middle by done. simpl.
  rewrite insert_app_r_alt by done. rewrite Nat.sub_diag. simpl.
  destruct (resolve _ _ _) as [[[]|e] s'] eqn:E; [done|].
  pose proof (resolve_ok (ends_resolve q) (VObj (length (heap s)))
    (State (cells s ++ [Rejected r])
           (heap s ++ [OObject [(Name "head", VProm (length (cells s)));
                                (Name "tail", VObj (length (heap s)))] None])
           (tasks s))) as H.
  rewrite E in H. done.
Qed.

(** [close] keeps the invariant: the first close sets the reason. *)
Lemma close_inv g q s r :
  Inv g q s →
  ∃ g', ext g g' ∧ ngets g' = ngets g ∧ puts g' = puts g ∧
        reason g' = Some (default r (reason g)) ∧
        (∀ w i, roles g' !! w = Some (RW i) → roles g !! w = Some (RW i)) ∧
        Inv g' q (exec (close q r) s).
Proof.
  intros HI. unfold exec at 1. rewrite close_eq. simpl.
  pose proof (inv_roles _ _ _ _ HI) as Hlen.
  pose proof (inv_oroles _ _ _ _ HI) as Holen.
  pose proof (inv_plain _ _ _ _ HI) as Hpl.
  pose proof (Inv_cells HI) as HC.
  set (s1 := State _ _ _).
  destruct (reason g) as [r0|] eqn:Hreason.
  - set (g' := Ghost (puts g) (reason g) (ngets g) (roles g ++ [RJunk]) (oroles g ++ [OJunk])).
    assert (ext g g') as He.
    { split; simpl; try done; by apply prefix_app_r. }
    assert (Inv g' q s1) as HI1.
    { unfold s1. rewrite <- (app_nil_r (tasks s)).
      eapply (grow_inv (λ _, False) g g' q q s [RJunk] _ [OJunk] _ []);
        [done|done|done|done|done|done|done|done|..].
      - intros p r' c _ Hr Hc. apply cell_ok_grow; [done|]. done.
      - intros [|i] r' c Hr Hc; simpl in *; simplify_eq. done.
      - intros [|i] r' c Hr Hc; simpl in *; simplify_eq. done.
      - intros x m Hin. by apply elem_of_nil in Hin.
      - eapply cursor_ok_ext; [done|done|]. apply (inv_cursor _ _ _ _ HI).
      - destruct (inv_ends _ _ _ _ HI) as [?|[??]]; [left|right; split; [done|]];
          by eapply (ext_role g g').
      - done.
      - intros [|j] i Hj; simpl in *; simplify_eq. }
    exists g'. split_and!; [done|done|done|by unfold g'; simpl; rewrite Hreason|
                            intros w i; by apply snoc_not_RW|].
    apply resolve_closed_inv; [done|unfold g'; simpl; congruence|].
    destruct (inv_ends _ _ _ _ HI) as [?|[??]]; [left|right]; by eapply (ext_role g g').
  - set (n := length (puts g)).
    set (g' := Ghost (puts g) (Some r) (ngets g) (roles g ++ [RRej]) (oroles g ++ [OEnd])).
    assert (ext g g') as He.
    { split; simpl; try done; by apply prefix_app_r. }
    assert (roles g !! ends_resolve q = Some (RD n)) as Hrd.
    { destruct (inv_ends _ _ _ _ HI) as [?|[? _]]; done. }
    assert (∃ ws, cells s !! ends_resolve q = Some (Pending ws)) as [ws Hws].
    { destruct (role_cell _ _ _ _ _ _ HI Hrd) as [c Hc].
      pose proof (HC _ _ _ Hrd Hc) as Hok. destruct c as [ws|x|]; simpl in Hok; [eauto| |done].
      destruct Hok as (o&->&[Ho|(Ho&_&?)]); [|done].
      destruct (orole_obj _ _ _ _ _ _ HI Ho) as (ob&_&Hob). simpl in Hob.
      destruct Hob as (?&?&Hn&_). apply lookup_lt_Some in Hn. unfold n in *. lia. }
    assert (roles g' !! length (cells s) = Some RRej) as HrN.
    { unfold g'. simpl. rewrite <- Hlen. by rewrite list_lookup_middle. }
    assert (oroles g' !! length (heap s) = Some OEnd) as HoL.
    { unfold g'. simpl. rewrite <- Holen. by rewrite list_lookup_middle. }
    assert (InvX (λ p, p = ends_resolve q) g' q s1) as HI1.
    { unfold s1. rewrite <- (app_nil_r (tasks s)).
      eapply (grow_inv _ g g' q q s [RRej] _ [OEnd] _ []);
        [done|done|done|done|done|done|done|done|..].
      - intros p r' c Hne Hr Hc Hok. revert Hok. apply cell_ok_grow; [done|].
        intros (j&ws'&->&->). exfalso.
        pose proof (HC _ _ _ Hr Hc) as Hok. simpl in Hok. naive_solver.
      - intros [|i] r' c Hr Hc; simpl in *; simplify_eq. done.
      - intros [|i] r' c Hr Hc; simpl in *; simplify_eq.
        exists (length (cells s)). rewrite Nat.add_0_r. done.
      - intros x m Hin. by apply elem_of_nil in Hin.
      - eapply cursor_ok_ext; [done|done|]. apply (inv_cursor _ _ _ _ HI).
      - left. by eapply (ext_role g g').
      - done.
      - intros [|j] i Hj; simpl in *; simplify_eq. }
    exists g'. split_and!; [done|done|done|done|intros w i; by apply snoc_not_RW|].
    assert (cells s1 !! ends_resolve q = Some (Pending ws)) as Hc1.
    { by apply lookup_app_l_Some. }
    unfold exec. erewrite resolve_pending by done.
    assert (roles g' !! ends_resolve q = Some (RD n)) as Hrd' by (by eapply ext_role).
    eapply resolve_inv; [done|done|done| | |done|done].
    + simpl. exists (length (heap s)). split; [done|]. right. done.
    + intros m Hg. eapply good_at_pos; [by left|done|done|]. simpl. right.
      split_and!; [done|done|done].
Qed.

(** ** Queue: the event loop runs dry, and what the promises settle to *)

Lemma npending_app cs cs' : npending (cs ++ cs') = npending cs + npending cs'.
Proof. induction cs as [|[] cs IH]; simpl; lia. Qed.

Lemma npending_park cs p ws ws' :
  cs !! p = Some (Pending ws) → npending (<[p := Pending ws']> cs) = npending cs.
Proof.
  revert p. induction cs as [|c cs IH]; intros [|p] H; simpl in *; simplify_eq; try done.
  destruct c; simpl; rewrite ?IH; done.
Qed.

Lemma npending_resolve cs p ws x :
  cs !! p = Some (Pending ws) → S (npending (<[p := Resolved x]> cs)) = npending cs.
Proof.
  revert p. induction cs as [|c cs IH]; intros [|p] H; simpl in *; simplify_eq; try done.
  destruct c; simpl; rewrite <- (IH p); done.
Qed.

Lemma settle_cell_npending d x cs :
  npending (settle_cell d x cs) ≤ npending cs ∧
  (npending (settle_cell d x cs) = npending cs → settle_cell d x cs = cs).
Proof.
  unfold settle_cell. destruct (cs !! d) as [[ws| |]|] eqn:E; try done.
  pose proof (npending_resolve cs d ws x E). lia.
Qed.

Lemma resolve_measure d x s :
  npending (cells (exec (resolve d x) s)) < npending (cells s)
  ∨ exec (resolve d x) s = s.
Proof.
  unfold exec, resolve. destruct (cells s !! d) as [[ws| |]|] eqn:E; simpl; try by right.
  left. pose proof (npending_resolve (cells s) d ws x E). lia.
Qed.

Lemma wt_pos g x : 0 < wt g x.
Proof. unfold wt. destruct x; try lia. destruct (roles g !! p) as [[]|]; lia. Qed.

Lemma good_target_role g c p m :
  Forall plain (puts g) → good g c (VProm p) m → ∃ r, roles g !! p = Some r.
Proof.
  intros Hpl Hg.
  inversion Hg as [? ? ? ? Hp|? ? ? ? Hp|? ? ? ? Hp]; subst; simpl in Hp.
  - destruct Hp as [?|(?&?&?)]; eauto.
  - destruct Hp as [?|(?&?&?)]; eauto.
  - destruct Hp as [(p'&?&Hp)|[Hp|(p'&?&Hp&?)]]; simplify_eq; eauto.
    by apply not_plain_put in Hp.
Qed.

Lemma wt_ext g g' c x m :
  ext g g' → Forall plain (puts g) → good g c x m → wt g' x = wt g x.
Proof.
  intros He Hpl Hg. destruct x; try done. simpl.
  destruct (good_target_role _ _ _ _ Hpl Hg) as [r Hr].
  by rewrite Hr, (ext_role _ _ _ _ He Hr).
Qed.

Lemma load_ext g g' c ts :
  ext g g' → Forall plain (puts g) →
  (∀ x m, Send x m ∈ ts → good g c x m) → load g' ts = load g ts.
Proof.
  intros He Hpl. induction ts as [|[x m] ts IH]; intros Hts; [done|].
  unfold load in *. simpl. rewrite IH.
  - f_equal. eapply wt_ext; [done..|]. apply Hts. by left.
  - intros. apply Hts. by right.
Qed.

Lemma load_app g ts ts' : load g (ts ++ ts') = load g ts + load g ts'.
Proof. unfold load. by rewrite sum_list_with_app. Qed.

Lemma load_cons g x m ts : load g (Send x m :: ts) = wt g x + load g ts.
Proof. reflexivity. Qed.

(** A promise weighs more than what it was resolved to. *)
Lemma wt_follow g q s p v m :
  Inv g q s → cells s !! p = Some (Resolved v) →
  good g (closed q) (VProm p) m → wt g v < wt g (VProm p).
Proof.
  intros HI Hc Hg. pose proof (inv_plain _ _ _ _ HI) as Hpl.
  assert (∀ r, roles g !! p = Some r → cell_ok g q p r (Resolved v)) as Hok.
  { intros r Hr. by eapply (Inv_cells HI). }
  inversion Hg as [? ? ? ? Hp|? ? ? ? Hp|? ? ? ? Hp]; subst; simpl in Hp.
  - destruct Hp as [Hp|(i'&->&Hp)]; pose proof (Hok _ Hp) as Hv; simpl in Hv; simpl; rewrite Hp.
    + destruct Hv as (o&->&_). simpl. lia.
    + destruct Hv as [_ Hlow]. destruct v; simpl; try lia.
      destruct (Hlow p0 eq_refl) as [j ->]. lia.
  - destruct Hp as [Hp|(i'&->&Hp)]; pose proof (Hok _ Hp) as Hv; simpl in Hv; simpl; rewrite Hp.
    + destruct Hv as (o&->&_). simpl. lia.
    + destruct Hv as [_ Hlow]. destruct v; simpl; try lia.
      destruct (Hlow p0 eq_refl) as [j ->]. lia.
  - destruct Hp as [(p'&?&Hp)|[Hp|(p'&?&Hp&?)]]; simplify_eq.
    + pose proof (Hok _ Hp) as Hv; simpl in Hv; simpl; rewrite Hp.
      destruct Hv as [Hv|(p''&->&Hrj&_)]; [|simpl; rewrite Hrj; lia].
      destruct v; simpl; try lia. by apply not_plain_put in Hv.
    + by apply not_plain_put in Hp.
    + by pose proof (Hok _ Hp).
Qed.

Lemma ext_trans g1 g2 g3 : ext g1 g2 → ext g2 g3 → ext g1 g3.
Proof.
  intros [H1 H2 H3 H4] [K1 K2 K3 K4]. split.
  - by etrans.
  - by etrans.
  - by etrans.
  - intros Hr. destruct (H4 Hr) as [E1 E2]. destruct K4 as [E3 E4]; [congruence|].
    split; congruence.
Qed.

Lemma same_queue_trans g1 g2 g3 : same_queue g1 g2 → same_queue g2 g3 → same_queue g1 g3.
Proof.
  intros [H1 H2 H3 H4 H5] [K1 K2 K3 K4 K5]. split; [by eapply ext_trans|congruence..|eauto].
Qed.

(** A turn leaves fewer pending promises, or as many and a lighter queue
    of tasks. *)
Lemma step_measure g q s :
  Inv g q s → tasks s ≠ [] →
  ∃ g', same_queue g g' ∧ Inv g' q (step s) ∧
        (npending (cells (step s)) < npending (cells s)
         ∨ (npending (cells (step s)) = npending (cells s)
            ∧ load g' (tasks (step s)) < load g (tasks s))).
Proof.
  intros HI Hne. destruct (step_inv _ _ _ HI) as (g'&Hsame&HI').
  exists g'. split; [done|]. split; [done|].
  destruct (tasks s) as [|[x m] rest] eqn:Ht; [done|]. clear Hne.
  assert (good g (closed q) x m) as Hg.
  { apply (inv_tasks _ _ _ _ HI). rewrite Ht. by left. }
  pose proof (inv_plain _ _ _ _ HI) as Hpl.
  assert (load g' rest = load g rest) as Hrest.
  { eapply load_ext; [apply Hsame|done|]. intros. apply (inv_tasks _ _ _ _ HI).
    rewrite Ht. by right. }
  pose proof (wt_pos g x) as Hpos.
  assert (∀ d v, step s = exec (resolve d v) (State (cells s) (heap s) rest) →
     npending (cells (step s)) < npending (cells s)
     ∨ npending (cells (step s)) = npending (cells s)
       ∧ load g' (tasks (step s)) < load g (Send x m :: rest)) as Hres.
  { intros d v ->. destruct (resolve_measure d v (State (cells s) (heap s) rest)) as [?| ->].
    - by left.
    - right. split; [done|]. cbn [tasks]. rewrite load_cons. lia. }
  assert (plain x ∨ ∃ p, x = VProm p) as [Hx|[p ->]].
  { destruct x; try (left; intros ??; congruence). right. eauto. }
  - rewrite (step_plain s x m rest) in * by done.
    inversion Hg as [? ? ? ? Hp|? ? ? ? Hp|? ? ? ? Hp]; subst.
    + destruct x; simpl in Hp; try done; [|by destruct (Hx p)].
      rewrite <- (step_plain s (VObj r) _ rest) in * by done.
      eapply (Hres d). rewrite (step_plain s (VObj r) _ rest) by done. reflexivity.
    + destruct x; simpl in Hp; try done; [|by destruct (Hx p)].
      rewrite <- (step_plain s (VObj r) _ rest) in * by done.
      eapply (Hres d). rewrite (step_plain s (VObj r) _ rest) by done. reflexivity.
    + rewrite <- (step_plain s x _ rest) in * by done.
      eapply (Hres d). rewrite (step_plain s x _ rest) by done. reflexivity.
  - destruct (good_target_role _ _ _ _ Hpl Hg) as [r Hr].
    destruct (role_cell _ _ _ _ _ _ HI Hr) as [c Hc].
    destruct c as [ws|v|r0].
    + right. unfold step. rewrite Ht, Hc. cbn [set_cells cells tasks]. split.
      * by erewrite npending_park.
      * rewrite load_cons. lia.
    + right. unfold step. rewrite Ht, Hc. cbn [set_tasks cells tasks]. split; [done|].
      rewrite load_app, !load_cons. unfold load at 2. cbn [sum_list_with].
      pose proof (wt_follow _ _ _ _ _ _ HI Hc Hg) as Hlt.
      rewrite (wt_ext g g' (closed q) v m); [lia|apply Hsame|done|].
      by eapply transfer.
    + inversion Hg as [? ? ? ? Hp|? ? ? ? Hp|? ? ? ? Hp]; subst; simpl in Hp.
      * destruct Hp as [Hp|(?&?&Hp)]; by pose proof (Inv_cells HI _ _ _ Hp Hc).
      * destruct Hp as [Hp|(?&?&Hp)]; by pose proof (Inv_cells HI _ _ _ Hp Hc).
      * erewrite step_rejected_eq by done. cbn [cells tasks].
        pose proof (settle_cell_npending d (VProm (length (cells s)))
                      (settle_cell (closed q) VUndef (cells s) ++ [Rejected r0])) as [H1 _].
        pose proof (settle_cell_npending (closed q) VUndef (cells s)) as [H2 _].
        rewrite npending_app in H1. simpl in H1.
        rewrite load_cons.
        destruct (decide (npending (settle_cell d (VProm (length (cells s)))
                      (settle_cell (closed q) VUndef (cells s) ++ [Rejected r0]))
                    = npending (cells s))); [right; split; [done|lia]|left; lia].
Qed.

Lemma drain_aux q np : ∀ ld g s,
  Inv g q s → npending (cells s) ≤ np → load g (tasks s) ≤ ld →
  ∃ k g', same_queue g g' ∧ Inv g' q (run k s) ∧ quiescent (run k s).
Proof.
  induction np as [np IHnp] using lt_wf_ind.
  induction ld as [ld IHld] using lt_wf_ind.
  intros g s HI Hnp Hld.
  destruct (tasks s) as [|t ts] eqn:Ht.
  { exists 0, g. split; [apply same_queue_refl|]. by split. }
  destruct (step_measure g q s HI) as (g1&Hs1&HI1&Hm); [by rewrite Ht|].
  rewrite Ht in *.
  destruct Hm as [Hlt|[Heq Hlt]].
  - destruct (IHnp (npending (cells (step s))) ltac:(lia) _ g1 (step s) HI1 (le_n _) (le_n _))
      as (k&g'&?&?&?).
    exists (S k), g'. split; [by eapply same_queue_trans|]. done.
  - destruct (IHld (load g1 (tasks (step s))) ltac:(lia) g1 (step s) HI1 ltac:(lia) (le_n _))
      as (k&g'&?&?&?).
    exists (S k), g'. split; [by eapply same_queue_trans|]. done.
Qed.

(** The event loop runs dry. *)
Lemma drain g q s :
  Inv g q s → ∃ k g', same_queue g g' ∧ Inv g' q (run k s) ∧ quiescent (run k s).
Proof. intros HI. by eapply (drain_aux q _ _ g s HI (le_n _) (le_n _)). Qed.

(** Any number of turns keeps the invariant. *)
Lemma run_inv g q s k :
  Inv g q s → ∃ g', same_queue g g' ∧ Inv g' q (run k s).
Proof.
  revert g s. induction k as [|k IH]; intros g s HI.
  { exists g. split; [apply same_queue_refl|done]. }
  destruct (step_inv _ _ _ HI) as (g1&?&HI1).
  destruct (IH _ _ HI1) as (g'&?&?). exists g'. split; [by eapply same_queue_trans|done].
Qed.

Lemma parked g q s m :
  Inv g q s → quiescent s → inflight s m →
  ∃ p ws, cells s !! p = Some (Pending ws) ∧ good g (closed q) (VProm p) m.
Proof.
  intros HI Hq [(x&Hx)|(p&ws&Hp&Hm)].
  - rewrite Hq in Hx. by apply elem_of_nil in Hx.
  - exists p, ws. split; [done|]. by eapply (inv_waiters _ _ _ _ HI).
Qed.

Lemma settled_pos g q s j p :
  Inv g q s → quiescent s → avail g j → at_pos g j (VProm p) →
  ∃ v, cells s !! p = Some (Resolved v).
Proof.
  intros HI Hq. revert p. induction j as [|i IH]; intros p Hav Hp; simpl in Hp.
  - destruct Hp as [Hp|(?&?&?)]; [|done].
    destruct (role_cell _ _ _ _ _ _ HI Hp) as [c Hc].
    pose proof (Inv_cells HI _ _ _ Hp Hc) as Hok. destruct c; simpl in Hok; [|eauto|done].
    destruct Hok as (?&?&_). destruct Hav; [lia|done].
  - destruct Hp as [Hp|(i'&?&Hp)].
    + destruct (role_cell _ _ _ _ _ _ HI Hp) as [c Hc].
      pose proof (Inv_cells HI _ _ _ Hp Hc) as Hok. destruct c; simpl in Hok; [|eauto|done].
      destruct Hok as (?&?&_). destruct Hav; [lia|done].
    + simplify_eq. destruct (role_cell _ _ _ _ _ _ HI Hp) as [c Hc].
      pose proof (Inv_cells HI _ _ _ Hp Hc) as Hok. destruct c; simpl in Hok; [|eauto|done].
      exfalso.
      destruct (parked g q s (MGet p (Name "tail")) HI Hq) as (p'&ws&Hp'&Hg).
      { by eapply (Inv_live HI). }
      inversion Hg as [|? ? ? ? Hpos|]; subst. simplify_eq.
      destruct (IH p') as [v Hv]; [|done|congruence].
      destruct Hav; [left; lia|by right].
Qed.

Lemma settled_head g q s i d :
  Inv g q s → quiescent s → avail g i → roles g !! d = Some (RR i) →
  ∃ v, cells s !! d = Some (Resolved v) ∧ res_of g i v.
Proof.
  intros HI Hq Hav Hd. destruct (role_cell _ _ _ _ _ _ HI Hd) as [c Hc].
  pose proof (Inv_cells HI _ _ _ Hd Hc) as Hok. destruct c; simpl in Hok; [|eauto|done].
  exfalso.
  destruct (parked g q s (MGet d (Name "head")) HI Hq) as (p'&ws&Hp'&Hg).
  { by eapply (Inv_live HI). }
  inversion Hg as [? ? ? ? Hpos| |]; subst. simplify_eq.
  destruct (settled_pos g q s i p') as [v Hv]; [done..|congruence].
Qed.

Lemma settled_get g q s i w :
  Inv g q s → quiescent s → avail g i → roles g !! w = Some (RW i) →
  ∃ v, cells s !! w = Some (Resolved v) ∧ res_of g i v.
Proof.
  intros HI Hq Hav Hd. destruct (role_cell _ _ _ _ _ _ HI Hd) as [c Hc].
  pose proof (Inv_cells HI _ _ _ Hd Hc) as Hok. destruct c; simpl in Hok; [|eauto|done].
  exfalso.
  destruct (parked g q s (MWhen w None (Some (K_get_rejected (closed q)))) HI Hq)
    as (p'&ws&Hp'&Hg).
  { by eapply (Inv_live HI). }
  inversion Hg as [| |? ? ? ? Hpos]; subst. simplify_eq.
  destruct Hpos as [(p''&?&Hp)|[Hp|(p''&?&Hp&?)]]; simplify_eq.
  - destruct (settled_head g q s i p'') as (v&Hv&_); [done..|congruence].
  - apply not_plain_put in Hp; [done|]. apply (inv_plain _ _ _ _ HI).
  - by pose proof (Inv_cells HI _ _ _ Hp Hp').
Qed.

Lemma outcome_plain s w v :
  cells s !! w = Some (Resolved v) → plain v → outcome_of s (VProm w) = Fulfilled v.
Proof.
  intros Hw Hv. unfold outcome_of.
  destruct (length (cells s)) as [|n] eqn:E.
  { apply lookup_lt_Some in Hw. lia. }
  simpl. rewrite Hw. destruct v as [| | | | | | | |p']; try (by destruct n). by destruct (Hv p').
Qed.

Lemma outcome_rejected s w p r :
  cells s !! w = Some (Resolved (VProm p)) → cells s !! p = Some (Rejected r) →
  outcome_of s (VProm w) = Failed r.
Proof.
  intros Hw Hp. unfold outcome_of.
  destruct (length (cells s)) as [|n] eqn:E.
  { apply lookup_lt_Some in Hw. lia. }
  simpl. rewrite Hw. destruct n; simpl; by rewrite Hp.
Qed.

Lemma outcome_pending s w ws :
  cells s !! w = Some (Pending ws) → outcome_of s (VProm w) = Unsettled.
Proof.
  intros Hw. unfold outcome_of. destruct (length (cells s)); simpl; by rewrite Hw.
Qed.

(** What the promise of the i-th get is, at any time... *)
Lemma get_outcome_safe g q s i w :
  Inv g q s → roles g !! w = Some (RW i) →
  outcome_of s (VProm w) = Unsettled
  ∨ (∃ v, puts g !! i = Some v ∧ outcome_of s (VProm w) = Fulfilled v)
  ∨ (∃ r, length (puts g) ≤ i ∧ reason g = Some r ∧ outcome_of s (VProm w) = Failed r).
Proof.
  intros HI Hw. destruct (role_cell _ _ _ _ _ _ HI Hw) as [c Hc].
  pose proof (Inv_cells HI _ _ _ Hw Hc) as Hok. destruct c as [ws|v|]; simpl in Hok; [| |done].
  - left. by eapply outcome_pending.
  - right. destruct Hok as [Hv|(p&->&Hp&?&?)].
    + left. exists v. split; [done|]. apply outcome_plain; [done|].
      pose proof (inv_plain _ _ _ _ HI) as Hpl. by eapply Forall_lookup_1 in Hpl.
    + right. destruct (role_cell _ _ _ _ _ _ HI Hp) as [c Hc'].
      pose proof (Inv_cells HI _ _ _ Hp Hc') as Hok. destruct c as [| |r]; simpl in Hok; try done.
      exists r. split_and!; [done..|]. by eapply outcome_rejected.
Qed.

(** ... and once the event loop has run dry. *)
Lemma get_outcome_live g q s i w :
  Inv g q s → quiescent s → roles g !! w = Some (RW i) →
  outcome_of s (VProm w) =
  match puts g !! i, reason g with
  | Some v, _ => Fulfilled v
  | None, Some r => Failed r
  | None, None => Unsettled
  end.
Proof.
  intros HI Hq Hw.
  pose proof (inv_plain _ _ _ _ HI) as Hpl.
  destruct (puts g !! i) as [v|] eqn:Hv; [|destruct (reason g) as [r|] eqn:Hr].
  - destruct (settled_get g q s i w) as (x&Hx&[Hres|(p&_&_&?&_)]); [done|done| |done| |].
    + left. by eapply lookup_lt_Some.
    + simplify_eq. apply outcome_plain; [done|]. by eapply Forall_lookup_1 in Hpl.
    + apply lookup_lt_Some in Hv. lia.
  - destruct (settled_get g q s i w) as (x&Hx&[Hres|(p&->&Hp&_&_)]); [done|done| |done| |].
    + right. congruence.
    + congruence.
    + destruct (role_cell _ _ _ _ _ _ HI Hp) as [c Hc].
      pose proof (Inv_cells HI _ _ _ Hp Hc) as Hok. destruct c as [| |r']; simpl in Hok; try done.
      simplify_eq. by eapply outcome_rejected.
  - destruct (role_cell _ _ _ _ _ _ HI Hw) as [c Hc].
    pose proof (Inv_cells HI _ _ _ Hw Hc) as Hok. destruct c as [ws|x|]; simpl in Hok; [| |done].
    + by eapply outcome_pending.
    + destruct Hok as [?|(?&?&?&?&?)]; congruence.
Qed.

(** ** Queue: the invariant along a session *)

Lemma tracks_same g g' q s s' l :
  tracks g (Session q s l) → same_queue g g' → Inv g' q s' → tracks g' (Session q s' l).
Proof.
  intros [HI Hl Hg Ha] Hs HI'. split; simpl in *; [done| | |].
  - by rewrite (same_ngets _ _ Hs).
  - intros i r Hr. destruct (Hg i r Hr) as (w&->&Hw). exists w. split; [done|].
    eapply ext_role; [apply Hs|done].
  - intros w i Hw. apply Ha. by apply (same_gets _ _ Hs).
Qed.

(** Every call keeps the invariant, and the ghost state records it. *)
Lemma perform_tracks g x o :
  tracks g x → plain_op o →
  ∃ x' g', perform o x = Some x' ∧ tracks g' x' ∧ ext g g' ∧
    puts g' = match reason g, o with
              | None, Put v => puts g ++ [v]
              | _, _ => puts g
              end ∧
    reason g' = match reason g, o with
                | None, Close r => Some r
                | _, _ => reason g
                end ∧
    closed (queue_of x') = closed (queue_of x) ∧
    length (got x') = length (got x) + match o with Get => 1 | _ => 0 end.
Proof.
  intros [HI Hl Hg Ha] Ho. destruct x as [q s l]. simpl in *.
  destruct o as [v| |r|]; cbn [perform queue_of state_of got].
  - destruct (put_inv g q s v HI Ho) as (g'&He&Hn&Hr&Hp&Hrw&HI').
    unfold exec in HI'. rewrite put_eq in *. simpl in *.
    eexists _, g'. split; [done|]. split_and!; [|done| | |done|simpl; lia].
    + split; simpl; [done|congruence| |].
      * intros i r Hi. destruct (Hg i r Hi) as (w&->&Hw). exists w. split; [done|].
        by eapply ext_role.
      * intros w i Hw. eauto.
    + rewrite Hp. by destruct (reason g).
    + rewrite Hr. by destruct (reason g).
  - pose proof (get_inv g q s HI) as HI'. rewrite get_eq.
    set (g' := Ghost _ _ _ _ _) in HI'.
    assert (ext g g') as He.
    { split; simpl; try done. by apply prefix_app_r. }
    eexists _, g'. split; [done|].
    split_and!; [|done|by destruct (reason g)..|done|simpl; rewrite length_app; simpl; lia].
    split; simpl; [done|rewrite length_app; simpl; lia| |].
    + intros i r Hi. apply lookup_snoc_Some in Hi as [[_ Hi]|[-> <-]].
      * destruct (Hg i r Hi) as (w&->&Hw). exists w. split; [done|]. by apply lookup_app_l_Some.
      * eexists. split; [done|]. rewrite Hl.
        rewrite <- (inv_roles _ _ _ _ HI). rewrite lookup_app_r by lia.
        by replace (length (roles g) + 2 - length (roles g)) with 2 by lia.
    + intros w i Hw. apply lookup_app_Some in Hw as [Hw|[Hge Hw]].
      * apply lookup_app_l_Some. eauto.
      * rewrite (inv_roles _ _ _ _ HI) in Hw, Hge.
        destruct (w - length (cells s)) as [|[|[|j]]] eqn:E; simpl in Hw; simplify_eq.
        rewrite <- Hl. replace w with (length (cells s) + 2) by lia.
        by rewrite list_lookup_middle.
  - destruct (close_inv g q s r HI) as (g'&He&Hn&Hp&Hr&Hrw&HI').
    unfold exec in HI'. rewrite close_eq in *. simpl in *.
    eexists _, g'. split; [done|]. split_and!; [|done| | |done|simpl; lia].
    + split; simpl; [done|congruence| |].
      * intros i r' Hi. destruct (Hg i r' Hi) as (w&->&Hw). exists w. split; [done|].
        by eapply ext_role.
      * intros w i Hw. eauto.
    + rewrite Hp. by destruct (reason g).
    + rewrite Hr. by destruct (reason g).
  - destruct (step_inv g q s HI) as (g'&Hs&HI').
    eexists _, g'. split; [done|]. split_and!.
    + by eapply (tracks_same g g' q s).
    + apply Hs.
    + rewrite (same_puts _ _ Hs). by destruct (reason g).
    + rewrite (same_reason _ _ Hs). by destruct (reason g).
    + done.
    + simpl. lia.
Qed.

Lemma performs_tracks ops : ∀ g x,
  tracks g x → Forall plain_op ops →
  ∃ x' g', performs ops x = Some x' ∧ tracks g' x' ∧
    puts g' = puts g ++ match reason g with None => queued ops | Some _ => [] end ∧
    reason g' = match reason g with None => shut ops | Some r => Some r end ∧
    closed (queue_of x') = closed (queue_of x) ∧
    length (got x') = length (got x) + gets_in ops.
Proof.
  induction ops as [|o ops IH]; intros g x Ht Hpl.
  { exists x, g. split; [done|]. split; [done|]. simpl.
    destruct (reason g); rewrite ?app_nil_r; split_and!; try done; lia. }
  apply Forall_cons in Hpl as [Ho Hpl].
  destruct (perform_tracks g x o Ht Ho) as (x1&g1&Hx1&Ht1&_&Hp1&Hr1&Hc1&Hl1).
  destruct (IH g1 x1 Ht1 Hpl) as (x'&g'&Hx'&Ht'&Hp'&Hr'&Hc'&Hl').
  exists x', g'. simpl. rewrite Hx1. split; [done|]. split; [done|].
  rewrite Hp', Hr', Hp1, Hr1, Hc', Hc1, Hl', Hl1.
  destruct (reason g); [destruct o; split_and!; try done; lia|].
  destruct o; simpl; rewrite <- ?app_assoc; split_and!; try done; lia.
Qed.

(** A session from a fresh queue: the ghost state holds the values put
    before the first close, its reason and the number of gets. *)
Lemma play_tracks ops :
  Forall plain_op ops →
  ∃ x g, play ops = Some x ∧ tracks g x ∧ puts g = queued ops ∧ reason g = shut ops ∧
         closed (queue_of x) = 1 ∧ length (got x) = gets_in ops.
Proof.
  intros Hpl. unfold play. simpl.
  destruct (performs_tracks ops (Ghost [] None 0 [RD 0; RClosed] [])
              (Session {| ends_promise := VProm 0; ends_resolve := 0; closed := 1 |}
                       (State [Pending []; Pending []] [] []) []))
    as (x&g&Hx&Ht&Hp&Hr&Hc&Hl); [|done|].
  - split; simpl; [apply Queue_inv|done| |].
    + intros i r Hi. done.
    + intros [|[|w]] i Hw; simpl in Hw; simplify_eq.
  - exists x, g. done.
Qed.

(** ** Queue: first in, first out; close; closed *)

Lemma tracks_run g x k :
  tracks g x →
  ∃ g', same_queue g g' ∧ Inv g' (queue_of x) (run k (state_of x)).
Proof. intros Ht. apply run_inv. apply Ht. Qed.

Lemma tracks_settles g x : tracks g x → ∃ k, settles x k.
Proof.
  intros Ht. destruct (drain g (queue_of x) (state_of x)) as (k&g'&_&_&Hq); [apply Ht|].
  by exists k.
Qed.

Lemma get_at g x i r k :
  tracks g x → got x !! i = Some r →
  (outcome_at x k r = Unsettled
   ∨ (∃ v, puts g !! i = Some v ∧ outcome_at x k r = Fulfilled v)
   ∨ (∃ e, length (puts g) ≤ i ∧ reason g = Some e ∧ outcome_at x k r = Failed e))
  ∧ (settles x k →
     outcome_at x k r = match puts g !! i, reason g with
                        | Some v, _ => Fulfilled v
                        | None, Some e => Failed e
                        | None, None => Unsettled
                        end).
Proof.
  intros Ht Hi. destruct (tr_got _ _ Ht i r Hi) as (w&->&Hw).
  destruct (tracks_run g x k Ht) as (g'&Hs&HI).
  pose proof (ext_role _ _ _ _ (same_ext _ _ Hs) Hw) as Hw'.
  rewrite <- (same_puts _ _ Hs), <- (same_reason _ _ Hs). split.
  - by eapply get_outcome_safe.
  - intros Hq. by eapply get_outcome_live.
Qed.


(** C1: the i-th get resolves to the i-th value put, whatever the order of
    the calls and of the turns of the event loop: its promise is never
    settled to anything else, and it is fulfilled with that value once the
    event loop has run dry, which it does. *)
Theorem fifo ops :
  Forall plain_op ops →
  ∃ x, play ops = Some x ∧ (∃ k, settles x k) ∧
       ∀ i v, queued ops !! i = Some v → i < gets_in ops →
         ∃ r, got x !! i = Some r ∧
              (∀ k, outcome_at x k r = Unsettled ∨ outcome_at x k r = Fulfilled v) ∧
              (∀ k, settles x k → outcome_at x k r = Fulfilled v).
Proof.
  intros Hpl. destruct (play_tracks ops Hpl) as (x&g&Hx&Ht&Hp&Hr&_&Hl).
  exists x. split; [done|]. split; [by eapply tracks_settles|].
  intros i v Hv Hi. rewrite <- Hl in Hi.
  destruct (lookup_lt_is_Some_2 _ _ Hi) as [r Hgot]. exists r. split; [done|].
  rewrite <- Hp in Hv. split.
  - intros k. destruct (get_at g x i r k Ht Hgot) as [[?|[(v'&?&?)|(e&Hge&_)]] _].
    + by left.
    + right. congruence.
    + apply lookup_lt_Some in Hv. lia.
  - intros k Hq. destruct (get_at g x i r k Ht Hgot) as [_ Hlive].
    rewrite Hlive by done. by rewrite Hv.
Qed.

Lemma fifo_witness :
  let ops := [Get; Put (VNum 1); Turn; Get; Put (VStr "two"); Get; Put (VNum 3); Turn] in
  ∃ x, play ops = Some x ∧ (∃ k, settles x k) ∧
       ∀ i v, queued ops !! i = Some v → i < gets_in ops →
         ∃ r, got x !! i = Some r ∧
              (∀ k, outcome_at x k r = Unsettled ∨ outcome_at x k r = Fulfilled v) ∧
              (∀ k, settles x k → outcome_at x k r = Fulfilled v).
Proof.
  apply (fifo [Get; Put (VNum 1); Turn; Get; Put (VStr "two"); Get; Put (VNum 3); Turn]).
  plain_ops.
Defined.

(** C2: once the queue is closed, every get past the values queued before
    the close rejects with the reason of the close, however many there are. *)
Theorem close_is_terminal ops reason :
  Forall plain_op ops → shut ops = Some reason →
  ∃ x, play ops = Some x ∧ (∃ k, settles x k) ∧
       ∀ i, length (queued ops) ≤ i → i < gets_in ops →
         ∃ r, got x !! i = Some r ∧
              (∀ k, outcome_at x k r = Unsettled ∨ outcome_at x k r = Failed reason) ∧
              (∀ k, settles x k → outcome_at x k r = Failed reason).
Proof.
  intros Hpl Hshut. destruct (play_tracks ops Hpl) as (x&g&Hx&Ht&Hp&Hr&_&Hl).
  exists x. split; [done|]. split; [by eapply tracks_settles|].
  intros i Hge Hi. rewrite <- Hl in Hi.
  destruct (lookup_lt_is_Some_2 _ _ Hi) as [r Hgot]. exists r. split; [done|].
  rewrite <- Hp in Hge. rewrite Hshut in Hr. split.
  - intros k. destruct (get_at g x i r k Ht Hgot) as [[?|[(v'&Hv&?)|(e&_&?&?)]] _].
    + by left.
    + apply lookup_lt_Some in Hv. lia.
    + right. congruence.
  - intros k Hq. destruct (get_at g x i r k Ht Hgot) as [_ Hlive].
    rewrite Hlive by done. rewrite Hr. by rewrite lookup_ge_None_2.
Qed.

Lemma close_is_terminal_witness :
  let ops := [Put (VNum 1); Get; Close (VStr "X"); Get; Turn; Get; Get] in
  ∃ x, play ops = Some x ∧ (∃ k, settles x k) ∧
       ∀ i, length (queued ops) ≤ i → i < gets_in ops →
         ∃ r, got x !! i = Some r ∧
              (∀ k, outcome_at x k r = Unsettled ∨ outcome_at x k r = Failed (VStr "X")) ∧
              (∀ k, settles x k → outcome_at x k r = Failed (VStr "X")).
Proof.
  apply (close_is_terminal [Put (VNum 1); Get; Close (VStr "X"); Get; Turn; Get; Get]
           (VStr "X")).
  - plain_ops.
  - reflexivity.
Defined.




Lemma queued_closed pre reason post :
  shut pre = None → queued (pre ++ Close reason :: post) = queued pre.
Proof.
  induction pre as [|[] pre IH]; simpl; intros H; try done; by rewrite ?IH.
Qed.

Lemma shut_closed pre reason post :
  shut pre = None → shut (pre ++ Close reason :: post) = Some reason.
Proof. induction pre as [|[] pre IH]; simpl; intros H; try done; by rewrite ?IH. Qed.

Lemma gets_in_app ops ops' : gets_in (ops ++ ops') = gets_in ops + gets_in ops'.
Proof. induction ops as [|[] ops IH]; simpl; lia. Qed.

Lemma gets_in_without_puts ops : gets_in (without_puts ops) = gets_in ops.
Proof. induction ops as [|[] ops IH]; simpl; lia. Qed.

Lemma plain_without_puts ops : Forall plain_op ops → Forall plain_op (without_puts ops).
Proof.
  induction 1 as [|[] ops Ho Hops IH]; simpl; try done; by apply Forall_cons.
Qed.

(** C10: a put after close changes nothing of what the gets observe: every
    get past the values queued before the close is rejected with the reason
    of the close and never gets a value, and all gets settle as they do when
    the later puts are left out. *)
Theorem put_after_close pre reason post :
  Forall plain_op (pre ++ Close reason :: post) → shut pre = None →
  ∃ x y, play (pre ++ Close reason :: post) = Some x ∧
         play (pre ++ Close reason :: without_puts post) = Some y ∧
         (∃ k, settles x k) ∧ (∃ k, settles y k) ∧
         (∀ i r, length (queued pre) ≤ i → got x !! i = Some r →
            (∀ k, outcome_at x k r = Unsettled ∨ outcome_at x k r = Failed reason) ∧
            (∀ k, settles x k → outcome_at x k r = Failed reason)) ∧
         (∀ k k', settles x k → settles y k' →
            outcome_at x k <$> got x = outcome_at y k' <$> got y).
Proof.
  intros Hpl Hopen.
  assert (Forall plain_op (pre ++ Close reason :: without_puts post)) as Hpl'.
  { apply Forall_app in Hpl as [H1 H2]. apply Forall_cons in H2 as [H2 H3].
    apply Forall_app. split; [done|]. apply Forall_cons. split; [done|].
    by apply plain_without_puts. }
  destruct (play_tracks _ Hpl) as (x&g&Hx&Ht&Hp&Hr&_&Hl).
  destruct (play_tracks _ Hpl') as (y&g'&Hy&Ht'&Hp'&Hr'&_&Hl').
  rewrite queued_closed in Hp, Hp' by done. rewrite shut_closed in Hr, Hr' by done.
  exists x, y. split_and!; [done|done|by eapply tracks_settles|by eapply tracks_settles| |].
  - intros i r Hge Hgot. rewrite <- Hp in Hge. split.
    + intros k. destruct (get_at g x i r k Ht Hgot) as [[?|[(v'&Hv&?)|(e&_&?&?)]] _].
      * by left.
      * apply lookup_lt_Some in Hv. lia.
      * right. congruence.
    + intros k Hq. destruct (get_at g x i r k Ht Hgot) as [_ Hlive].
      rewrite Hlive by done. rewrite Hr. by rewrite lookup_ge_None_2.
  - intros k k' Hq Hq'. apply list_eq. intros i. rewrite !list_lookup_fmap.
    assert (length (got x) = length (got y)) as Hlen.
    { rewrite Hl, Hl', !gets_in_app. simpl. by rewrite gets_in_without_puts. }
    destruct (got x !! i) as [r|] eqn:Hi; destruct (got y !! i) as [r'|] eqn:Hi'; simpl.
    + destruct (get_at g x i r k Ht Hi) as [_ H1].
      destruct (get_at g' y i r' k' Ht' Hi') as [_ H2].
      rewrite H1, H2 by done. by rewrite Hp, Hp', Hr, Hr'.
    + apply lookup_lt_Some in Hi. apply lookup_ge_None in Hi'. lia.
    + apply lookup_lt_Some in Hi'. apply lookup_ge_None in Hi. lia.
    + done.
Qed.

Lemma put_after_close_witness :
  let pre := [Put (VNum 1); Get] in
  let post := [Put (VNum 2); Get; Turn; Put (VNum 3); Get] in
  ∃ x y, play (pre ++ Close (VStr "X") :: post) = Some x ∧
         play (pre ++ Close (VStr "X") :: without_puts post) = Some y ∧
         (∃ k, settles x k) ∧ (∃ k, settles y k) ∧
         (∀ i r, length (queued pre) ≤ i → got x !! i = Some r →
            (∀ k, outcome_at x k r = Unsettled ∨ outcome_at x k r = Failed (VStr "X")) ∧
            (∀ k, settles x k → outcome_at x k r = Failed (VStr "X"))) ∧
         (∀ k k', settles x k → settles y k' →
            outcome_at x k <$> got x = outcome_at y k' <$> got y).
Proof.
  apply (put_after_close [Put (VNum 1); Get] (VStr "X")
           [Put (VNum 2); Get; Turn; Put (VNum 3); Get]).
  - plain_ops.
  - reflexivity.
Defined.

(** ** Schedules: what the check establishes *)

Lemma step_quiescent s : quiescent s → step s = s.
Proof. unfold quiescent, step. by intros ->. Qed.

Lemma run_quiescent k s : quiescent s → run k s = s.
Proof. induction k as [|k IH]; [done|]. intros H. simpl. rewrite step_quiescent by done. auto. Qed.

Lemma run_add k k' s : run (k + k') s = run k' (run k s).
Proof. revert s. induction k as [|k IH]; intros s; simpl; [done|]. by rewrite IH. Qed.

(** Past the turn where the event loop runs dry nothing changes. *)
Lemma turns_left_spec fuel s t :
  turns_left fuel s = Some t →
  quiescent (run t s) ∧ (∀ k, t ≤ k → run k s = run t s)
  ∧ (∀ k, quiescent (run k s) → run k s = run t s).
Proof.
  revert s t. induction fuel as [|fuel IH]; intros s t; simpl.
  - destruct (tasks s) eqn:E; [|done]. intros [= <-]. simpl.
    split; [done|]. split; intros; by rewrite run_quiescent.
  - destruct (tasks s) eqn:E.
    + intros [= <-]. simpl. split; [done|]. split; intros; by rewrite run_quiescent.
    + destruct (turns_left fuel (step s)) as [t'|] eqn:E'; [|done]. simpl. intros [= <-].
      destruct (IH _ _ E') as (Hq&Hge&Hany). simpl. split; [done|]. split.
      * intros [|k] Hk; [lia|]. simpl. apply Hge. lia.
      * intros [|k] Hk; simpl in *.
        -- unfold quiescent in Hk. congruence.
        -- by apply Hany.
Qed.

Lemma remove_one_perm e es : e ∈ es → es ≡ₚ e :: remove_one e es.
Proof.
  induction es as [|e' es IH]; [by intros ?%elem_of_nil|].
  intros Hin. simpl. destruct (decide (e = e')) as [->|Hne]; [done|].
  apply elem_of_cons in Hin as [?|Hin]; [done|].
  rewrite (IH Hin) at 1. apply Permutation_swap.
Qed.

Lemma check_cons call inputs final n fuel e es w :
  check call inputs final (S n) fuel (e :: es) w =
  match turns_left fuel (w_state w) with
  | None => false
  | Some t =>
      forallb (λ k,
        forallb (λ e', check call inputs final n fuel (remove_one e' (e :: es))
                         (fire call inputs e' (advance k w))) (e :: es))
        (seq 0 (S t))
  end.
Proof. reflexivity. Qed.

Lemma check_nil call inputs final n fuel w :
  check call inputs final n fuel [] w =
  match turns_left fuel (w_state w) with
  | None => false
  | Some t => final (advance t w)
  end.
Proof. by destruct n. Qed.

(** A check that succeeds covers every schedule of the events. *)
Lemma check_sound call inputs final n fuel : ∀ es w sched,
  check call inputs final n fuel es w = true →
  sched.*2 ≡ₚ es →
  ∃ t, quiescent (run t (w_state (follow call inputs sched w)))
       ∧ ∀ k, quiescent (run k (w_state (follow call inputs sched w))) →
              final (advance k (follow call inputs sched w)) = true.
Proof.
  induction n as [|n IH]; intros es w sched Hc Hp.
  - simpl in Hc. destruct (turns_left fuel (w_state w)) as [t|] eqn:Et; [|done].
    destruct es; [|done]. apply Permutation_nil_r in Hp. apply fmap_nil_inv in Hp as ->.
    simpl. destruct (turns_left_spec _ _ _ Et) as (Hq&_&Hany).
    exists t. split; [done|]. intros k Hk. unfold advance in *. by rewrite (Hany k Hk).
  - destruct es as [|e0 es].
    { rewrite check_nil in Hc.
      destruct (turns_left fuel (w_state w)) as [t|] eqn:Et; [|done].
      destruct (turns_left_spec _ _ _ Et) as (Hq&Hge&Hany).
      apply Permutation_nil_r in Hp. apply fmap_nil_inv in Hp as ->. simpl.
      exists t. split; [done|]. intros k Hk. unfold advance in *. by rewrite (Hany k Hk). }
    rewrite check_cons in Hc.
    destruct (turns_left fuel (w_state w)) as [t|] eqn:Et; [|done].
    destruct (turns_left_spec _ _ _ Et) as (Hq&Hge&Hany).
    destruct sched as [|[k e] sched]; [by apply Permutation_nil_cons in Hp|].
    simpl in Hp. simpl.
    assert (e ∈ e0 :: es) as Hin.
    { rewrite <- Hp. by left. }
    rewrite forallb_forall in Hc.
    assert (advance k w = advance (k `min` t) w) as ->.
    { unfold advance. f_equal. destruct (decide (k ≤ t)).
      - by rewrite Nat.min_l.
      - rewrite Nat.min_r by lia. apply Hge. lia. }
    specialize (Hc (k `min` t)). rewrite forallb_forall in Hc.
    eapply IH.
    + apply Hc; [apply in_seq; lia|]. by apply list_elem_of_In.
    + apply (Permutation_cons_inv (a := e)). rewrite Hp. by apply remove_one_perm.
Qed.

Lemma reduceLeft_checked :
  check reduceLeft_call [VNum 2; VNum 3; VNum 4] (fulfils (VNum 1)) 4 40
        [Call; Settle 0; Settle 1; Settle 2] three_futures = true.
Proof. vm_compute. reflexivity. Qed.

(** ** Deep resolution: delivering a message *)

(** Sums over the store of promises. *)
Lemma sum_imap_insert {A} (f : nat → A → nat) l i x y :
  l !! i = Some x →
  sum_list (imap f (<[i:=y]> l)) + f i x = sum_list (imap f l) + f i y.
Proof.
  revert f i. induction l as [|a l IH]; intros f [|i] H; simpl in *; simplify_eq; [lia|].
  specialize (IH (f ∘ S) i H). simpl in IH. lia.
Qed.

Lemma sum_imap_app {A} (f : nat → A → nat) l l' :
  sum_list (imap f (l ++ l')) =
  sum_list (imap f l) + sum_list (imap (λ i, f (length l + i)) l').
Proof. rewrite imap_app. apply (sum_list_with_app id). Qed.

Lemma sum_imap_ext {A} (f g : nat → A → nat) l :
  (∀ i x, l !! i = Some x → f i x = g i x) →
  sum_list (imap f l) = sum_list (imap g l).
Proof. intros H. f_equal. by apply imap_ext. Qed.

Lemma sum_list_with_ext {A} (f g : A → nat) l :
  (∀ x, x ∈ l → f x = g x) → sum_list_with f l = sum_list_with g l.
Proof.
  induction l as [|a l IH]; intros H; simpl; [done|].
  rewrite H by (by left). rewrite IH; [done|]. intros. apply H. by right.
Qed.

Lemma sum_list_with_fmap {A B} (f : B → nat) (g : A → B) l :
  sum_list_with f (g <$> l) = sum_list_with (λ x, f (g x)) l.
Proof. induction l as [|a l IH]; [done|]. cbn. by rewrite IH. Qed.

Lemma grows_refl γ : grows γ γ.
Proof. by split. Qed.

Lemma grows_trans γ1 γ2 γ3 : grows γ1 γ2 → grows γ2 γ3 → grows γ1 γ3.
Proof. intros [??] [??]. split; by etrans. Qed.

Section DeepLemmas.
Variable h : list obj.

Lemma grows_exps γ γ' d e : grows γ γ' → exps γ !! d = Some e → exps γ' !! d = Some e.
Proof. intros [H _] ?. by eapply prefix_lookup_Some. Qed.

Lemma grows_rank_of γ γ' d :
  grows γ γ' → d < length (ranks γ) → rank_of γ' d = rank_of γ d.
Proof.
  intros [_ H] Hd. unfold rank_of.
  destruct (lookup_lt_is_Some_2 _ _ Hd) as [n Hn].
  by rewrite Hn, (prefix_lookup_Some _ _ _ _ Hn H).
Qed.

Lemma grows_expv γ γ' x :
  grows γ γ' → target_ok (length (exps γ)) x → expv γ' x = expv γ x.
Proof.
  intros [H _] Hx. destruct x; try done. simpl in *.
  destruct (lookup_lt_is_Some_2 _ _ Hx) as [n Hn].
  by rewrite Hn, (prefix_lookup_Some _ _ _ _ Hn H).
Qed.

Lemma grows_rankv γ γ' x :
  grows γ γ' → target_ok (length (ranks γ)) x → rankv γ' x = rankv γ x.
Proof.
  intros [_ H] Hx. destruct x; try done. simpl in *.
  destruct (lookup_lt_is_Some_2 _ _ Hx) as [n Hn].
  by rewrite Hn, (prefix_lookup_Some _ _ _ _ Hn H).
Qed.

Lemma target_ok_le n n' x : n ≤ n' → target_ok n x → target_ok n' x.
Proof. destruct x; simpl; try done. lia. Qed.

Lemma kont_ok_grows γ γ' k e d :
  grows γ γ' → d < length (ranks γ) → kont_ok h γ k e d → kont_ok h γ' k e d.
Proof.
  intros Hg Hd. pose proof (grows_rank_of _ _ _ Hg Hd) as Hr.
  destruct k; simpl; try done; repeat case_match; try done; rewrite ?Hr;
    intros; destruct_and?; split_and?; eauto using grows_exps.
Qed.

Lemma msg_ok_grows γ γ' n n' x m :
  grows γ γ' → length (exps γ) = n → length (ranks γ) = n → n ≤ n' →
  msg_ok h γ n x m → msg_ok h γ' n' x m.
Proof.
  intros Hg <- Hr Hn (d&k&->&Hd&Hx&Hk&Hlt).
  exists d, k. split; [done|]. split; [lia|]. split; [by eapply target_ok_le|].
  rewrite (grows_expv γ γ'), (grows_rankv γ γ'), (grows_rank_of γ γ')
    by (rewrite ?Hr; done).
  split; [|done]. eapply kont_ok_grows; [done|lia|done].
Qed.

Lemma cell_fine_grows γ γ' n n' p c :
  grows γ γ' → length (exps γ) = n → length (ranks γ) = n → n ≤ n' → p < n →
  cell_fine γ n p c → cell_fine γ' n' p c.
Proof.
  intros Hg <- Hr Hn Hp. destruct c; simpl; try done.
  intros (Hx&Hexp&Hlt&Hq).
  rewrite (grows_expv γ γ'), (grows_rankv γ γ'), (grows_rank_of γ γ')
    by (rewrite ?Hr; done).
  split_and!; [by eapply target_ok_le|by eapply grows_exps|done|done].
Qed.

Lemma twork_grows γ γ' n x m :
  grows γ γ' → length (exps γ) = n → msg_ok h γ n x m →
  twork h γ' (Send x m) = twork h γ (Send x m).
Proof.
  intros Hg <- (d&k&->&Hd&Hx&Hk&Hlt). simpl.
  by rewrite (grows_expv γ γ') by done.
Qed.

Lemma cwork_grows γ γ' p c :
  grows γ γ' → p < length (exps γ) → cwork h γ' p c = cwork h γ p c.
Proof.
  intros Hg Hp. destruct c; simpl; try done.
  apply sum_list_with_ext. intros m _.
  pose proof (grows_expv γ γ' (VProm p) Hg Hp) as H. simpl in H. by rewrite H.
Qed.

Lemma cells_work_grows γ γ' cs :
  grows γ γ' → length (exps γ) = length cs →
  sum_list (imap (cwork h γ') cs) = sum_list (imap (cwork h γ) cs).
Proof.
  intros Hg Hl. apply sum_imap_ext. intros i x Hi. apply cwork_grows; [done|].
  rewrite Hl. by eapply lookup_lt_Some.
Qed.

Lemma tasks_work_grows γ γ' n ts :
  grows γ γ' → length (exps γ) = n → (∀ x m, Send x m ∈ ts → msg_ok h γ n x m) →
  sum_list_with (twork h γ') ts = sum_list_with (twork h γ) ts.
Proof.
  intros Hg Hl Hts. apply sum_list_with_ext. intros [x m] Hin.
  eapply twork_grows; eauto.
Qed.

Lemma new_cells_work γ n nc :
  sum_list (imap (λ i, cwork h γ (n + i)) (replicate nc (Pending []))) = 0.
Proof.
  revert n. induction nc as [|nc IH]; intros n; simpl; [done|].
  rewrite <- (IH (S n)). f_equal. apply imap_ext. intros. simpl. f_equal. lia.
Qed.

(** Delivering a message to its callback: the callback makes [nc]
    promises and sends [newtasks], and its deferred is resolved to what
    it returns. *)
Lemma deliver_J γ γ' s x d k rest ne nr nc newtasks v :
  J h γ s →
  tasks s = Send x (MWhen d (Some k) None) :: rest →
  (∀ q, x ≠ VProm q) →
  exps γ' = exps γ ++ ne → ranks γ' = ranks γ ++ nr →
  length ne = nc → length nr = nc →
  (∀ y m, Send y m ∈ newtasks → msg_ok h γ' (length (cells s) + nc) y m) →
  (∀ j, j < nc → ∃ y m, deferred m = length (cells s) + j ∧ Send y m ∈ newtasks) →
  target_ok (length (cells s) + nc) v →
  exps γ !! d = Some (expv γ' v) →
  rankv γ' v < rank_of γ d →
  (∀ q, v = VProm q → d < q) →
  sum_list_with (twork h γ') newtasks ≤ pot h x (MWhen d (Some k) None) →
  J h γ' (exec (resolve d v)
            (State (cells s ++ replicate nc (Pending [])) h (rest ++ newtasks)))
  ∧ work h γ' (exec (resolve d v)
            (State (cells s ++ replicate nc (Pending [])) h (rest ++ newtasks)))
    < work h γ s.
Proof.
  intros HJ Ht Hx He Hr Hne Hnr HT HL Hv Hexp Hrank Hq HW.
  set (n := length (cells s)) in *.
  assert (grows γ γ') as Hg.
  { split; [rewrite He|rewrite Hr]; by apply prefix_app_r. }
  pose proof (j_exps _ _ _ HJ) as Hle. pose proof (j_ranks _ _ _ HJ) as Hlr.
  fold n in Hle, Hlr.
  assert (msg_ok h γ n x (MWhen d (Some k) None)) as Hm0.
  { apply (j_tasks _ _ _ HJ). rewrite Ht. by left. }
  assert (d < n) as Hd.
  { destruct Hm0 as (?&?&[= <- <-]&?&_). done. }
  assert (rank_of γ' d = rank_of γ d) as Hrd by (apply grows_rank_of; [done|lia]).
  assert (expv γ' (VProm d) = expv γ' v) as Hev.
  { simpl. by rewrite (grows_exps _ _ _ _ Hg Hexp). }
  assert (∀ y m, Send y m ∈ rest → msg_ok h γ n y m) as Hrest.
  { intros. apply (j_tasks _ _ _ HJ). rewrite Ht. by right. }
  assert (∀ y m, Send y m ∈ rest ++ newtasks → msg_ok h γ' (n + nc) y m) as Hts1.
  { intros y m [?|?]%elem_of_app; [|by eauto].
    eapply msg_ok_grows; [done|done|done|lia|by eauto]. }
  assert (∀ p c, (cells s ++ replicate nc (Pending [])) !! p = Some c →
            (p < n ∧ cells s !! p = Some c) ∨ (n ≤ p < n + nc ∧ c = Pending [])) as Hlook.
  { intros p c [?|[? Hc]]%lookup_app_Some.
    - left. split; [by eapply lookup_lt_Some|done].
    - right. apply lookup_replicate in Hc as [? ?]. split; [|done]. unfold n. lia. }
  assert (sum_list_with (twork h γ') (rest ++ newtasks)
          + sum_list (imap (cwork h γ') (cells s ++ replicate nc (Pending [])))
          < work h γ s) as Hwork1.
  { unfold work. rewrite Ht. simpl.
    rewrite sum_list_with_app, sum_imap_app, new_cells_work.
    rewrite (tasks_work_grows γ γ' n rest), (cells_work_grows γ γ') by done.
    assert (expv γ x = x) as -> by (destruct x; try done; by destruct (Hx p)).
    simpl in HW. lia. }
  destruct (cells s !! d) as [c|] eqn:Hc; [|apply lookup_ge_None in Hc; lia].
  assert ((cells s ++ replicate nc (Pending [])) !! d = Some c) as Hc1
    by (by apply lookup_app_l_Some).
  assert ((∃ ws, c = Pending ws) ∨ ¬ ∃ ws, c = Pending ws) as [[ws ->]|Hnp].
  { destruct c; eauto; right; intros [? ?]; done. }
  - (* the deferred is pending *)
    unfold exec. erewrite resolve_pending by done. simpl. split.
    + split; simpl.
      * done.
      * rewrite He, length_insert, !length_app, length_replicate. lia.
      * rewrite Hr, length_insert, !length_app, length_replicate. lia.
      * rewrite length_insert, length_app, length_replicate. fold n.
        intros p c Hp. apply list_lookup_insert_Some in Hp as [(<-&<-&_)|(Hne'&Hp)].
        -- simpl. rewrite Hrd. split_and!; [done|by eapply grows_exps|done|done].
        -- apply Hlook in Hp as [[? Hp]|[? ->]]; [|done].
           eapply cell_fine_grows; [done|done|done|lia|done|].
           by apply (j_cells _ _ _ HJ).
      * rewrite length_insert, length_app, length_replicate. fold n.
        intros y m [?|Hin]%elem_of_app; [by eauto|].
        apply list_elem_of_fmap in Hin as (m'&[= -> ->]&Hin).
        pose proof (j_waiters _ _ _ HJ d ws m' Hc Hin) as Hw.
        eapply (msg_ok_grows γ γ' n (n + nc)) in Hw; [|done|done|done|lia].
        destruct Hw as (d'&k'&->&?&?&Hk&Hlt). exists d', k'.
        split_and!; [done|done|done| |].
        ++ by rewrite <- Hev.
        ++ simpl in Hlt. fold (rank_of γ' d) in Hlt. lia.
      * rewrite length_insert, length_app, length_replicate. fold n.
        intros p ws' m Hp Hin.
        apply list_lookup_insert_Some in Hp as [(?&?&_)|(Hne'&Hp)]; [done|].
        apply Hlook in Hp as [[? Hp]|[? Heq]].
        -- eapply msg_ok_grows; [done|done|done|lia|]. by eapply (j_waiters _ _ _ HJ).
        -- injection Heq as ->. by apply elem_of_nil in Hin.
      * intros d' ws' Hp.
        apply list_lookup_insert_Some in Hp as [(?&?&_)|(Hne'&Hp)]; [done|].
        apply Hlook in Hp as [[? Hp]|[? ?]].
        -- destruct (j_live _ _ _ HJ d' ws' Hp) as (y&m&Hdm&[Hin|(p&ws''&Hp'&Hin)]).
           ++ rewrite Ht in Hin. apply elem_of_cons in Hin as [Heq|Hin].
              { injection Heq as -> ->. simpl in Hdm. congruence. }
              exists y, m. split; [done|]. left. rewrite !elem_of_app. by left; left.
           ++ destruct (decide (p = d)) as [->|].
              { rewrite Hc in Hp'. injection Hp' as <-.
                exists v, m. split; [done|]. left. rewrite !elem_of_app. right.
                apply list_elem_of_fmap. eauto. }
              exists y, m. split; [done|]. right. exists p, ws''. split; [|done].
              rewrite list_lookup_insert_ne by done. by apply lookup_app_l_Some.
        -- destruct (HL (d' - n)) as (y&m&Hdm&Hin); [lia|].
           exists y, m. split; [lia|]. left. rewrite !elem_of_app. by left; right.
    + unfold work. cbn [tasks cells]. rewrite sum_list_with_app.
      pose proof (sum_imap_insert (cwork h γ') _ d _ (Resolved v) Hc1) as Hs.
      cbn [cwork] in Hs.
      assert (sum_list_with (twork h γ') (Send v <$> ws)
              = sum_list_with (λ m, 1 + pot h (expv γ' (VProm d)) m) ws) as Hun.
      { rewrite Hev. by rewrite sum_list_with_fmap. }
      unfold work in Hwork1. lia.
  - (* it has been resolved already *)
    unfold exec. rewrite resolve_settled by (simpl; intros ws; rewrite Hc1; naive_solver).
    simpl. split; [|done]. split; simpl.
    * done.
    * rewrite He, !length_app, length_replicate. lia.
    * rewrite Hr, !length_app, length_replicate. lia.
    * rewrite length_app, length_replicate. fold n.
      intros p c' Hp. apply Hlook in Hp as [[? Hp]|[? ->]]; [|done].
      eapply cell_fine_grows; [done|done|done|lia|done|]. by apply (j_cells _ _ _ HJ).
    * rewrite length_app, length_replicate. fold n. done.
    * rewrite length_app, length_replicate. fold n.
      intros p ws' m Hp Hin. apply Hlook in Hp as [[? Hp]|[? Heq]].
      -- eapply msg_ok_grows; [done|done|done|lia|]. by eapply (j_waiters _ _ _ HJ).
      -- injection Heq as ->. by apply elem_of_nil in Hin.
    * intros d' ws' Hp. apply Hlook in Hp as [[? Hp]|[? ?]].
      -- destruct (j_live _ _ _ HJ d' ws' Hp) as (y&m&Hdm&[Hin|(p&ws''&Hp'&Hin)]).
         ++ rewrite Ht in Hin. apply elem_of_cons in Hin as [Heq|Hin].
            { injection Heq as -> ->. simpl in Hdm. subst d'. exfalso. apply Hnp.
              rewrite Hc in Hp. injection Hp as ->. eauto. }
            exists y, m. split; [done|]. left. rewrite !elem_of_app. by left.
         ++ exists y, m. split; [done|]. right. exists p, ws''. split; [|done].
            by apply lookup_app_l_Some.
      -- destruct (HL (d' - n)) as (y&m&Hdm&Hin); [lia|].
         exists y, m. split; [lia|]. left. rewrite !elem_of_app. by right.
Qed.
End DeepLemmas.

(** ** Deep resolution: the members of a resolved heap *)

Lemma assoc_elem k props v : assoc k props = Some v → (k, v) ∈ props.
Proof.
  induction props as [|[k' v'] props IH]; simpl; [done|].
  destruct (decide (k = k')) as [->|]; [intros [= ->]; by left|].
  intros. right. auto.
Qed.

Lemma assoc_fst k props : k ∈ props.*1 → is_Some (assoc k props).
Proof.
  induction props as [|[k' v'] props IH]; simpl; [by intros ?%elem_of_nil|].
  destruct (decide (k = k')) as [->|]; [by eauto|].
  intros [?|?]%elem_of_cons; [done|auto].
Qed.

Lemma assoc_set_id k props v : assoc k props = Some v → assoc_set k v props = props.
Proof.
  induction props as [|[k' v'] props IH]; simpl; [done|].
  destruct (decide (k = k')) as [->|]; [by intros [= ->]|].
  intros. f_equal. auto.
Qed.

Lemma for_in_elem fuel h r k :
  k ∈ for_in fuel h r [] →
  match h !! r with
  | Some (OObject props None) => k ∈ props.*1
  | Some (OArray elems) => ∃ n, k = Index n ∧ n < length elems
  | Some (OObject _ (Some _)) => True
  | _ => False
  end.
Proof.
  destruct fuel; simpl; destruct (h !! r) as [[props [p|]|elems|]|]; try done;
    try (by intros ?%elem_of_nil).
  - by intros [_ ?]%list_elem_of_filter.
  - intros [_ (n&->&Hn)%list_elem_of_fmap]%list_elem_of_filter.
    apply elem_of_seq in Hn. exists n. split; [done|lia].
  - by intros [_ ?]%list_elem_of_filter.
  - intros [_ (n&->&Hn)%list_elem_of_fmap]%list_elem_of_filter.
    apply elem_of_seq in Hn. exists n. split; [done|lia].
Qed.

Lemma lookup_prop_plain fuel h r k props :
  h !! r = Some (OObject props None) →
  lookup_prop fuel h r k = default VUndef (assoc k props).
Proof. intros H. destruct fuel; simpl; rewrite H; by destruct (assoc k props). Qed.

Lemma lookup_prop_array fuel h r n elems :
  h !! r = Some (OArray elems) →
  lookup_prop fuel h r (Index n) = default VUndef (elems !! n).
Proof. intros H. destruct fuel; simpl; by rewrite H. Qed.

(** The members of an object of a resolved heap: resolved values, each the
    value of its key, so that writing it back changes nothing. *)
Lemma kvs_child h r k c :
  heap_wf h → (k, c) ∈ kvs h r →
  child_ok r c ∧ ∀ o, h !! r = Some o → assign o k c = o.
Proof.
  intros Hwf (k'&[= <- ->]&Hin)%list_elem_of_fmap.
  apply for_in_elem in Hin.
  destruct (h !! r) as [[props [p|]|elems|]|] eqn:Hr; try done.
  - by destruct (Hwf _ _ Hr) as [? _].
  - destruct (Hwf _ _ Hr) as [_ Hall].
    destruct (assoc_fst _ _ Hin) as [v Hv].
    rewrite (lookup_prop_plain _ _ _ _ _ Hr), Hv. simpl. split.
    + rewrite Forall_forall in Hall. apply Hall.
      apply list_elem_of_fmap. exists (k, v). split; [done|]. by apply assoc_elem.
    + intros o [= <-]. simpl. by rewrite (assoc_set_id _ _ _ Hv).
  - destruct Hin as (n&->&Hn). pose proof (Hwf _ _ Hr) as Hall. simpl in Hall.
    destruct (lookup_lt_is_Some_2 _ _ Hn) as [v Hv].
    rewrite (lookup_prop_array _ _ _ _ _ Hr), Hv. simpl. split.
    + rewrite Forall_forall in Hall. apply Hall. by eapply list_elem_of_lookup_2.
    + intros o [= <-]. simpl. rewrite decide_True by done. by rewrite list_insert_id.
Qed.

Lemma child_ok_le r r' c : r ≤ r' → child_ok r c → child_ok r' c.
Proof. destruct c; simpl; try done. lia. Qed.

Lemma child_ok_not_promise r c : child_ok r c → ∀ q, c ≠ VProm q.
Proof. by destruct c. Qed.

Lemma table_upto_length n h : length (table_upto n h) = n.
Proof. induction n as [|n IH]; simpl; [done|]. rewrite length_app, IH. simpl. lia. Qed.

Lemma table_upto_lookup n h r :
  r < n → table_upto n h !! r = Some (entry (table_upto r h) h r).
Proof.
  induction n as [|n IH]; [lia|]. intros Hr. simpl.
  destruct (decide (r = n)) as [->|].
  - rewrite lookup_app_r by (rewrite table_upto_length; lia).
    by rewrite table_upto_length, Nat.sub_diag.
  - rewrite lookup_app_l by (rewrite table_upto_length; lia). apply IH. lia.
Qed.

Lemma need_val_upto h r n c :
  child_ok r c → r ≤ n →
  need_val (table_upto n h) c = need_val (table_upto r h) c
  ∧ work_val (table_upto n h) c = work_val (table_upto r h) c.
Proof.
  destruct c; simpl; try done. intros ??.
  by rewrite !table_upto_lookup by lia.
Qed.

Lemma table_entry h r :
  heap_wf h → r < length h → table h !! r = Some (entry (table h) h r).
Proof.
  intros Hwf Hr. unfold table. rewrite table_upto_lookup by done. f_equal.
  unfold entry. destruct (instanceof_Date h (VObj r)); [done|].
  f_equal; (f_equal; apply sum_list_with_ext; intros c Hc; f_equal;
    apply list_elem_of_fmap in Hc as ([k c']&->&Hc); simpl;
    apply (kvs_child _ _ _ _ Hwf) in Hc as [Hc _];
    symmetry; by apply need_val_upto; [|lia]).
Qed.

Lemma need_pos h c : heap_wf h → child_ok (length h) c → 1 ≤ need_val (table h) c.
Proof.
  intros Hwf. destruct c; simpl; try done. intros Hr.
  rewrite table_entry by done. simpl. unfold entry.
  destruct (instanceof_Date h (VObj r)); simpl; lia.
Qed.

Lemma need_container h r :
  heap_wf h → r < length h → instanceof_Date h (VObj r) = false →
  need_val (table h) (VObj r)
  = sum_list_with (λ c, need_val (table h) c + 3) (kvs h r).*2 + 2
  ∧ work_val (table h) (VObj r)
    = sum_list_with (λ c, work_val (table h) c + 3) (kvs h r).*2 + 1.
Proof.
  intros Hwf Hr Hd. simpl. rewrite table_entry by done. unfold entry. by rewrite Hd.
Qed.

(** ** Deep resolution: the loop of consolidate *)

(** The loop of lines 206-214 on a heap object: one promise and one
    message per member. *)
Lemma members_eq r keys : ∀ sync s,
  members Deep (VObj r) keys sync s =
  (Ok (last_sync (length keys) (length (cells s)) sync),
   State (cells s ++ replicate (length keys) (Pending []))
         (heap s)
         (tasks s ++ member_tasks (VObj r)
            ((λ k, (k, lookup_prop (length (heap s)) (heap s) r k)) <$> keys)
            (length (cells s)) sync)).
Proof.
  induction keys as [|k keys IH]; intros sync s.
  - simpl. rewrite !app_nil_r. by destruct s.
  - cbn [members]. unfold bind at 1. cbn [get_member gets].
    unfold bind at 1, when, bind, defer, enqueue, modify, ret. cbn.
    rewrite IH. cbn. rewrite length_app, Nat.add_1_r, <- !app_assoc. cbn.
    do 2 f_equal. destruct (length keys); simpl; f_equal; lia.
Qed.

Lemma member_tasks_elem x l : ∀ n sync y m,
  Send y m ∈ member_tasks x l n sync ↔
  ∃ j i c, l !! j = Some (i, c) ∧ y = last_sync j n sync
           ∧ m = MWhen (n + j) (Some (K_member Deep x i c)) None.
Proof.
  induction l as [|[i c] l IH]; intros n sync y m; simpl.
  - split; [by intros ?%elem_of_nil|]. by intros (?&?&?&?&_).
  - rewrite elem_of_cons, IH. split.
    + intros [[= -> ->]|(j&i'&c'&Hj&->&->)].
      * exists 0, i, c. by rewrite Nat.add_0_r.
      * exists (S j), i', c'. split; [done|]. split.
        -- destruct j; simpl; f_equal; lia.
        -- f_equal. lia.
    + intros ([|j]&i'&c'&Hj&->&->); simpl in Hj.
      * left. injection Hj as -> ->. by rewrite Nat.add_0_r.
      * right. exists j, i', c'. split; [done|]. split.
        -- destruct j; simpl; f_equal; lia.
        -- f_equal. lia.
Qed.

(** A message delivered to a callback that returns. *)
Lemma step_deliver s x d k rest v s' :
  tasks s = Send x (MWhen d (Some k) None) :: rest →
  (∀ q, x ≠ VProm q) →
  apply_kont k x (State (cells s) (heap s) rest) = (Ok v, s') →
  step s = exec (resolve d v) s'.
Proof.
  intros Ht Hx Hk. unfold step. rewrite Ht.
  transitivity (exec (deliver_fulfilled x (MWhen d (Some k) None))
                  (State (cells s) (heap s) rest)).
  { destruct x; try done. by destruct (Hx p). }
  unfold exec, deliver_fulfilled, bind, catch. by rewrite Hk.
Qed.

(** ** Deep resolution: a message that is parked or forwarded *)

Lemma lookup_app_plus {A} (l l' : list A) n j :
  length l = n → (l ++ l') !! (n + j) = l' !! j.
Proof. intros <-. rewrite lookup_app_r by lia. f_equal. lia. Qed.

Section DeepSteps.
Variable h : list obj.
Hypothesis Hwf : heap_wf h.

(** A callback that makes no promise and returns a value. *)
Lemma deliver_plain γ s x d k rest v :
  J h γ s →
  tasks s = Send x (MWhen d (Some k) None) :: rest →
  (∀ q, x ≠ VProm q) → (∀ q, v ≠ VProm q) →
  exps γ !! d = Some v →
  J h γ (exec (resolve d v) (State (cells s) h rest))
  ∧ work h γ (exec (resolve d v) (State (cells s) h rest)) < work h γ s.
Proof.
  intros HJ Ht Hx Hv He.
  assert (expv γ v = v) as Hev by (destruct v; try done; by destruct (Hv p)).
  assert (rankv γ v = 0) as Hrv by (destruct v; try done; by destruct (Hv p)).
  assert (msg_ok h γ (length (cells s)) x (MWhen d (Some k) None))
    as (d'&k'&[= <- <-]&Hd&_&_&Hlt).
  { apply (j_tasks _ _ _ HJ). rewrite Ht. by left. }
  pose proof (deliver_J h γ γ s x d k rest [] [] 0 [] v HJ Ht Hx) as H.
  cbn [replicate] in H. rewrite !app_nil_r in H. apply H; try done.
  - by intros ?? ?%elem_of_nil.
  - lia.
  - destruct v; try done. by destruct (Hv p).
  - by rewrite Hev.
  - lia.
  - intros q ->. by destruct (Hv q).
  - simpl. lia.
Qed.

(** A message for a pending promise is parked with it: the work is the
    same, with one message less on its way. *)
Lemma park_J γ s p m rest ws :
  J h γ s →
  tasks s = Send (VProm p) m :: rest →
  cells s !! p = Some (Pending ws) →
  J h γ (step s) ∧ work h γ (step s) = work h γ s
  ∧ hops γ (tasks (step s)) < hops γ (tasks s).
Proof.
  intros HJ Ht Hc. unfold step. rewrite Ht, Hc. unfold set_cells. cbn [cells heap tasks].
  assert (msg_ok h γ (length (cells s)) (VProm p) m) as Hm.
  { apply (j_tasks _ _ _ HJ). rewrite Ht. by left. }
  split; [|split].
  - split; cbn [cells heap tasks]; rewrite ?length_insert.
    + apply (j_heap _ _ _ HJ).
    + apply (j_exps _ _ _ HJ).
    + apply (j_ranks _ _ _ HJ).
    + intros q c Hq. apply list_lookup_insert_Some in Hq as [(_&<-&_)|(?&Hq)]; [done|].
      by apply (j_cells _ _ _ HJ).
    + intros y m' Hin. apply (j_tasks _ _ _ HJ). rewrite Ht. by right.
    + intros q ws' m' Hq Hin.
      apply list_lookup_insert_Some in Hq as [(<-&[= <-]&_)|(?&Hq)].
      * apply elem_of_app in Hin as [Hin|Hin%list_elem_of_singleton].
        -- by apply (j_waiters _ _ _ HJ p ws).
        -- by subst.
      * by apply (j_waiters _ _ _ HJ q ws').
    + intros d ws' Hd.
      assert (∃ ws0, cells s !! d = Some (Pending ws0)) as [ws0 Hd0].
      { apply list_lookup_insert_Some in Hd as [(<-&_&_)|(?&Hd)]; eauto. }
      assert (∀ q ws1 m1, cells s !! q = Some (Pending ws1) → m1 ∈ ws1 →
                ∃ q' ws', <[p:=Pending (ws ++ [m])]> (cells s) !! q' = Some (Pending ws')
                          ∧ m1 ∈ ws') as Hkeep.
      { intros q ws1 m1 Hq Hin. destruct (decide (q = p)) as [->|].
        - exists p, (ws ++ [m]). rewrite list_lookup_insert_eq by (by eapply lookup_lt_Some).
          split; [done|]. rewrite Hc in Hq. injection Hq as <-.
          apply elem_of_app. by left.
        - exists q, ws1. by rewrite list_lookup_insert_ne. }
      destruct (j_live _ _ _ HJ d ws0 Hd0) as (y&m0&Hdm&[Hin|(q&ws1&Hq&Hin)]).
      * rewrite Ht in Hin. apply elem_of_cons in Hin as [[= -> ->]|Hin].
        -- exists (VProm p), m. split; [done|]. right. exists p, (ws ++ [m]).
           rewrite list_lookup_insert_eq by (by eapply lookup_lt_Some).
           split; [done|]. apply elem_of_app. right. by left.
        -- exists y, m0. split; [done|]. by left.
      * exists y, m0. split; [done|]. right. eauto.
  - unfold work. cbn [cells tasks]. rewrite Ht. cbn [sum_list_with].
    pose proof (sum_imap_insert (cwork h γ) _ p _ (Pending (ws ++ [m])) Hc) as Hs.
    cbn [cwork] in Hs. rewrite sum_list_with_app in Hs. cbn [sum_list_with] in Hs.
    cbn [twork]. lia.
  - unfold hops. cbn [sum_list_with]. lia.
Qed.

(** A message for a resolved promise is forwarded, to a target of smaller
    rank. *)
Lemma follow_J γ s p m rest v :
  J h γ s →
  tasks s = Send (VProm p) m :: rest →
  cells s !! p = Some (Resolved v) →
  J h γ (step s) ∧ work h γ (step s) = work h γ s
  ∧ hops γ (tasks (step s)) < hops γ (tasks s).
Proof.
  intros HJ Ht Hc. unfold step. rewrite Ht, Hc. unfold set_tasks. cbn [cells heap tasks].
  assert (msg_ok h γ (length (cells s)) (VProm p) m) as (d&k&->&Hd&Hp&Hk&Hlt).
  { apply (j_tasks _ _ _ HJ). rewrite Ht. by left. }
  destruct (j_cells _ _ _ HJ _ _ Hc) as (Hv&He&Hr&Hq).
  assert (expv γ (VProm p) = expv γ v) as Hev by (simpl; by rewrite He).
  assert (rankv γ (VProm p) = rank_of γ p) as Hrp by done.
  split; [|split].
  - split; cbn [cells heap tasks].
    + apply (j_heap _ _ _ HJ).
    + apply (j_exps _ _ _ HJ).
    + apply (j_ranks _ _ _ HJ).
    + apply (j_cells _ _ _ HJ).
    + intros y m' [Hin|Hin%list_elem_of_singleton]%elem_of_app.
      * apply (j_tasks _ _ _ HJ). rewrite Ht. by right.
      * injection Hin as -> ->. exists d, k. split_and!; try done.
        -- by rewrite <- Hev.
        -- lia.
    + apply (j_waiters _ _ _ HJ).
    + intros d' ws' Hd'.
      destruct (j_live _ _ _ HJ d' ws' Hd') as (y&m0&Hdm&[Hin|?]).
      * rewrite Ht in Hin. apply elem_of_cons in Hin as [[= -> ->]|Hin].
        -- exists v, (MWhen d (Some k) None). split; [done|]. left.
           apply elem_of_app. right. by left.
        -- exists y, m0. split; [done|]. left. apply elem_of_app. by left.
      * exists y, m0. split; [done|]. by right.
  - unfold work. cbn [cells tasks]. rewrite Ht, sum_list_with_app.
    cbn [sum_list_with twork]. rewrite Hev. lia.
  - unfold hops. rewrite sum_list_with_app. cbn [sum_list_with]. lia.
Qed.
End DeepSteps.

(** ** Deep resolution: the callbacks *)

Lemma member_tasks_work h γ x l : ∀ n sync,
  sum_list_with (twork h γ) (member_tasks x l n sync)
  = sum_list_with (λ c, work_val (table h) c + 3) l.*2.
Proof.
  induction l as [|[i c] l IH]; intros n sync; [done|].
  cbn. rewrite IH. lia.
Qed.

Section DeepKonts.
Variable h : list obj.
Hypothesis Hwf : heap_wf h.

(** [consolidate] on a value that is not a container (line 198). *)
Lemma step_leaf γ s x d rest :
  J h γ s →
  tasks s = Send x (MWhen d (Some (K_consolidate Deep)) None) :: rest →
  (∀ q, x ≠ VProm q) → is_leaf h x = true →
  J h γ (step s) ∧ work h γ (step s) < work h γ s.
Proof.
  intros HJ Ht Hx Hl.
  assert (msg_ok h γ (length (cells s)) x (MWhen d (Some (K_consolidate Deep)) None))
    as (d'&k'&[= <- <-]&Hd&_&Hk&Hlt).
  { apply (j_tasks _ _ _ HJ). rewrite Ht. by left. }
  assert (expv γ x = x) as Hev by (destruct x; try done; by destruct (Hx p)).
  rewrite Hev in Hk. destruct Hk as (He&_&_).
  rewrite (step_deliver s x d _ rest x (State (cells s) h rest) Ht Hx).
  - eapply deliver_plain; [done|exact Ht|done|done|done].
  - cbn [apply_kont]. unfold bind, gets. cbn [heap]. rewrite (j_heap _ _ _ HJ).
    unfold is_leaf in Hl. by rewrite Hl.
Qed.

(** The callback of line 215. *)
Lemma step_object γ s x d o rest :
  J h γ s →
  tasks s = Send x (MWhen d (Some (K_object o)) None) :: rest →
  (∀ q, x ≠ VProm q) →
  J h γ (step s) ∧ work h γ (step s) < work h γ s.
Proof.
  intros HJ Ht Hx.
  assert (msg_ok h γ (length (cells s)) x (MWhen d (Some (K_object o)) None))
    as (d'&k'&[= <- <-]&Hd&_&Hk&Hlt).
  { apply (j_tasks _ _ _ HJ). rewrite Ht. by left. }
  destruct Hk as (He&Ho).
  rewrite (step_deliver s x d _ rest o (State (cells s) h rest) Ht Hx).
  - eapply deliver_plain; [done|exact Ht|done| |done].
    by eapply child_ok_not_promise.
  - cbn [apply_kont]. unfold ret. by rewrite (j_heap _ _ _ HJ).
Qed.

(** The callback of line 209: the member is written back, and is what it
    was. *)
Lemma step_assign γ s x d o i rest :
  J h γ s →
  tasks s = Send x (MWhen d (Some (K_assign o i)) None) :: rest →
  (∀ q, x ≠ VProm q) →
  J h γ (step s) ∧ work h γ (step s) < work h γ s.
Proof.
  intros HJ Ht Hx.
  assert (msg_ok h γ (length (cells s)) x (MWhen d (Some (K_assign o i)) None))
    as (d'&k'&[= <- <-]&Hd&_&Hk&Hlt).
  { apply (j_tasks _ _ _ HJ). rewrite Ht. by left. }
  assert (expv γ x = x) as Hev by (destruct x; try done; by destruct (Hx p)).
  rewrite Hev in Hk. destruct o as [| | | | | | |r|]; try done.
  destruct Hk as (Hr&Hin&He).
  rewrite (step_deliver s x d _ rest VUndef (State (cells s) h rest) Ht Hx).
  - eapply deliver_plain; [done|exact Ht|done|done|done].
  - cbn [apply_kont set_member_val]. unfold bind, set_member, modify, ret, set_heap.
    cbn [cells heap tasks]. rewrite (j_heap _ _ _ HJ).
    destruct (lookup_lt_is_Some_2 _ _ Hr) as [ob Hob]. rewrite Hob.
    destruct (kvs_child _ _ _ _ Hwf Hin) as [_ Ha].
    by rewrite (Ha _ Hob), list_insert_id.
Qed.

(** The callback of line 208: [deep] on the member, then the assignment. *)
Lemma step_member γ s x d o i c rest :
  J h γ s →
  tasks s = Send x (MWhen d (Some (K_member Deep o i c)) None) :: rest →
  (∀ q, x ≠ VProm q) →
  ∃ γ', grows γ γ' ∧ J h γ' (step s) ∧ work h γ' (step s) < work h γ s.
Proof.
  intros HJ Ht Hx.
  assert (msg_ok h γ (length (cells s)) x (MWhen d (Some (K_member Deep o i c)) None))
    as (d'&k'&[= <- <-]&Hd&_&Hk&Hlt).
  { apply (j_tasks _ _ _ HJ). rewrite Ht. by left. }
  destruct o as [| | | | | | |r|]; try done.
  destruct Hk as (Hr&Hin&He&Hrk).
  destruct (kvs_child _ _ _ _ Hwf Hin) as [Hc _].
  apply (child_ok_le _ (length h)) in Hc; [|lia].
  pose proof (need_pos _ _ Hwf Hc) as Hpos.
  assert (expv γ c = c) as Hec.
  { destruct c; try done. }
  set (n := length (cells s)).
  pose proof (j_exps _ _ _ HJ) as Hle. pose proof (j_ranks _ _ _ HJ) as Hlr.
  fold n in Hle, Hlr, Hd.
  set (γ' := Plan (exps γ ++ [c; VUndef])
                  (ranks γ ++ [need_val (table h) c; need_val (table h) c + 1])).
  set (newtasks := [Send c (MWhen n (Some (K_consolidate Deep)) None);
                    Send (VProm n) (MWhen (n + 1) (Some (K_assign (VObj r) i)) None)]).
  assert (grows γ γ') as Hg by (split; by apply prefix_app_r).
  assert (rank_of γ' n = need_val (table h) c) as Hr0.
  { unfold rank_of, γ'. cbn [ranks]. by rewrite list_lookup_middle. }
  assert (rank_of γ' (n + 1) = need_val (table h) c + 1) as Hr1.
  { unfold rank_of, γ'. cbn [ranks]. by rewrite (lookup_app_plus _ _ n 1). }
  assert (exps γ' !! n = Some c) as He0.
  { unfold γ'. cbn [exps]. by rewrite list_lookup_middle. }
  assert (exps γ' !! (n + 1) = Some VUndef) as He1.
  { unfold γ'. cbn [exps]. by rewrite (lookup_app_plus _ _ n 1). }
  assert (expv γ' (VProm n) = c) as Hev0 by (unfold expv; by rewrite He0).
  assert (expv γ' (VProm (n + 1)) = VUndef) as Hev1 by (unfold expv; by rewrite He1).
  exists γ'. split; [done|].
  rewrite (step_deliver s x d _ rest (VProm (n + 1))
             (State (cells s ++ replicate 2 (Pending [])) h (rest ++ newtasks)) Ht Hx).
  - eapply (deliver_J h γ γ' s x d _ rest [c; VUndef]
             [need_val (table h) c; need_val (table h) c + 1] 2 newtasks);
      [done|exact Ht|done|done|done|done|done|..].
    + intros y m [Hin'|[Hin'|Hin'%elem_of_nil]%elem_of_cons]%elem_of_cons; [| |done].
      * injection Hin' as -> ->. exists n, (K_consolidate Deep). fold n.
        split_and!; try done; try lia.
        -- by destruct c.
        -- rewrite (grows_expv γ γ'), Hec; [|done|by destruct c]. simpl.
           split_and!; [done|done|lia].
        -- assert (rankv γ' c = 0) as -> by (by destruct c). lia.
      * injection Hin' as -> ->. exists (n + 1), (K_assign (VObj r) i). fold n.
        split_and!; try done; try lia.
        -- simpl. lia.
        -- rewrite Hev0. cbn [kont_ok]. done.
        -- change (rankv γ' (VProm n)) with (rank_of γ' n). lia.
    + fold n. intros [|[|j]] Hj; [| |lia].
      * eexists _, _. split; [|by left]. simpl. lia.
      * eexists _, _. split; [|right; by left]. simpl. lia.
    + fold n. simpl. lia.
    + by rewrite Hev1.
    + change (rankv γ' (VProm (n + 1))) with (rank_of γ' (n + 1)). lia.
    + intros q [= <-]. lia.
    + unfold newtasks. cbn [sum_list_with twork]. rewrite Hev0.
      rewrite (grows_expv γ γ'), Hec; [|done|by destruct c]. cbn [pot]. lia.
  - cbn [apply_kont call_resolver]. unfold deep, consolidate, when, bind, defer,
      enqueue, modify, ret, set_cells, set_tasks. cbn.
    rewrite (j_heap _ _ _ HJ), !length_app, <- !app_assoc. cbn. done.
Qed.
End DeepKonts.

Lemma take_S_sum {A} (f : A → nat) l j x :
  l !! j = Some x →
  sum_list_with f (take (S j) l) = sum_list_with f (take j l) + f x.
Proof.
  intros H. rewrite (take_S_r _ _ _ H), sum_list_with_app. simpl. lia.
Qed.

Lemma member_ranks_lookup tbl cs j :
  j < length cs →
  member_ranks tbl cs !! j
  = Some (sum_list_with (λ c, need_val tbl c + 3) (take (S j) cs)).
Proof.
  intros Hj. unfold member_ranks. rewrite list_lookup_fmap, lookup_seq_lt by done. done.
Qed.

Lemma member_ranks_length tbl cs : length (member_ranks tbl cs) = length cs.
Proof. unfold member_ranks. by rewrite length_fmap, length_seq. Qed.

Section DeepContainer.
Variable h : list obj.
Hypothesis Hwf : heap_wf h.

(** [consolidate] on a container: the loop, then the promise for the
    container itself. *)
Lemma step_container γ s x d rest :
  J h γ s →
  tasks s = Send x (MWhen d (Some (K_consolidate Deep)) None) :: rest →
  (∀ q, x ≠ VProm q) → is_leaf h x = false →
  ∃ γ', grows γ γ' ∧ J h γ' (step s) ∧ work h γ' (step s) < work h γ s.
Proof.
  intros HJ Ht Hx Hl.
  assert (msg_ok h γ (length (cells s)) x (MWhen d (Some (K_consolidate Deep)) None))
    as (d'&k'&[= <- <-]&Hd&_&Hk&Hlt).
  { apply (j_tasks _ _ _ HJ). rewrite Ht. by left. }
  assert (expv γ x = x) as Hev by (destruct x; try done; by destruct (Hx p)).
  rewrite Hev in Hk. destruct Hk as (He&Hc&Hnd).
  destruct x as [| | | | | | |r|]; try done. simpl in Hc.
  assert (instanceof_Date h (VObj r) = false) as Hdate.
  { unfold is_leaf in Hl. by destruct (instanceof_Date h (VObj r)). }
  destruct (need_container h r Hwf Hc Hdate) as [Hneed Hwork].
  set (n := length (cells s)).
  pose proof (j_exps _ _ _ HJ) as Hle. pose proof (j_ranks _ _ _ HJ) as Hlr.
  fold n in Hle, Hlr, Hd.
  set (l := kvs h r). set (cs := l.*2). set (m := length l).
  set (f := λ c, need_val (table h) c + 3).
  assert (length cs = m) as Hcs by (unfold cs; by rewrite length_fmap).
  set (ne := replicate m VUndef ++ [VObj r]).
  set (nr := member_ranks (table h) cs ++ [sum_list_with f cs + 1]).
  set (γ' := Plan (exps γ ++ ne) (ranks γ ++ nr)).
  set (newtasks := member_tasks (VObj r) l n VUndef
                   ++ [Send (last_sync m n VUndef)
                            (MWhen (n + m) (Some (K_object (VObj r))) None)]).
  assert (grows γ γ') as Hg by (split; by apply prefix_app_r).
  assert (∀ j, j < m → rank_of γ' (n + j) = sum_list_with f (take (S j) cs)) as Hrj.
  { intros j Hj. unfold rank_of, γ', nr. cbn [ranks].
    rewrite (lookup_app_plus _ _ n j) by done.
    rewrite lookup_app_l by (rewrite member_ranks_length; lia).
    by rewrite member_ranks_lookup by lia. }
  assert (rank_of γ' (n + m) = sum_list_with f cs + 1) as Hrm.
  { unfold rank_of, γ', nr. cbn [ranks].
    rewrite (lookup_app_plus _ _ n m) by done.
    rewrite lookup_app_r by (rewrite member_ranks_length; lia).
    by rewrite member_ranks_length, Hcs, Nat.sub_diag. }
  assert (∀ j, j < m → exps γ' !! (n + j) = Some VUndef) as Hej.
  { intros j Hj. unfold γ', ne. cbn [exps].
    rewrite (lookup_app_plus _ _ n j) by done.
    rewrite lookup_app_l by (rewrite length_replicate; lia).
    by apply lookup_replicate_2. }
  assert (exps γ' !! (n + m) = Some (VObj r)) as Hem.
  { unfold γ', ne. cbn [exps].
    rewrite (lookup_app_plus _ _ n m) by done.
    rewrite lookup_app_r by (rewrite length_replicate; lia).
    by rewrite length_replicate, Nat.sub_diag. }
  assert (∀ j, j ≤ m → rankv γ' (last_sync j n VUndef) = sum_list_with f (take j cs))
    as Hsync.
  { intros [|j] Hj; [done|]. cbn [last_sync].
    change (rankv γ' (VProm (n + j))) with (rank_of γ' (n + j)). apply Hrj. lia. }
  assert (∀ j, j ≤ m → target_ok (n + (m + 1)) (last_sync j n VUndef)) as Htgt.
  { intros [|j] Hj; simpl; [done|lia]. }
  exists γ'. split; [done|].
  rewrite (step_deliver s (VObj r) d _ rest (VProm (n + m))
             (State (cells s ++ replicate (m + 1) (Pending [])) h (rest ++ newtasks)) Ht Hx).
  - eapply (deliver_J h γ γ' s (VObj r) d _ rest ne nr (m + 1) newtasks);
      [done|exact Ht|done|done|done|..].
    + unfold ne. rewrite length_app, length_replicate. simpl. lia.
    + unfold nr. rewrite length_app, member_ranks_length. simpl. lia.
    + fold n. intros y msg [Hin|Hin%list_elem_of_singleton]%elem_of_app.
      * apply member_tasks_elem in Hin as (j&i&c&Hj&->&->).
        assert (j < m) as Hjm by (by eapply lookup_lt_Some).
        assert (cs !! j = Some c) as Hcj.
        { unfold cs. by rewrite list_lookup_fmap, Hj. }
        exists (n + j), (K_member Deep (VObj r) i c).
        split_and!; [done|lia|apply Htgt; lia| |].
        -- cbn [kont_ok]. split_and!; [done| |by apply Hej|].
           ++ by eapply list_elem_of_lookup_2.
           ++ rewrite Hrj by done. rewrite (take_S_sum _ _ _ _ Hcj). unfold f. lia.
        -- rewrite Hsync, Hrj by lia. rewrite (take_S_sum _ _ _ _ Hcj). unfold f. lia.
      * injection Hin as -> ->. exists (n + m), (K_object (VObj r)).
        split_and!; [done|lia|apply Htgt; lia| |].
        -- cbn [kont_ok]. split; [done|]. simpl. done.
        -- rewrite Hsync, Hrm by lia. rewrite <- Hcs, firstn_all. lia.
    + fold n. intros j Hj. destruct (decide (j < m)) as [Hjm|].
      * destruct (lookup_lt_is_Some_2 l j Hjm) as [[i c] Hic].
        exists (last_sync j n VUndef), (MWhen (n + j) (Some (K_member Deep (VObj r) i c)) None).
        split; [done|]. apply elem_of_app. left. apply member_tasks_elem. by exists j, i, c.
      * assert (j = m) as -> by lia.
        eexists _, _. split; [|apply elem_of_app; right; by left]. done.
    + fold n. simpl. lia.
    + unfold expv. by rewrite Hem.
    + change (rankv γ' (VProm (n + m))) with (rank_of γ' (n + m)).
      rewrite Hrm. fold f in Hneed. unfold cs, l. lia.
    + fold n. intros q [= <-]. lia.
    + unfold newtasks. rewrite sum_list_with_app, member_tasks_work.
      cbn [sum_list_with twork pot]. unfold l. cbn [expv]. lia.
  - cbn [apply_kont]. unfold bind at 1, gets. cbn [heap]. rewrite (j_heap _ _ _ HJ).
    unfold is_leaf in Hl. rewrite Hl. unfold bind at 1. rewrite members_eq.
    cbn [cells heap tasks for_in_val].
    unfold when, bind, defer, enqueue, modify, ret, set_cells, set_tasks. cbn.
    rewrite !length_app, length_replicate, <- !app_assoc.
    unfold newtasks, m, l, n, kvs. rewrite replicate_add, length_fmap. done.
Qed.
End DeepContainer.

(** ** Deep resolution: the run *)

Section DeepRun.
Variable h : list obj.
Hypothesis Hwf : heap_wf h.

(** One turn keeps the invariant, with less work left, or as much and
    the messages closer to their targets. *)
Lemma step_J γ s :
  J h γ s → tasks s ≠ [] →
  ∃ γ', grows γ γ' ∧ J h γ' (step s) ∧ smaller h γ γ' s (step s).
Proof.
  intros HJ Hne. destruct (tasks s) as [|[x m] rest] eqn:Ht; [done|].
  assert (msg_ok h γ (length (cells s)) x m) as Hm.
  { apply (j_tasks _ _ _ HJ). rewrite Ht. by left. }
  assert ((∃ p, x = VProm p) ∨ ∀ q, x ≠ VProm q) as [[p ->]|Hx]
    by (destruct x; eauto).
  - destruct (cells s !! p) as [[ws|v|reason]|] eqn:Hc.
    + destruct (park_J h γ s p m rest ws HJ Ht Hc) as (?&?&?).
      exists γ. split; [apply grows_refl|]. split; [done|]. by right.
    + destruct (follow_J h γ s p m rest v HJ Ht Hc) as (?&?&?).
      exists γ. split; [apply grows_refl|]. split; [done|]. by right.
    + by destruct (j_cells _ _ _ HJ _ _ Hc).
    + destruct Hm as (?&?&_&_&Hp&_). simpl in Hp.
      apply lookup_ge_None in Hc. lia.
  - destruct Hm as (d&k&->&Hd&_&Hk&_).
    destruct k as [|[]| [] | | | | | | | | | | | |]; try done.
    + destruct (is_leaf h x) eqn:Hl.
      * destruct (step_leaf h γ s x d rest HJ Ht Hx Hl) as [??].
        exists γ. split; [apply grows_refl|]. split; [done|]. by left.
      * destruct (step_container h Hwf γ s x d rest HJ Ht Hx Hl) as (γ'&?&?&?).
        exists γ'. split; [done|]. split; [done|]. by left.
    + destruct (step_member h Hwf γ s x d _ _ _ rest HJ Ht Hx) as (γ'&?&?&?).
      exists γ'. split; [done|]. split; [done|]. by left.
    + destruct (step_assign h Hwf γ s x d _ _ rest HJ Ht Hx) as [??].
      exists γ. split; [apply grows_refl|]. split; [done|]. by left.
    + destruct (step_object h γ s x d _ rest HJ Ht Hx) as [??].
      exists γ. split; [apply grows_refl|]. split; [done|]. by left.
Qed.

(** Any number of turns keeps the invariant. *)
Lemma run_J k : ∀ γ s, J h γ s → ∃ γ', grows γ γ' ∧ J h γ' (run k s).
Proof.
  induction k as [|k IH]; intros γ s HJ; simpl.
  - exists γ. split; [apply grows_refl|done].
  - destruct (tasks s) eqn:Ht.
    + rewrite step_quiescent by done. by apply IH.
    + destruct (step_J γ s HJ) as (γ1&Hg1&HJ1&_); [by rewrite Ht|].
      destruct (IH _ _ HJ1) as (γ2&Hg2&HJ2).
      exists γ2. split; [by eapply grows_trans|done].
Qed.

(** The event loop runs dry. *)
Lemma drain_J w : ∀ hp γ s,
  J h γ s → work h γ s ≤ w → hops γ (tasks s) ≤ hp →
  ∃ k, quiescent (run k s).
Proof.
  induction w as [w IHw] using lt_wf_ind.
  induction hp as [hp IHhp] using lt_wf_ind. intros γ s HJ Hw Hhp.
  destruct (tasks s) eqn:Ht; [by exists 0|].
  destruct (step_J γ s HJ) as (γ'&_&HJ'&[Hlt|[Heq Hlt]]); [by rewrite Ht| |].
  - assert (work h γ' (step s) < w) as Hlt' by lia.
    destruct (IHw _ Hlt' _ _ _ HJ' (Nat.le_refl _) (Nat.le_refl _)) as [k Hk].
    by exists (S k).
  - rewrite Ht in Hlt.
    assert (hops γ' (tasks (step s)) < hp) as Hlt' by lia.
    assert (work h γ' (step s) ≤ w) as Hw' by lia.
    destruct (IHhp _ Hlt' _ _ HJ' Hw' (Nat.le_refl _)) as [k Hk].
    by exists (S k).
Qed.

(** Once the event loop has run dry no promise is left pending. *)
Lemma quiet_resolved γ s :
  J h γ s → quiescent s →
  ∀ p c, cells s !! p = Some c → ∃ x, c = Resolved x.
Proof.
  intros HJ Hq.
  assert (∀ rk p ws, rank_of γ p < rk → cells s !! p ≠ Some (Pending ws)) as Hno.
  { induction rk as [|rk IH]; intros p ws Hrk Hp; [lia|].
    destruct (j_live _ _ _ HJ p ws Hp) as (y&m&Hdm&[Hin|(p'&ws'&Hp'&Hin)]).
    - rewrite Hq in Hin. by apply elem_of_nil in Hin.
    - destruct (j_waiters _ _ _ HJ p' ws' m Hp' Hin) as (d&k&->&_&_&_&Hlt).
      simpl in Hdm. subst d.
      change (rankv γ (VProm p')) with (rank_of γ p') in Hlt.
      apply (IH p' ws'); [lia|done]. }
  intros p [ws|x|reason] Hp.
  - exfalso. apply (Hno (S (rank_of γ p)) p ws); [lia|done].
  - eauto.
  - by destruct (j_cells _ _ _ HJ _ _ Hp).
Qed.

(** With no promise pending, every promise has settled to the value
    planned for it. *)
Lemma settled_J γ s :
  J h γ s → (∀ p c, cells s !! p = Some c → ∃ x, c = Resolved x) →
  ∀ fuel x,
    target_ok (length (cells s)) x →
    (∀ p, x = VProm p → length (cells s) - p ≤ fuel) →
    settled fuel (cells s) x = Fulfilled (expv γ x).
Proof.
  intros HJ Hall. induction fuel as [|fuel IH]; intros x Hx Hf.
  - destruct x; try done. simpl in Hx. specialize (Hf p eq_refl). lia.
  - destruct x; try done. simpl in Hx.
    destruct (lookup_lt_is_Some_2 _ _ Hx) as [c Hc].
    destruct (Hall _ _ Hc) as [v ->]. simpl. rewrite Hc.
    destruct (j_cells _ _ _ HJ _ _ Hc) as (Hv&He&_&Hq).
    rewrite IH, He; [done|done|].
    intros q ->. specialize (Hq q eq_refl). specialize (Hf p eq_refl). lia.
Qed.

(** Deep resolution of a value of a resolved heap: the promise is
    fulfilled with the value itself, and the heap is as it was. *)
Lemma deep_resolved v :
  child_ok (length h) v →
  ∃ p s, deep v (State [] h []) = (Ok (VProm p), s)
    ∧ (∃ k, quiescent (run k s))
    ∧ ∀ k, quiescent (run k s) →
           outcome_of (run k s) (VProm p) = Fulfilled v ∧ heap (run k s) = h.
Proof.
  intros Hv.
  set (s := State [Pending []] h [Send v (MWhen 0 (Some (K_consolidate Deep)) None)]).
  set (γ := Plan [v] [need_val (table h) v]).
  assert (J h γ s) as HJ.
  { pose proof (need_pos _ _ Hwf Hv) as Hpos.
    assert (msg_ok h γ 1 v (MWhen 0 (Some (K_consolidate Deep)) None)) as Hm.
    { exists 0, (K_consolidate Deep). split_and!; try done; try lia.
      - by destruct v.
      - assert (expv γ v = v) as -> by (by destruct v). by split_and!.
      - assert (rankv γ v = 0) as -> by (by destruct v). unfold rank_of. simpl. lia. }
    split; simpl; try done.
    - intros [|p] c [= <-]. done.
    - by intros x m [= -> ->]%list_elem_of_singleton.
    - intros [|p] ws m [= <-]. by intros ?%elem_of_nil.
    - intros [|d] ws [= <-]. eexists _, _. split; [|left; by left]. done. }
  exists 0, s. split; [done|]. split.
  - by eapply drain_J.
  - intros k Hk. destruct (run_J k γ s HJ) as (γ'&Hg&HJ').
    split; [|by apply (j_heap _ _ _ HJ')].
    unfold outcome_of.
    rewrite (settled_J γ' (run k s) HJ' (quiet_resolved _ _ HJ' Hk)).
    + f_equal. unfold expv. by rewrite (grows_exps γ γ' 0 v Hg).
    + simpl. rewrite <- (j_exps _ _ _ HJ'). destruct Hg as [Hg _].
      apply prefix_length in Hg. simpl in Hg. lia.
    + intros p [= <-]. lia.
Qed.
End DeepRun.

(** ** Deep resolution of a tree *)

Lemma store_object ms h :
  store (TObject ms) h =
  let '(h', props) := store_members ms h in
  (h' ++ [OObject props None], VObj (length h')).
Proof. reflexivity. Qed.

Lemma store_array ts h :
  store (TArray ts) h =
  let '(h', vs) := store_elems ts h in
  (h' ++ [OArray vs], VObj (length h')).
Proof. reflexivity. Qed.

Lemma heap_wf_snoc h o : heap_wf h → obj_wf (length h) o → heap_wf (h ++ [o]).
Proof.
  intros Hwf Ho r o' [[_ ?]|[-> <-]]%lookup_snoc_Some; [by apply Hwf|done].
Qed.

Lemma heap_wf_nil : heap_wf [].
Proof. by intros r o ?. Qed.

Lemma store_members_wf ms :
  Forall (λ kt, stored kt.2) ms →
  ∀ h, heap_wf h →
    heap_wf (store_members ms h).1
    ∧ Forall (child_ok (length (store_members ms h).1)) (store_members ms h).2.*2
    ∧ length h ≤ length (store_members ms h).1.
Proof.
  induction 1 as [|[k t] ms Ht _ IH]; intros h Hwf; simpl.
  - by split_and!.
  - simpl in Ht. unfold stored in Ht.
    generalize (Ht h Hwf). destruct (store t h) as [h1 v]. simpl.
    intros (Hwf1&Hv&Hl1).
    generalize (IH h1 Hwf1). destruct (store_members ms h1) as [h2 props]. simpl.
    intros (Hwf2&Hall&Hl2).
    split_and!; [done| |lia].
    constructor; [|done]. eapply child_ok_le; [|done]. lia.
Qed.

Lemma store_elems_wf ts :
  Forall stored ts →
  ∀ h, heap_wf h →
    heap_wf (store_elems ts h).1
    ∧ Forall (child_ok (length (store_elems ts h).1)) (store_elems ts h).2
    ∧ length h ≤ length (store_elems ts h).1.
Proof.
  induction 1 as [|t ts Ht _ IH]; intros h Hwf; simpl.
  - by split_and!.
  - simpl in Ht. unfold stored in Ht.
    generalize (Ht h Hwf). destruct (store t h) as [h1 v]. simpl.
    intros (Hwf1&Hv&Hl1).
    generalize (IH h1 Hwf1). destruct (store_elems ts h1) as [h2 vs]. simpl.
    intros (Hwf2&Hall&Hl2).
    split_and!; [done| |lia].
    constructor; [|done]. eapply child_ok_le; [|done]. lia.
Qed.

(** A tree is laid out as a resolved heap. *)
Lemma store_wf t : stored t.
Proof.
  induction t as [a|time|ms IH|ts IH] using tree_ind; intros h Hwf.
  - simpl. split_and!; [done|by destruct a|done].
  - simpl. rewrite length_app. simpl. split_and!; [by apply heap_wf_snoc|lia|lia].
  - rewrite store_object.
    generalize (store_members_wf ms IH h Hwf).
    destruct (store_members ms h) as [h' props]. simpl. intros (Hwf'&Hall&Hl).
    rewrite length_app. simpl. split_and!; [|lia|lia].
    apply heap_wf_snoc; [done|]. by split.
  - rewrite store_array.
    generalize (store_elems_wf ts IH h Hwf).
    destruct (store_elems ts h) as [h' vs]. simpl. intros (Hwf'&Hall&Hl).
    rewrite length_app. simpl. split_and!; [|lia|lia].
    by apply heap_wf_snoc.
Qed.

Lemma deep_of_tree t :
  ∃ p s, deep (store t []).2 (State [] (store t []).1 []) = (Ok (VProm p), s)
    ∧ (∃ k, quiescent (run k s))
    ∧ ∀ k, quiescent (run k s) →
           outcome_of (run k s) (VProm p) = Fulfilled (store t []).2
           ∧ heap (run k s) = (store t []).1.
Proof.
  destruct (store_wf t [] heap_wf_nil) as (Hwf&Hv&_).
  by apply deep_resolved.
Qed.

(** ** The resolvers and the reducers *)

Lemma nested_checked :
  check (deep (VObj 1)) [VNum 1; VNum 2; VNum 3]
        (fulfils_in (VObj 1) nested_resolved) 4 60
        [Call; Settle 0; Settle 1; Settle 2] nested = true.
Proof. vm_compute. reflexivity. Qed.

Lemma reduceLeft_bracket_checked :
  check reduceLeft_bracket [VStr "2"; VStr "3"; VStr "4"]
        (fulfils (VStr "(((10-2)-3)-4)")) 4 40
        [Call; Settle 0; Settle 1; Settle 2] three_futures = true.
Proof. vm_compute. reflexivity. Qed.

Lemma reduce_sum_checked :
  check reduce_sum [VNum 1; VNum 2; VNum 3; VNum 4]
        (threw_without UTIL_is_not_defined (VNum 10)) 5 10
        [Call; Settle 0; Settle 1; Settle 2; Settle 3] four_futures = true.
Proof. vm_compute. reflexivity. Qed.

(** [reduce] throws before it has sent anything. *)
Lemma reduce_throws values callback accumulator that s :
  ∃ s', reduce values callback accumulator that s = (Throw UTIL_is_not_defined, s')
        ∧ tasks s' = tasks s
        ∧ cells s' = cells s ++ [Pending []].
Proof.
  unfold reduce, bind, new_object, defer, UTIL, throw.
  destruct accumulator as [a|]; simpl; eauto.
Qed.

(** What every schedule checked with [fulfils] ends in. *)
Lemma fulfils_sound call inputs v n fuel es w sched :
  check call inputs (fulfils v) n fuel es w = true →
  sched.*2 ≡ₚ es →
  ∃ p, w_result (follow call inputs sched w) = Some (Ok p)
       ∧ (∃ k, quiescent (run k (w_state (follow call inputs sched w))))
       ∧ ∀ k, quiescent (run k (w_state (follow call inputs sched w))) →
              outcome_of (run k (w_state (follow call inputs sched w))) p = Fulfilled v.
Proof.
  intros Hc Hp. destruct (check_sound _ _ _ _ _ _ _ _ Hc Hp) as (t&Hq&Hall).
  pose proof (Hall t Hq) as Ht. unfold fulfils, advance in Ht. cbn [w_result w_state] in Ht.
  destruct (w_result (follow call inputs sched w)) as [[p|e]|] eqn:Hr; try done.
  exists p. split; [done|]. split; [by exists t|].
  intros k Hk. specialize (Hall k Hk). unfold fulfils, advance in Hall.
  cbn [w_result w_state] in Hall. rewrite Hr in Hall. by apply bool_decide_eq_true in Hall.
Qed.

Lemma fulfils_in_sound call inputs v h n fuel es w sched :
  check call inputs (fulfils_in v h) n fuel es w = true →
  sched.*2 ≡ₚ es →
  ∃ p, w_result (follow call inputs sched w) = Some (Ok p)
       ∧ (∃ k, quiescent (run k (w_state (follow call inputs sched w))))
       ∧ ∀ k, quiescent (run k (w_state (follow call inputs sched w))) →
              outcome_of (run k (w_state (follow call inputs sched w))) p = Fulfilled v
              ∧ heap (run k (w_state (follow call inputs sched w))) = h.
Proof.
  intros Hc Hp. destruct (check_sound _ _ _ _ _ _ _ _ Hc Hp) as (t&Hq&Hall).
  pose proof (Hall t Hq) as Ht. unfold fulfils_in, fulfils, advance in Ht.
  cbn [w_result w_state] in Ht.
  destruct (w_result (follow call inputs sched w)) as [[p|e]|] eqn:Hr; try done.
  exists p. split; [done|]. split; [by exists t|].
  intros k Hk. specialize (Hall k Hk). unfold fulfils_in, fulfils, advance in Hall.
  cbn [w_result w_state] in Hall. rewrite Hr in Hall.
  apply andb_true_iff in Hall as [H1 H2].
  apply bool_decide_eq_true in H1. by apply bool_decide_eq_true in H2.
Qed.

(** C4: deep resolution of a value with no future left in it (any tree of
    plain objects and arrays, with primitive values and dates at the leaves)
    returns a promise that is fulfilled with the very value it was given, in
    a heap in which no object has changed; and deep resolution of
    [{a: Future(1), b: [Future(2), Future(3)]}] returns a promise that is
    fulfilled with the object, which by then is [{a: 1, b: [2, 3]}], in
    whatever order the call is made and the three futures are fulfilled. *)
Theorem deep_resolution :
  (∀ t, ∃ p s,
     deep (store t []).2 (State [] (store t []).1 []) = (Ok (VProm p), s)
     ∧ (∃ k, quiescent (run k s))
     ∧ ∀ k, quiescent (run k s) →
            outcome_of (run k s) (VProm p) = Fulfilled (store t []).2
            ∧ heap (run k s) = (store t []).1)
  ∧ (∀ sched, sched.*2 ≡ₚ [Call; Settle 0; Settle 1; Settle 2] →
     let w := follow (deep (VObj 1)) [VNum 1; VNum 2; VNum 3] sched nested in
     ∃ p, w_result w = Some (Ok p)
          ∧ (∃ k, quiescent (run k (w_state w)))
          ∧ ∀ k, quiescent (run k (w_state w)) →
                 outcome_of (run k (w_state w)) p = Fulfilled (VObj 1)
                 ∧ heap (run k (w_state w)) = nested_resolved).
Proof.
  split.
  - apply deep_of_tree.
  - intros sched Hp. eapply fulfils_in_sound; [apply nested_checked|done].
Qed.

Lemma deep_resolution_witness :
  let sched := [(0, Settle 2); (0, Call); (3, Settle 0); (1, Settle 1)] in
  let w := follow (deep (VObj 1)) [VNum 1; VNum 2; VNum 3] sched nested in
  ∃ p, w_result w = Some (Ok p)
       ∧ (∃ k, quiescent (run k (w_state w)))
       ∧ ∀ k, quiescent (run k (w_state w)) →
              outcome_of (run k (w_state w)) p = Fulfilled (VObj 1)
              ∧ heap (run k (w_state w)) = nested_resolved.
Proof.
  apply (proj2 deep_resolution [(0, Settle 2); (0, Call); (3, Settle 0); (1, Settle 1)]).
  simpl. etrans; [apply Permutation_swap|]. apply Permutation_skip.
  apply (Permutation_cons_append [Settle 0; Settle 1] (Settle 2)).
Defined.

(** C5 (the code does otherwise): [for (var i in object)] visits the
    enumerable properties of the prototype too.  For the object with the own
    property [a: 1] whose prototype has [x: Future(5)], shallow and deep
    resolution both wait for the inherited future and write its value back:
    the object ends with an own property [x: 5]. *)
Theorem consolidate_inherited (r : resolver) :
  for_in_val (heap inheriting) (VObj 1) = [Name "a"; Name "x"]
  ∧ ∃ p s, resolve_inheriting r = (Ok (VProm p), s)
      ∧ quiescent s
      ∧ outcome_of s (VProm p) = Fulfilled (VObj 1)
      ∧ heap s = [OObject [(Name "x", VProm 0)] None;
                  OObject [(Name "a", VNum 1); (Name "x", VNum 5)] (Some 0)].
Proof.
  split; [done|]. destruct r; eexists _, _; (split; [vm_compute; reflexivity|]); done.
Qed.

(** C6: whatever the order in which the call is made and the three futures
    are fulfilled, the promise of
    [reduceLeft([Future(2), Future(3), Future(4)], subtract, 10)] is
    fulfilled with [1]; and with a combining function that writes down its
    two arguments, with [(((10-2)-3)-4)]: it is applied from left to right by
    position, each time to the accumulation so far and the next element. *)
Theorem reduceLeft_in_order sched :
  sched.*2 ≡ₚ [Call; Settle 0; Settle 1; Settle 2] →
  (let w := follow reduceLeft_call [VNum 2; VNum 3; VNum 4] sched three_futures in
   ∃ p, w_result w = Some (Ok p)
        ∧ (∃ k, quiescent (run k (w_state w)))
        ∧ ∀ k, quiescent (run k (w_state w)) →
               outcome_of (run k (w_state w)) p = Fulfilled (VNum 1))
  ∧ (let w := follow reduceLeft_bracket [VStr "2"; VStr "3"; VStr "4"] sched
                three_futures in
     ∃ p, w_result w = Some (Ok p)
          ∧ (∃ k, quiescent (run k (w_state w)))
          ∧ ∀ k, quiescent (run k (w_state w)) →
                 outcome_of (run k (w_state w)) p = Fulfilled (VStr "(((10-2)-3)-4)")).
Proof.
  intros Hp. split.
  - eapply fulfils_sound; [apply reduceLeft_checked|done].
  - eapply fulfils_sound; [apply reduceLeft_bracket_checked|done].
Qed.

Lemma reduceLeft_in_order_witness :
  let sched := [(0, Call); (2, Settle 2); (0, Settle 1); (4, Settle 0)] in
  (let w := follow reduceLeft_call [VNum 2; VNum 3; VNum 4] sched three_futures in
   ∃ p, w_result w = Some (Ok p)
        ∧ (∃ k, quiescent (run k (w_state w)))
        ∧ ∀ k, quiescent (run k (w_state w)) →
               outcome_of (run k (w_state w)) p = Fulfilled (VNum 1))
  ∧ (let w := follow reduceLeft_bracket [VStr "2"; VStr "3"; VStr "4"] sched
                three_futures in
     ∃ p, w_result w = Some (Ok p)
          ∧ (∃ k, quiescent (run k (w_state w)))
          ∧ ∀ k, quiescent (run k (w_state w)) →
                 outcome_of (run k (w_state w)) p = Fulfilled (VStr "(((10-2)-3)-4)")).
Proof.
  apply (reduceLeft_in_order [(0, Call); (2, Settle 2); (0, Settle 1); (4, Settle 0)]).
  simpl. apply Permutation_skip. apply (Permutation_rev [Settle 2; Settle 1; Settle 0]).
Defined.

(** C7 (the code does otherwise): [reduce] evaluates the undeclared
    identifier [UTIL] before anything else.  Whatever the order in which the
    call is made and the four futures are fulfilled, the call
    [reduce([Future(1), Future(2), Future(3), Future(4)], add)] throws a
    ReferenceError, and no promise of the store is ever fulfilled with 10. *)
Theorem reduce_sum_throws sched :
  sched.*2 ≡ₚ [Call; Settle 0; Settle 1; Settle 2; Settle 3] →
  let w := follow reduce_sum [VNum 1; VNum 2; VNum 3; VNum 4] sched four_futures in
  w_result w = Some (Throw UTIL_is_not_defined)
  ∧ (∃ k, quiescent (run k (w_state w)))
  ∧ ∀ k p, quiescent (run k (w_state w)) →
           p < length (cells (run k (w_state w))) →
           outcome_of (run k (w_state w)) (VProm p) ≠ Fulfilled (VNum 10).
Proof.
  intros Hp. destruct (check_sound _ _ _ _ _ _ _ _ reduce_sum_checked Hp) as (t&Hq&Hall).
  cbv zeta. split_and!.
  - specialize (Hall t Hq). unfold threw_without, advance in Hall.
    cbn [w_result w_state] in Hall. apply andb_true_iff in Hall as [H1 _].
    by apply bool_decide_eq_true in H1.
  - by exists t.
  - intros k p Hk Hlt. specialize (Hall k Hk). unfold threw_without, advance in Hall.
    cbn [w_result w_state] in Hall. apply andb_true_iff in Hall as [_ H2].
    rewrite forallb_forall in H2. specialize (H2 p).
    rewrite negb_true_iff, bool_decide_eq_false in H2. apply H2.
    apply in_seq. lia.
Qed.

Lemma reduce_sum_throws_witness :
  let sched := [(0, Call); (1, Settle 3); (1, Settle 2); (1, Settle 1); (1, Settle 0)] in
  let w := follow reduce_sum [VNum 1; VNum 2; VNum 3; VNum 4] sched four_futures in
  w_result w = Some (Throw UTIL_is_not_defined)
  ∧ (∃ k, quiescent (run k (w_state w)))
  ∧ ∀ k p, quiescent (run k (w_state w)) →
           p < length (cells (run k (w_state w))) →
           outcome_of (run k (w_state w)) (VProm p) ≠ Fulfilled (VNum 10).
Proof.
  apply (reduce_sum_throws
           [(0, Call); (1, Settle 3); (1, Settle 2); (1, Settle 1); (1, Settle 0)]).
  simpl. apply Permutation_skip.
  apply (Permutation_rev [Settle 3; Settle 2; Settle 1; Settle 0]).
Defined.

(** C8 (the code does otherwise): for a collection whose first element is
    rejected, and whatever the combining function, [reduce] throws the
    ReferenceError; the deferred of the reduction (promise 2) is never
    rejected: it stays pending, and nothing is left for the event loop. *)
Theorem reduce_rejected_element (callback : combiner) :
  ∃ s, reduce (VObj 0) callback None VUndef one_rejected
       = (Throw UTIL_is_not_defined, s)
       ∧ quiescent s
       ∧ ∀ k, outcome_of (run k s) (VProm 2) = Unsettled
              ∧ outcome_of (run k s) (VProm 0) = Failed (VStr "boom").
Proof.
  eexists. split; [reflexivity|]. split; [done|].
  intros k. by rewrite run_quiescent.
Qed.

(** C9 (the code does otherwise): [Queue], [put], [get], [close],
    [shallow], [deep], [reduceLeft] and [reduceRight] return to their
    caller whatever they are given; [reduce] throws a ReferenceError to its
    caller whatever it is given. *)
Theorem reduce_faults :
  (∀ s, ∃ q s', Queue s = (Ok q, s'))
  ∧ (∀ q v s, ∃ q' s', put q v s = (Ok q', s'))
  ∧ (∀ q s, ∃ r s', get q s = (Ok r, s'))
  ∧ (∀ q reason s, ∃ p s', close q reason s = (Ok p, s'))
  ∧ (∀ x s, ∃ p s', shallow x s = (Ok p, s'))
  ∧ (∀ x s, ∃ p s', deep x s = (Ok p, s'))
  ∧ (∀ values callback basis that s,
       ∃ p s', reduceLeft values callback basis that s = (Ok p, s'))
  ∧ (∀ values callback basis that s,
       ∃ p s', reduceRight values callback basis that s = (Ok p, s'))
  ∧ (∀ values callback accumulator that s,
       ∃ s', reduce values callback accumulator that s = (Throw UTIL_is_not_defined, s')).
Proof.
  split_and!; intros.
  - by eexists _, _.
  - unfold put, bind, defer, new_object, resolve, ret. cbn.
    destruct (_ !! _) as [[]|]; by eexists _, _.
  - by eexists _, _.
  - unfold close, bind, reject, new_object, set_member, modify, resolve, ret. cbn.
    destruct (_ !! ends_resolve q) as [[]|]; by eexists _, _.
  - by eexists _, _.
  - by eexists _, _.
  - by eexists _, _.
  - by eexists _, _.
  - destruct (reduce_throws values callback accumulator that s) as (s'&?&_). eauto.
Qed.

(** ** Further properties: a get that waits; values that are not containers *)

(** X1: while the queue is open, a get past the values that have been put
    waits: the promise it returned is not settled, whatever the order of
    the calls and however many turns the event loop has run. *)
Theorem get_waits ops :
  Forall plain_op ops → shut ops = None →
  ∃ x, play ops = Some x ∧
       ∀ i r, length (queued ops) ≤ i → got x !! i = Some r →
              ∀ k, outcome_at x k r = Unsettled.
Proof.
  intros Hpl Hshut. destruct (play_tracks ops Hpl) as (x&g&Hx&Ht&Hp&Hr&_&Hl).
  exists x. split; [done|]. intros i r Hi Hgot k.
  destruct (get_at g x i r k Ht Hgot) as [[?|[(v&Hv&_)|(e&_&He&_)]] _]; [done| |].
  - apply lookup_lt_Some in Hv. rewrite Hp in Hv. lia.
  - congruence.
Qed.

Lemma get_waits_witness :
  let ops := [Get; Put (VNum 1); Get; Turn; Get; Turn; Turn] in
  ∃ x, play ops = Some x ∧
       ∀ i r, length (queued ops) ≤ i → got x !! i = Some r →
              ∀ k, outcome_at x k r = Unsettled.
Proof.
  apply (get_waits [Get; Put (VNum 1); Get; Turn; Get; Turn; Turn]).
  - plain_ops.
  - reflexivity.
Defined.

(** The store with one more promise at its end. *)
Lemma lookup_fresh {A} (l : list A) x l' : (l ++ x :: l') !! length l = Some x.
Proof. apply list_lookup_middle. done. Qed.

Lemma insert_fresh {A} (l : list A) x y l' :
  <[length l := y]> (l ++ x :: l') = l ++ y :: l'.
Proof. by rewrite insert_app_r_alt, Nat.sub_diag by lia. Qed.

Lemma settled_plain fuel cs x : (∀ q, x ≠ VProm q) → settled fuel cs x = Fulfilled x.
Proof. intros Hx. destruct fuel, x; try done; by destruct (Hx p). Qed.

Lemma is_leaf_plain h x : is_leaf h x = true → ∀ q, x ≠ VProm q.
Proof. by intros H q ->. Qed.

Lemma when_quiet x fulfilled rejected s :
  quiescent s →
  when x fulfilled rejected s
  = (Ok (VProm (length (cells s))),
     State (cells s ++ [Pending []]) (heap s)
           [Send x (MWhen (length (cells s)) fulfilled rejected)]).
Proof.
  intros Hq. unfold when, bind, defer, enqueue, modify, ret, set_cells, set_tasks.
  cbn. by rewrite Hq.
Qed.

Lemma outcome_fresh cs h ts x :
  outcome_of (State (cs ++ [Resolved x]) h ts) (VProm (length cs))
  = settled (length cs) (cs ++ [Resolved x]) x.
Proof.
  unfold outcome_of. cbn [cells]. rewrite length_app, Nat.add_1_r. cbn [length settled].
  by rewrite lookup_fresh.
Qed.

(** X2: [consolidate], and so [shallow] and [deep], called while no task
    is queued on a value that is not a container (a primitive value,
    [null] or a date): the promise it returns is pending when the call
    returns, and from the next turn on the event loop has run dry and the
    promise is fulfilled with the value itself, in the heap as it was. *)
Theorem consolidate_leaf (r : resolver) x s :
  quiescent s → is_leaf (heap s) x = true →
  ∃ s1, consolidate x r s = (Ok (VProm (length (cells s))), s1)
        ∧ outcome_of s1 (VProm (length (cells s))) = Unsettled
        ∧ ∀ k, 1 ≤ k →
               quiescent (run k s1)
               ∧ outcome_of (run k s1) (VProm (length (cells s))) = Fulfilled x
               ∧ heap (run k s1) = heap s.
Proof.
  intros Hq Hl. pose proof (is_leaf_plain _ _ Hl) as Hx.
  eexists. split; [by apply when_quiet|]. split.
  { unfold outcome_of. cbn [cells]. rewrite length_app, Nat.add_1_r. cbn [settled].
    by rewrite lookup_fresh. }
  assert (step (State (cells s ++ [Pending []]) (heap s)
                  [Send x (MWhen (length (cells s)) (Some (K_consolidate r)) None)])
          = State (cells s ++ [Resolved x]) (heap s) []) as Hstep.
  { rewrite (step_deliver _ x (length (cells s)) (K_consolidate r) [] x
               (State (cells s ++ [Pending []]) (heap s) [])); [|done|done|].
    - unfold exec, resolve. cbn. by rewrite lookup_fresh, insert_fresh.
    - cbn. unfold bind, gets. cbn. unfold is_leaf in Hl. by rewrite Hl. }
  intros [|k] Hk; [lia|]. cbn [run]. rewrite Hstep, run_quiescent by done.
  split; [done|]. split; [|done].
  rewrite outcome_fresh. by apply settled_plain.
Qed.

Lemma consolidate_leaf_witness :
  let s := State [Pending []] [ODate 86400] [] in
  ∃ s1, consolidate (VObj 0) Shallow s = (Ok (VProm (length (cells s))), s1)
        ∧ outcome_of s1 (VProm (length (cells s))) = Unsettled
        ∧ ∀ k, 1 ≤ k →
               quiescent (run k s1)
               ∧ outcome_of (run k s1) (VProm (length (cells s))) = Fulfilled (VObj 0)
               ∧ heap (run k s1) = heap s.
Proof.
  apply (consolidate_leaf Shallow (VObj 0) (State [Pending []] [ODate 86400] [])); reflexivity.
Defined.

(** Once the event loop has run dry it stays as it is. *)
Lemma quiescent_same k t s :
  quiescent (run k s) → quiescent (run t s) → run k s = run t s.
Proof.
  assert (∀ k t, k ≤ t → quiescent (run k s) → run t s = run k s) as Hle.
  { intros k' t' Hkt Hq. replace t' with (k' + (t' - k')) by lia.
    by rewrite run_add, run_quiescent. }
  intros Hk Ht. destruct (Nat.le_ge_cases k t); [symmetry|]; by apply Hle.
Qed.

(** A message for a value that has been rejected follows the promises the
    value was resolved to, and its deferred is resolved to the rejection
    at their end. *)
Lemma follow_rejected (k : kont) h reason fuel : ∀ cs x,
  settled fuel cs x = Failed reason →
  ∃ n q, run n (State (cs ++ [Pending []]) h
                  [Send x (MWhen (length cs) (Some k) None)])
         = State (cs ++ [Resolved (VProm q)]) h []
         ∧ cs !! q = Some (Rejected reason).
Proof.
  induction fuel as [|fuel IH]; intros cs x Hx.
  - destruct x as [| | | | | | | |p]; try done. simpl in Hx.
    destruct (cs !! p) as [[ws|v|e]|] eqn:Hp; try done. injection Hx as ->.
    exists 1, p. split; [|done]. cbn [run]. unfold step. cbn [tasks cells heap].
    rewrite (lookup_app_l_Some _ _ _ _ Hp).
    unfold exec, deliver_rejected, bind, catch, ret, resolve. cbn [cells heap tasks fst snd].
    by rewrite lookup_fresh, insert_fresh.
  - destruct x as [| | | | | | | |p]; try done. simpl in Hx.
    destruct (cs !! p) as [[ws|v|e]|] eqn:Hp; try done.
    + destruct (IH cs v Hx) as (n&q&Hrun&Hq). exists (S n), q. split; [|done].
      cbn [run]. unfold step. cbn [tasks cells heap].
      by rewrite (lookup_app_l_Some _ _ _ _ Hp).
    + injection Hx as ->. exists 1, p. split; [|done].
      cbn [run]. unfold step. cbn [tasks cells heap].
      rewrite (lookup_app_l_Some _ _ _ _ Hp).
      unfold exec, deliver_rejected, bind, catch, ret, resolve. cbn [cells heap tasks fst snd].
      by rewrite lookup_fresh, insert_fresh.
Qed.

(** X3: [consolidate], and so [shallow] and [deep], called while no task
    is queued on a promise that has been rejected, be it a rejection made
    by [Q.reject] or a deferred that was rejected or resolved to a promise
    that is rejected: the event loop runs dry, and the promise
    [consolidate] returned is then rejected with the same reason, in the
    heap as it was. *)
Theorem consolidate_rejected (r : resolver) p reason s :
  quiescent s → outcome_of s (VProm p) = Failed reason →
  ∃ s1, consolidate (VProm p) r s = (Ok (VProm (length (cells s))), s1)
        ∧ (∃ k, quiescent (run k s1))
        ∧ ∀ k, quiescent (run k s1) →
               outcome_of (run k s1) (VProm (length (cells s))) = Failed reason
               ∧ heap (run k s1) = heap s.
Proof.
  intros Hq Hp. eexists. split; [by apply when_quiet|].
  destruct (follow_rejected (K_consolidate r) (heap s) reason _ _ _ Hp) as (n&q&Hrun&Hcell).
  split; [exists n; by rewrite Hrun|]. intros k Hk.
  rewrite (quiescent_same k n) by (by rewrite ?Hrun). rewrite Hrun.
  split; [|done]. rewrite outcome_fresh.
  destruct (length (cells s)); cbn [settled];
    by rewrite (lookup_app_l_Some _ _ _ _ Hcell).
Qed.

Lemma consolidate_rejected_witness :
  let s := State [Pending []; Resolved (VProm 2); Rejected (VStr "no")] [] [] in
  ∃ s1, consolidate (VProm 1) Deep s = (Ok (VProm (length (cells s))), s1)
        ∧ (∃ k, quiescent (run k s1))
        ∧ ∀ k, quiescent (run k s1) →
               outcome_of (run k s1) (VProm (length (cells s))) = Failed (VStr "no")
               ∧ heap (run k s1) = heap s.
Proof.
  apply (consolidate_rejected Deep 1 (VStr "no")
           (State [Pending []; Resolved (VProm 2); Rejected (VStr "no")] [] []));
    reflexivity.
Defined.

Lemma step_deliver_throw s x d k rest e s' :
  tasks s = Send x (MWhen d (Some k) None) :: rest →
  (∀ q, x ≠ VProm q) →
  apply_kont k x (State (cells s) (heap s) rest) = (Throw e, s') →
  step s = exec (resolve d (VProm (length (cells s'))))
                (State (cells s' ++ [Rejected e]) (heap s') (tasks s')).
Proof.
  intros Ht Hx Hk. unfold step. rewrite Ht.
  transitivity (exec (deliver_fulfilled x (MWhen d (Some k) None))
                  (State (cells s) (heap s) rest)).
  { destruct x; try done. by destruct (Hx p). }
  unfold exec, deliver_fulfilled, bind, catch. by rewrite Hk.
Qed.

Lemma array_reduce_throws dir callback that values basis s :
  (∀ r elems, values = VObj r → heap s !! r ≠ Some (OArray elems)) →
  ∃ message,
    array_reduce dir callback that values basis s = (Throw (VErr "TypeError" message), s).
Proof.
  intros Hv. unfold array_reduce, bind, gets, throw.
  destruct values; try (by eexists).
  destruct (heap s !! r) as [[]|] eqn:Hr; try (by eexists).
  by destruct (Hv r elems).
Qed.

Lemma lookup_at {A} (cs pre : list A) x post :
  (cs ++ pre ++ x :: post) !! (length cs + length pre) = Some x.
Proof. by rewrite app_assoc, <- length_app, lookup_fresh. Qed.

Lemma resolve_at cs pre ws post h ts d x :
  d = length cs + length pre →
  resolve d x (State (cs ++ pre ++ Pending ws :: post) h ts)
  = (Ok tt, State (cs ++ pre ++ Resolved x :: post) h (ts ++ (Send x <$> ws))).
Proof.
  intros ->. unfold resolve. cbn [cells heap tasks]. rewrite lookup_at.
  by rewrite (app_assoc cs pre), <- length_app, insert_fresh, <- app_assoc.
Qed.

(** X7: [reduceLeft] and [reduceRight] called while no task is queued, with
    a [that] that is no promise, on a value that is neither a promise nor
    an array nor an object with a prototype of its own (which could be an
    array, whose [reduce] the object would inherit): they do not throw but
    return a promise, and from the second turn on the event loop has run
    dry and the promise is rejected with a TypeError, in the heap as it
    was. *)
Theorem reducer_not_array dir values callback basis that s :
  quiescent s →
  (∀ q, that ≠ VProm q) → (∀ q, values ≠ VProm q) →
  (∀ r elems, values = VObj r → heap s !! r ≠ Some (OArray elems)) →
  (∀ r props proto, values = VObj r → heap s !! r = Some (OObject props proto) →
                    proto = None) →
  ∃ s1 message,
    reducer dir values callback basis that s = (Ok (VProm (length (cells s))), s1)
    ∧ ∀ k, 2 ≤ k →
           quiescent (run k s1)
           ∧ outcome_of (run k s1) (VProm (length (cells s)))
             = Failed (VErr "TypeError" message)
           ∧ heap (run k s1) = heap s.
Proof.
  intros Hq Hthat Hvalues Hna _. set (n := length (cells s)).
  destruct (array_reduce_throws dir callback that values basis
              (State (cells s ++ [Resolved (VProm (S n)); Pending []]) (heap s) []) Hna)
    as [message He].
  eexists _, message. split; [by apply when_quiet|]. fold n.
  assert (step (State (cells s ++ [Pending []]) (heap s)
                  [Send that (MWhen n (Some (K_that dir values callback basis)) None)])
          = State (cells s ++ [Resolved (VProm (S n)); Pending []]) (heap s)
                  [Send values (MWhen (S n) (Some (K_values dir callback basis that)) None)])
    as Hstep1.
  { erewrite step_deliver; [|done|done|].
    2:{ cbn [apply_kont cells heap]. by apply when_quiet. }
    cbn [cells]. rewrite length_app, Nat.add_1_r. cbn [length]. fold n.
    rewrite <- app_assoc. unfold exec.
    by rewrite (resolve_at (cells s) [] [] [Pending []]) by (cbn; lia). }
  assert (step (State (cells s ++ [Resolved (VProm (S n)); Pending []]) (heap s)
                  [Send values (MWhen (S n) (Some (K_values dir callback basis that)) None)])
          = State (cells s ++ [Resolved (VProm (S n)); Resolved (VProm (S (S n)));
                               Rejected (VErr "TypeError" message)]) (heap s) [])
    as Hstep2.
  { erewrite step_deliver_throw; [|done|done|].
    2:{ cbn [apply_kont cells heap]. apply He. }
    cbn [cells heap tasks]. rewrite length_app. cbn [length]. fold n.
    replace (n + 2) with (S (S n)) by lia. rewrite <- app_assoc. unfold exec.
    pose proof (resolve_at (cells s) [Resolved (VProm (S n))] []
                  [Rejected (VErr "TypeError" message)] (heap s) [] (S n)
                  (VProm (S (S n))) ltac:(cbn; lia)) as Hres.
    cbn [app] in Hres. cbn [app]. by rewrite Hres. }
  intros [|[|k]] Hk; [lia|lia|]. cbn [run]. rewrite Hstep1, Hstep2, run_quiescent by done.
  split; [done|]. split; [|done].
  unfold outcome_of. cbn [cells]. rewrite length_app. cbn [length]. fold n.
  replace (n + 3) with (S (S (S n))) by lia. cbn [settled].
  pose proof (lookup_at (cells s) [] (Resolved (VProm (S n)))
                [Resolved (VProm (S (S n))); Rejected (VErr "TypeError" message)]) as H0.
  pose proof (lookup_at (cells s) [Resolved (VProm (S n))] (Resolved (VProm (S (S n))))
                [Rejected (VErr "TypeError" message)]) as H1.
  pose proof (lookup_at (cells s) [Resolved (VProm (S n)); Resolved (VProm (S (S n)))]
                (Rejected (VErr "TypeError" message)) []) as H2.
  cbn [length app] in H0, H1, H2. fold n in H0, H1, H2.
  rewrite Nat.add_0_r in H0. rewrite Nat.add_1_r in H1.
  replace (n + 2) with (S (S n)) in H2 by lia.
  by rewrite H0, H1, H2.
Qed.

Lemma reducer_not_array_witness :
  let s := State [Pending []] [OObject [(Name "length", VNum 0)] None] [] in
  ∃ s1 message,
    reducer ReduceRight (VObj 0) add (VNum 0) VUndef s = (Ok (VProm (length (cells s))), s1)
    ∧ ∀ k, 2 ≤ k →
           quiescent (run k s1)
           ∧ outcome_of (run k s1) (VProm (length (cells s)))
             = Failed (VErr "TypeError" message)
           ∧ heap (run k s1) = heap s.
Proof.
  apply (reducer_not_array ReduceRight (VObj 0) add (VNum 0) VUndef
           (State [Pending []] [OObject [(Name "length", VNum 0)] None] [])).
  - reflexivity.
  - intros q. discriminate.
  - intros q. discriminate.
  - intros r elems [= <-]. discriminate.
  - intros r props proto [= <-] [= _ <-]. reflexivity.
Defined.

(** X5: [deep] called, before any promise is made and while no task is
    queued, on a value that is no promise and no error object, in a heap
    of dates, arrays and objects with no prototype of their own, whose
    members are primitive values and objects made before them, so that one
    object may be a member of several others: the event loop runs dry,
    and the promise is then fulfilled with the value itself and no object
    has changed. *)
Theorem deep_shared h v :
  heap_wf h → child_ok (length h) v →
  ∃ p s, deep v (State [] h []) = (Ok (VProm p), s)
    ∧ (∃ k, quiescent (run k s))
    ∧ ∀ k, quiescent (run k s) →
           outcome_of (run k s) (VProm p) = Fulfilled v ∧ heap (run k s) = h.
Proof. intros Hwf Hv. by apply deep_resolved. Qed.

Lemma deep_shared_witness :
  let h := [OArray [VNum 1; VNum 2];
            OObject [(Name "a", VObj 0); (Name "b", VObj 0)] None] in
  ∃ p s, deep (VObj 1) (State [] h []) = (Ok (VProm p), s)
    ∧ (∃ k, quiescent (run k s))
    ∧ ∀ k, quiescent (run k s) →
           outcome_of (run k s) (VProm p) = Fulfilled (VObj 1) ∧ heap (run k s) = h.
Proof.
  apply (deep_shared [OArray [VNum 1; VNum 2];
                      OObject [(Name "a", VObj 0); (Name "b", VObj 0)] None] (VObj 1)).
  - intros [|[|r]] o; cbn; intros [= <-]; cbn.
    + repeat constructor.
    + split; [done|]. repeat constructor.
  - cbn. lia.
Defined.

(** ** Forecasts: the forecast only grows *)

Lemma extends_refl φ : extends φ φ.
Proof. by split. Qed.

Lemma extends_trans φ1 φ2 φ3 : extends φ1 φ2 → extends φ2 φ3 → extends φ1 φ3.
Proof. intros [??] [??]. split; by etrans. Qed.

Lemma extends_fates φ φ' d e :
  extends φ φ' → fates φ !! d = Some e → fates φ' !! d = Some e.
Proof. intros [H _] ?. by eapply prefix_lookup_Some. Qed.

Lemma extends_level_of φ φ' d :
  extends φ φ' → d < length (levels φ) → level_of φ' d = level_of φ d.
Proof.
  intros [_ H] Hd. unfold level_of.
  destruct (lookup_lt_is_Some_2 _ _ Hd) as [n Hn].
  by rewrite Hn, (prefix_lookup_Some _ _ _ _ Hn H).
Qed.

Lemma extends_fate φ φ' x :
  extends φ φ' → target_ok (length (fates φ)) x → fate φ' x = fate φ x.
Proof.
  intros [H _] Hx. destruct x; try done. simpl in *.
  destruct (lookup_lt_is_Some_2 _ _ Hx) as [n Hn].
  by rewrite Hn, (prefix_lookup_Some _ _ _ _ Hn H).
Qed.

Lemma extends_level φ φ' x :
  extends φ φ' → target_ok (length (levels φ)) x → level φ' x = level φ x.
Proof.
  intros [_ H] Hx. destruct x; try done. simpl in *.
  destruct (lookup_lt_is_Some_2 _ _ Hx) as [n Hn].
  by rewrite Hn, (prefix_lookup_Some _ _ _ _ Hn H).
Qed.

Lemma below_le φ l l' : l ≤ l' → below φ l ≤ below φ l'.
Proof.
  intros Hl. unfold below. induction (levels φ) as [|x ls IH]; [done|].
  rewrite !filter_cons. repeat case_decide; simpl; lia.
Qed.

Lemma below_lt φ p l l' :
  levels φ !! p = Some l → l < l' → below φ l < below φ l'.
Proof.
  unfold below. revert p. induction (levels φ) as [|x ls IH]; intros p Hp Hl; [done|].
  rewrite !filter_cons. destruct p as [|p]; simpl in Hp.
  - injection Hp as ->. rewrite decide_False, decide_True by lia. simpl.
    pose proof (below_le (Forecast [] ls) l l' ltac:(lia)) as H. unfold below in H.
    simpl in H. lia.
  - specialize (IH p Hp Hl). repeat case_decide; simpl; lia.
Qed.

Lemma below_length φ l : below φ l ≤ length (levels φ).
Proof. unfold below. apply length_filter. Qed.

Section ForecastLemmas.
Variable hp : forecast → list cell → list obj → Prop.
Variable ok : forecast → kont → val → nat → Prop.
Variable cost : kont → val → nat.
Hypothesis ok_grows : ∀ φ φ' k v d,
  extends φ φ' → d < length (fates φ) → d < length (levels φ) →
  ok φ k v d → ok φ' k v d.

Lemma note_ok_grows φ φ' n n' x m :
  extends φ φ' → length (fates φ) = n → length (levels φ) = n → n ≤ n' →
  note_ok ok φ n x m → note_ok ok φ' n' x m.
Proof.
  intros Hg Hf Hl Hn (d&k&->&Hd&Hx&Hlt&Hk).
  exists d, k. split; [done|]. split; [lia|]. split; [by eapply target_ok_le|].
  rewrite (extends_fate φ φ'), (extends_level φ φ'), (extends_level_of φ φ')
    by (rewrite ?Hf, ?Hl; done).
  split; [done|]. destruct (fate φ x); [|by eapply extends_fates|done].
  eapply ok_grows; [done|lia|lia|done].
Qed.

Lemma cell_sound_grows φ φ' n n' p c :
  extends φ φ' → length (fates φ) = n → length (levels φ) = n → n ≤ n' → p < n →
  cell_sound φ n p c → cell_sound φ' n' p c.
Proof.
  intros Hg Hf Hl Hn Hp. destruct c; simpl; try done.
  - intros (Hx&He&Hlt).
    rewrite (extends_fate φ φ'), (extends_level φ φ'), (extends_level_of φ φ')
      by (rewrite ?Hf, ?Hl; done).
    split_and!; [by eapply target_ok_le|by eapply extends_fates|done].
  - by apply extends_fates.
Qed.

Lemma toll_grows φ φ' n x m :
  extends φ φ' → length (fates φ) = n → target_ok n x →
  toll cost φ' (Send x m) = toll cost φ (Send x m).
Proof. intros Hg <- Hx. simpl. by rewrite (extends_fate φ φ'). Qed.

Lemma owed_grows φ φ' p c :
  extends φ φ' → p < length (fates φ) → owed cost φ' p c = owed cost φ p c.
Proof.
  intros Hg Hp. destruct c; simpl; try done.
  apply sum_list_with_ext. intros m _.
  pose proof (extends_fate φ φ' (VProm p) Hg Hp) as H. simpl in H. by rewrite H.
Qed.

Lemma cells_owed_grows φ φ' cs :
  extends φ φ' → length (fates φ) = length cs →
  sum_list (imap (owed cost φ') cs) = sum_list (imap (owed cost φ) cs).
Proof.
  intros Hg Hl. apply sum_imap_ext. intros i x Hi. apply owed_grows; [done|].
  rewrite Hl. by eapply lookup_lt_Some.
Qed.

Lemma tasks_toll_grows φ φ' n ts :
  extends φ φ' → length (fates φ) = n →
  (∀ x m, Send x m ∈ ts → note_ok ok φ n x m) →
  sum_list_with (toll cost φ') ts = sum_list_with (toll cost φ) ts.
Proof.
  intros Hg Hl Hts. apply sum_list_with_ext. intros [x m] Hin.
  destruct (Hts x m Hin) as (?&?&_&_&?&_). by eapply toll_grows.
Qed.

Lemma new_owed φ n news :
  (∀ j c, news !! j = Some c → c = Pending [] ∨ ∃ e, c = Rejected e) →
  sum_list (imap (λ i, owed cost φ (n + i)) news) = 0.
Proof.
  revert n. induction news as [|c news IH]; intros n Hn; [done|].
  assert (∀ j c', news !! j = Some c' → c' = Pending [] ∨ ∃ e, c' = Rejected e) as Hn'.
  { intros j c' Hj. by apply (Hn (S j)). }
  destruct (Hn 0 c eq_refl) as [->|[e ->]]; simpl;
    (rewrite <- (IH (S n) Hn'); f_equal; apply imap_ext; intros; simpl; f_equal; lia).
Qed.

(** The deferred of the first message is resolved, after promises have
    been made and messages sent on its behalf. *)
Lemma land φ φ' s x d k rest nf nl news newtasks r h' :
  Sound hp ok φ s →
  tasks s = Send x (MWhen d (Some k) None) :: rest →
  fates φ' = fates φ ++ nf → levels φ' = levels φ ++ nl →
  length nf = length news → length nl = length news →
  (∀ y m, Send y m ∈ newtasks → note_ok ok φ' (length (cells s) + length news) y m) →
  (∀ j c, news !! j = Some c →
     (c = Pending [] ∧ ∃ y m, deferred m = length (cells s) + j ∧ Send y m ∈ newtasks)
     ∨ (∃ e, c = Rejected e ∧ fates φ' !! (length (cells s) + j) = Some (Failed e))) →
  target_ok (length (cells s) + length news) r →
  fates φ !! d = Some (fate φ' r) →
  level φ' r < level_of φ d →
  sum_list_with (toll cost φ') newtasks < toll cost φ (Send x (MWhen d (Some k) None)) →
  hp φ' (cells s ++ news) h' →
  hp φ' (<[d := Resolved r]> (cells s ++ news)) h' →
  Sound hp ok φ' (exec (resolve d r) (State (cells s ++ news) h' (rest ++ newtasks)))
  ∧ effort cost φ' (exec (resolve d r) (State (cells s ++ news) h' (rest ++ newtasks)))
    < effort cost φ s.
Proof.
  intros HS Ht Hf Hl Hnf Hnl HT HN Hr Hfate Hlevel HW Hh1 Hh2.
  set (n := length (cells s)) in *. set (nc := length news) in *.
  assert (extends φ φ') as Hg.
  { split; [rewrite Hf|rewrite Hl]; by apply prefix_app_r. }
  pose proof (so_fates _ _ _ _ HS) as Hlf. pose proof (so_levels _ _ _ _ HS) as Hll.
  fold n in Hlf, Hll.
  assert (note_ok ok φ n x (MWhen d (Some k) None)) as Hm0.
  { apply (so_tasks _ _ _ _ HS). rewrite Ht. by left. }
  assert (d < n) as Hd.
  { destruct Hm0 as (?&?&[= <- <-]&?&_). done. }
  assert (target_ok n x) as Hx.
  { by destruct Hm0 as (?&?&_&_&?&_). }
  assert (level_of φ' d = level_of φ d) as Hrd by (apply extends_level_of; [done|lia]).
  assert (fate φ' (VProm d) = fate φ' r) as Hev.
  { simpl. by rewrite (extends_fates _ _ _ _ Hg Hfate). }
  assert (∀ y m, Send y m ∈ rest → note_ok ok φ n y m) as Hrest.
  { intros. apply (so_tasks _ _ _ _ HS). rewrite Ht. by right. }
  assert (∀ y m, Send y m ∈ rest ++ newtasks → note_ok ok φ' (n + nc) y m) as Hts1.
  { intros y m [?|?]%elem_of_app; [|by eauto].
    eapply note_ok_grows; [done|done|done|lia|by eauto]. }
  assert (∀ p c, (cells s ++ news) !! p = Some c →
            (p < n ∧ cells s !! p = Some c)
            ∨ (n ≤ p ∧ p - n < nc ∧ news !! (p - n) = Some c)) as Hlook.
  { intros p c [?|[? Hc]]%lookup_app_Some.
    - left. split; [by eapply lookup_lt_Some|done].
    - right. fold n in Hc. split; [done|]. split; [|done]. by eapply lookup_lt_Some. }
  assert (∀ p c, news !! p = Some c → c = Pending [] ∨ ∃ e, c = Rejected e) as Hshape.
  { intros p c Hp. destruct (HN p c Hp) as [[-> _]|(e&->&_)]; eauto. }
  assert (length (cells s ++ news) = n + nc) as Hlen by (by rewrite length_app).
  assert (length (fates φ') = n + nc) as Hlf'.
  { rewrite Hf, length_app. lia. }
  assert (length (levels φ') = n + nc) as Hll'.
  { rewrite Hl, length_app. lia. }
  assert (∀ p c, (cells s ++ news) !! p = Some c → cell_sound φ' (n + nc) p c) as Hcells.
  { intros p c Hp. apply Hlook in Hp as [[? Hp]|(?&?&Hp)].
    - eapply cell_sound_grows; [done|done|done|lia|done|]. by apply (so_cells _ _ _ _ HS).
    - destruct (HN _ _ Hp) as [[-> _]|(e&->&He)]; [done|]. simpl.
      by replace (n + (p - n)) with p in He by lia. }
  assert (∀ p ws m, (cells s ++ news) !! p = Some (Pending ws) → m ∈ ws →
            note_ok ok φ' (n + nc) (VProm p) m) as Hwaiters.
  { intros p ws m Hp Hin. apply Hlook in Hp as [[? Hp]|(?&?&Hp)].
    - eapply note_ok_grows; [done|done|done|lia|]. by eapply (so_waiters _ _ _ _ HS).
    - destruct (HN _ _ Hp) as [[[= ->] _]|(e&?&_)]; [|done]. by apply elem_of_nil in Hin. }
  assert (sum_list_with (toll cost φ') (rest ++ newtasks)
          + sum_list (imap (owed cost φ') (cells s ++ news))
          < effort cost φ s) as Hwork1.
  { unfold effort. rewrite Ht. cbn [sum_list_with].
    rewrite sum_list_with_app, sum_imap_app, new_owed by done.
    rewrite (tasks_toll_grows φ φ' n rest), (cells_owed_grows φ φ') by done.
    lia. }
  destruct (cells s !! d) as [c|] eqn:Hc; [|apply lookup_ge_None in Hc; lia].
  assert ((cells s ++ news) !! d = Some c) as Hc1 by (by apply lookup_app_l_Some).
  assert ((∃ ws, c = Pending ws) ∨ ¬ ∃ ws, c = Pending ws) as [[ws ->]|Hnp].
  { destruct c; eauto; right; intros [? ?]; done. }
  - (* the deferred is pending *)
    unfold exec. erewrite resolve_pending by done. cbn [snd cells heap tasks]. split.
    + split; cbn [cells heap tasks]; rewrite ?length_insert, ?Hlen.
      * done.
      * done.
      * done.
      * intros p c Hp. apply list_lookup_insert_Some in Hp as [(<-&<-&_)|(Hne'&Hp)].
        -- simpl. rewrite Hrd. split_and!; [done|by eapply extends_fates|done].
        -- by apply Hcells.
      * intros y m [?|Hin]%elem_of_app; [by eauto|].
        apply list_elem_of_fmap in Hin as (m'&[= -> ->]&Hin).
        pose proof (so_waiters _ _ _ _ HS d ws m' Hc Hin) as Hw.
        eapply (note_ok_grows φ φ' n (n + nc)) in Hw; [|done|done|done|lia].
        destruct Hw as (d'&k'&->&?&?&Hlt&Hk). exists d', k'.
        split_and!; [done|done|done| |].
        ++ simpl in Hlt. fold (level_of φ' d) in Hlt. lia.
        ++ by rewrite <- Hev.
      * intros p ws' m Hp Hin.
        apply list_lookup_insert_Some in Hp as [(?&?&_)|(Hne'&Hp)]; [done|].
        by eapply Hwaiters.
      * intros d' ws' Hp.
        apply list_lookup_insert_Some in Hp as [(?&?&_)|(Hne'&Hp)]; [done|].
        apply Hlook in Hp as [[? Hp]|(?&?&Hp)].
        -- destruct (so_live _ _ _ _ HS d' ws' Hp) as (y&m&Hdm&[Hin|(p&ws''&Hp'&Hin)]).
           ++ rewrite Ht in Hin. apply elem_of_cons in Hin as [Heq|Hin].
              { injection Heq as -> ->. simpl in Hdm. congruence. }
              exists y, m. split; [done|]. left. rewrite !elem_of_app. by left; left.
           ++ destruct (decide (p = d)) as [->|].
              { rewrite Hc in Hp'. injection Hp' as <-.
                exists r, m. split; [done|]. left. rewrite !elem_of_app. right.
                apply list_elem_of_fmap. eauto. }
              exists y, m. split; [done|]. right. exists p, ws''. split; [|done].
              rewrite list_lookup_insert_ne by done. by apply lookup_app_l_Some.
        -- destruct (HN _ _ Hp) as [[_ (y&m&Hdm&Hin)]|(e&?&_)]; [|done].
           exists y, m. split; [lia|]. left. rewrite !elem_of_app. by left; right.
    + unfold effort. cbn [tasks cells]. rewrite sum_list_with_app.
      pose proof (sum_imap_insert (owed cost φ') _ d _ (Resolved r) Hc1) as Hs.
      cbn [owed] in Hs.
      assert (sum_list_with (toll cost φ') (Send r <$> ws)
              = sum_list_with (λ m, toll cost φ' (Send (VProm d) m)) ws) as Hun.
      { rewrite sum_list_with_fmap. apply sum_list_with_ext. intros m _.
        cbn [toll]. by rewrite Hev. }
      unfold effort in Hwork1. lia.
  - (* it has been resolved already *)
    unfold exec. rewrite resolve_settled by (simpl; intros ws; rewrite Hc1; naive_solver).
    cbn [snd]. split; [|done]. split; cbn [cells heap tasks]; rewrite ?Hlen.
    * done.
    * done.
    * done.
    * done.
    * done.
    * done.
    * intros d' ws' Hp. apply Hlook in Hp as [[? Hp]|(?&?&Hp)].
      -- destruct (so_live _ _ _ _ HS d' ws' Hp) as (y&m&Hdm&[Hin|(p&ws''&Hp'&Hin)]).
         ++ rewrite Ht in Hin. apply elem_of_cons in Hin as [Heq|Hin].
            { injection Heq as -> ->. simpl in Hdm. subst d'. exfalso. apply Hnp.
              rewrite Hc in Hp. injection Hp as ->. eauto. }
            exists y, m. split; [done|]. left. rewrite !elem_of_app. by left.
         ++ exists y, m. split; [done|]. right. exists p, ws''. split; [|done].
            by apply lookup_app_l_Some.
      -- destruct (HN _ _ Hp) as [[_ (y&m&Hdm&Hin)]|(e&?&_)]; [|done].
         exists y, m. split; [lia|]. left. rewrite !elem_of_app. by right.
Qed.
End ForecastLemmas.

(** ** Forecasts: every turn keeps the forecast, and the event loop runs dry *)

Lemma lookup_fresh_at {A} (l : list A) x l' n :
  length l = n → (l ++ x :: l') !! n = Some x.
Proof. intros <-. apply lookup_fresh. Qed.

Section ForecastRun.
Variable hp : forecast → list cell → list obj → Prop.
Variable ok : forecast → kont → val → nat → Prop.
Variable cost : kont → val → nat.
(** What the heap may be depends on the promises that are resolved and
    forecast to be fulfilled, and on nothing else of the store. *)
Hypothesis hp_mono : ∀ φ φ' cs cs' h,
  extends φ φ' → length (fates φ) = length cs → length (levels φ) = length cs →
  (∀ p x o, cs' !! p = Some (Resolved x) → fates φ' !! p = Some (Fulfilled o) →
            cs !! p = Some (Resolved x)) →
  hp φ cs h → hp φ' cs' h.
Hypothesis ok_grows : ∀ φ φ' k v d,
  extends φ φ' → d < length (fates φ) → d < length (levels φ) →
  ok φ k v d → ok φ' k v d.
Hypothesis ok_applies : ∀ φ cs h rest k v d,
  length (fates φ) = length cs → length (levels φ) = length cs → d < length cs →
  (∀ q, v ≠ VProm q) → hp φ cs h → ok φ k v d → applies hp ok cost φ cs h rest k v d.

(** A message for a pending promise is parked with it. *)
Lemma park_sound φ s p m rest ws :
  Sound hp ok φ s →
  tasks s = Send (VProm p) m :: rest →
  cells s !! p = Some (Pending ws) →
  Sound hp ok φ (step s) ∧ effort cost φ (step s) = effort cost φ s
  ∧ distance φ (tasks (step s)) < distance φ (tasks s).
Proof.
  intros HS Ht Hc. unfold step. rewrite Ht, Hc. unfold set_cells. cbn [cells heap tasks].
  assert (note_ok ok φ (length (cells s)) (VProm p) m) as Hm.
  { apply (so_tasks _ _ _ _ HS). rewrite Ht. by left. }
  split; [|split].
  - split; cbn [cells heap tasks]; rewrite ?length_insert.
    + apply (hp_mono φ φ (cells s)); [apply extends_refl|apply (so_fates _ _ _ _ HS)
        |apply (so_levels _ _ _ _ HS)| |apply (so_heap _ _ _ _ HS)].
      intros q x o Hq _. by apply list_lookup_insert_Some in Hq as [(_&?&_)|(_&Hq)].
    + apply (so_fates _ _ _ _ HS).
    + apply (so_levels _ _ _ _ HS).
    + intros q c Hq. apply list_lookup_insert_Some in Hq as [(_&<-&_)|(?&Hq)]; [done|].
      by apply (so_cells _ _ _ _ HS).
    + intros y m' Hin. apply (so_tasks _ _ _ _ HS). rewrite Ht. by right.
    + intros q ws' m' Hq Hin.
      apply list_lookup_insert_Some in Hq as [(<-&[= <-]&_)|(?&Hq)].
      * apply elem_of_app in Hin as [Hin|Hin%list_elem_of_singleton].
        -- by apply (so_waiters _ _ _ _ HS p ws).
        -- by subst.
      * by apply (so_waiters _ _ _ _ HS q ws').
    + intros d ws' Hd.
      assert (∃ ws0, cells s !! d = Some (Pending ws0)) as [ws0 Hd0].
      { apply list_lookup_insert_Some in Hd as [(<-&_&_)|(?&Hd)]; eauto. }
      assert (∀ q ws1 m1, cells s !! q = Some (Pending ws1) → m1 ∈ ws1 →
                ∃ q' ws', <[p:=Pending (ws ++ [m])]> (cells s) !! q' = Some (Pending ws')
                          ∧ m1 ∈ ws') as Hkeep.
      { intros q ws1 m1 Hq Hin. destruct (decide (q = p)) as [->|].
        - exists p, (ws ++ [m]). rewrite list_lookup_insert_eq by (by eapply lookup_lt_Some).
          split; [done|]. rewrite Hc in Hq. injection Hq as <-.
          apply elem_of_app. by left.
        - exists q, ws1. by rewrite list_lookup_insert_ne. }
      destruct (so_live _ _ _ _ HS d ws0 Hd0) as (y&m0&Hdm&[Hin|(q&ws1&Hq&Hin)]).
      * rewrite Ht in Hin. apply elem_of_cons in Hin as [[= -> ->]|Hin].
        -- exists (VProm p), m. split; [done|]. right. exists p, (ws ++ [m]).
           rewrite list_lookup_insert_eq by (by eapply lookup_lt_Some).
           split; [done|]. apply elem_of_app. right. by left.
        -- exists y, m0. split; [done|]. by left.
      * exists y, m0. split; [done|]. right. eauto.
  - unfold effort. cbn [cells tasks]. rewrite Ht. cbn [sum_list_with].
    pose proof (sum_imap_insert (owed cost φ) _ p _ (Pending (ws ++ [m])) Hc) as Hs.
    cbn [owed] in Hs. rewrite sum_list_with_app in Hs. cbn [sum_list_with] in Hs.
    lia.
  - unfold distance. cbn [sum_list_with]. lia.
Qed.

(** A message for a resolved promise is forwarded, to a target of lower
    level. *)
Lemma follow_sound φ s p m rest v :
  Sound hp ok φ s →
  tasks s = Send (VProm p) m :: rest →
  cells s !! p = Some (Resolved v) →
  Sound hp ok φ (step s) ∧ effort cost φ (step s) = effort cost φ s
  ∧ distance φ (tasks (step s)) < distance φ (tasks s).
Proof.
  intros HS Ht Hc. unfold step. rewrite Ht, Hc. unfold set_tasks. cbn [cells heap tasks].
  assert (note_ok ok φ (length (cells s)) (VProm p) m) as (d&k&->&Hd&Hp&Hlt&Hk).
  { apply (so_tasks _ _ _ _ HS). rewrite Ht. by left. }
  destruct (so_cells _ _ _ _ HS _ _ Hc) as (Hv&He&Hr).
  assert (fate φ (VProm p) = fate φ v) as Hev by (simpl; by rewrite He).
  assert (level φ (VProm p) = level_of φ p) as Hrp by done.
  split; [|split].
  - split; cbn [cells heap tasks].
    + apply (so_heap _ _ _ _ HS).
    + apply (so_fates _ _ _ _ HS).
    + apply (so_levels _ _ _ _ HS).
    + apply (so_cells _ _ _ _ HS).
    + intros y m' [Hin|Hin%list_elem_of_singleton]%elem_of_app.
      * apply (so_tasks _ _ _ _ HS). rewrite Ht. by right.
      * injection Hin as -> ->. exists d, k. split_and!; try done.
        -- lia.
        -- by rewrite <- Hev.
    + apply (so_waiters _ _ _ _ HS).
    + intros d' ws' Hd'.
      destruct (so_live _ _ _ _ HS d' ws' Hd') as (y&m0&Hdm&[Hin|?]).
      * rewrite Ht in Hin. apply elem_of_cons in Hin as [[= -> ->]|Hin].
        -- exists v, (MWhen d (Some k) None). split; [done|]. left.
           apply elem_of_app. right. by left.
        -- exists y, m0. split; [done|]. left. apply elem_of_app. by left.
      * exists y, m0. split; [done|]. by right.
  - unfold effort. cbn [cells tasks]. rewrite Ht, sum_list_with_app.
    cbn [sum_list_with toll]. rewrite Hev. lia.
  - unfold distance. rewrite sum_list_with_app. cbn [sum_list_with]. lia.
Qed.

(** A message for a rejected promise: its deferred follows the rejection. *)
Lemma refuse_sound φ s p m rest reason :
  Sound hp ok φ s →
  tasks s = Send (VProm p) m :: rest →
  cells s !! p = Some (Rejected reason) →
  Sound hp ok φ (step s) ∧ effort cost φ (step s) < effort cost φ s.
Proof.
  intros HS Ht Hc.
  assert (note_ok ok φ (length (cells s)) (VProm p) m) as (d&k&->&Hd&Hp&Hlt&Hk).
  { apply (so_tasks _ _ _ _ HS). rewrite Ht. by left. }
  pose proof (so_cells _ _ _ _ HS _ _ Hc) as He. simpl in He.
  assert (fate φ (VProm p) = Failed reason) as Hev by (simpl; by rewrite He).
  rewrite Hev in Hk.
  assert (step s
          = exec (resolve d (VProm p)) (State (cells s ++ []) (heap s) (rest ++ []))) as ->.
  { unfold step. rewrite Ht, Hc. by rewrite !app_nil_r. }
  apply (land hp ok cost ok_grows φ φ s (VProm p) d k rest [] [] [] [] (VProm p) (heap s)
           HS Ht).
  - by rewrite app_nil_r.
  - by rewrite app_nil_r.
  - done.
  - done.
  - by intros ?? ?%elem_of_nil.
  - by intros ?? ?.
  - simpl. simpl in Hp. lia.
  - by rewrite Hev.
  - done.
  - simpl. lia.
  - rewrite app_nil_r. apply (so_heap _ _ _ _ HS).
  - rewrite app_nil_r.
    apply (hp_mono φ φ (cells s)); [apply extends_refl|apply (so_fates _ _ _ _ HS)
      |apply (so_levels _ _ _ _ HS)| |apply (so_heap _ _ _ _ HS)].
    intros q x o Hq Hfq. apply list_lookup_insert_Some in Hq as [(<-&_&_)|(_&Hq)]; [|done].
    congruence.
Qed.

(** A message delivered to its callback. *)
Lemma deliver_sound φ s x d k rest :
  Sound hp ok φ s →
  tasks s = Send x (MWhen d (Some k) None) :: rest →
  (∀ q, x ≠ VProm q) →
  ∃ φ', extends φ φ' ∧ Sound hp ok φ' (step s)
        ∧ effort cost φ' (step s) < effort cost φ s.
Proof.
  intros HS Ht Hx.
  assert (note_ok ok φ (length (cells s)) x (MWhen d (Some k) None))
    as (d'&k'&[= <- <-]&Hd&_&Hlt&Hk).
  { apply (so_tasks _ _ _ _ HS). rewrite Ht. by left. }
  assert (fate φ x = Fulfilled x) as Hev by (destruct x; try done; by destruct (Hx p)).
  rewrite Hev in Hk.
  destruct (ok_applies φ (cells s) (heap s) rest k x d (so_fates _ _ _ _ HS)
              (so_levels _ _ _ _ HS) Hd Hx (so_heap _ _ _ _ HS) Hk)
    as [(e&Happ&He)|(r&nf&nl&newtasks&h'&Happ&Hh1&Hh2&Hnl&HT&HL&Hr&Hfr&Hlr&Hcost)].
  - (* the callback throws: a rejection is made for its deferred *)
    set (n := length (cells s)).
    set (φ' := Forecast (fates φ ++ [Failed e]) (levels φ ++ [0])).
    assert (extends φ φ') as Hg by (split; by apply prefix_app_r).
    exists φ'. split; [done|].
    assert (∀ cs', (cs' = cells s ++ [Rejected e]
                    ∨ cs' = <[d := Resolved (VProm n)]> (cells s ++ [Rejected e])) →
              hp φ' cs' (heap s)) as Hheap.
    { intros cs' Hcs'.
      apply (hp_mono φ φ' (cells s)); [done|apply (so_fates _ _ _ _ HS)
        |apply (so_levels _ _ _ _ HS)| |apply (so_heap _ _ _ _ HS)].
      intros q y o Hq Hfq.
      assert ((cells s ++ [Rejected e]) !! q = Some (Resolved y)) as Hq'.
      { destruct Hcs' as [->| ->]; [done|].
        apply list_lookup_insert_Some in Hq as [(<-&_&_)|(_&Hq)]; [|done].
        rewrite (extends_fates _ _ _ _ Hg He) in Hfq. done. }
      apply lookup_app_Some in Hq' as [?|[_ Hq']]; [done|].
      by apply list_lookup_singleton_Some in Hq' as [_ ?]. }
    rewrite (step_deliver_throw s x d k rest e _ Ht Hx Happ). cbn [cells heap tasks].
    rewrite <- (app_nil_r rest) at 1 2.
    apply (land hp ok cost ok_grows φ φ' s x d k rest [Failed e] [0] [Rejected e] []
             (VProm n) (heap s) HS Ht); try done; try (apply Hheap; by eauto).
    + by intros ?? ?%elem_of_nil.
    + intros [|j] c; [|done]. intros [= <-]. right. exists e. split; [done|].
      unfold φ'. cbn [fates]. rewrite Nat.add_0_r.
      by rewrite lookup_fresh_at by apply (so_fates _ _ _ _ HS).
    + simpl. fold n. lia.
    + unfold fate, φ'. cbn [fates]. unfold n.
      by rewrite lookup_fresh_at by apply (so_fates _ _ _ _ HS).
    + unfold level, φ'. cbn [levels]. unfold n.
      rewrite lookup_fresh_at by apply (so_levels _ _ _ _ HS). simpl. lia.
    + simpl. lia.
  - set (φ' := Forecast (fates φ ++ nf) (levels φ ++ nl)) in *.
    assert (extends φ φ') as Hg by (split; by apply prefix_app_r).
    exists φ'. split; [done|].
    rewrite (step_deliver s x d k rest r _ Ht Hx Happ).
    apply (land hp ok cost ok_grows φ φ' s x d k rest nf nl
             (replicate (length nf) (Pending [])) newtasks r h' HS Ht); try done.
    + by rewrite length_replicate.
    + by rewrite length_replicate.
    + by rewrite length_replicate.
    + intros j c [-> Hj]%lookup_replicate. left. split; [done|]. by apply HL.
    + by rewrite length_replicate.
    + cbn [toll]. rewrite Hev. lia.
Qed.

(** One turn keeps the forecast, with less left to do, or as much and the
    messages nearer to their targets. *)
Lemma step_sound φ s :
  Sound hp ok φ s → tasks s ≠ [] →
  ∃ φ', extends φ φ' ∧ Sound hp ok φ' (step s) ∧ nearer cost φ φ' s (step s).
Proof.
  intros HS Hne. destruct (tasks s) as [|[x m] rest] eqn:Ht; [done|].
  assert (note_ok ok φ (length (cells s)) x m) as Hm.
  { apply (so_tasks _ _ _ _ HS). rewrite Ht. by left. }
  assert ((∃ p, x = VProm p) ∨ ∀ q, x ≠ VProm q) as [[p ->]|Hx]
    by (destruct x; eauto).
  - destruct (cells s !! p) as [[ws|v|reason]|] eqn:Hc.
    + destruct (park_sound φ s p m rest ws HS Ht Hc) as (?&?&?).
      exists φ. split; [apply extends_refl|]. split; [done|]. by right.
    + destruct (follow_sound φ s p m rest v HS Ht Hc) as (?&?&?).
      exists φ. split; [apply extends_refl|]. split; [done|]. by right.
    + destruct (refuse_sound φ s p m rest reason HS Ht Hc) as (?&?).
      exists φ. split; [apply extends_refl|]. split; [done|]. by left.
    + destruct Hm as (?&?&_&_&Hp&_). simpl in Hp.
      apply lookup_ge_None in Hc. lia.
  - destruct Hm as (d&k&->&_).
    destruct (deliver_sound φ s x d k rest HS Ht Hx) as (φ'&?&?&?).
    exists φ'. split; [done|]. split; [done|]. by left.
Qed.

Lemma run_sound k : ∀ φ s, Sound hp ok φ s → ∃ φ', extends φ φ' ∧ Sound hp ok φ' (run k s).
Proof.
  induction k as [|k IH]; intros φ s HS; simpl.
  - exists φ. split; [apply extends_refl|done].
  - destruct (tasks s) eqn:Ht.
    + rewrite step_quiescent by done. by apply IH.
    + destruct (step_sound φ s HS) as (φ1&Hg1&HS1&_); [by rewrite Ht|].
      destruct (IH _ _ HS1) as (φ2&Hg2&HS2).
      exists φ2. split; [by eapply extends_trans|done].
Qed.

Lemma drain_sound w : ∀ far φ s,
  Sound hp ok φ s → effort cost φ s ≤ w → distance φ (tasks s) ≤ far →
  ∃ k, quiescent (run k s).
Proof.
  induction w as [w IHw] using lt_wf_ind.
  induction far as [far IHhp] using lt_wf_ind. intros φ s HS Hw Hhp.
  destruct (tasks s) eqn:Ht; [by exists 0|].
  destruct (step_sound φ s HS) as (φ'&_&HS'&[Hlt|[Heq Hlt]]); [by rewrite Ht| |].
  - assert (effort cost φ' (step s) < w) as Hlt' by lia.
    destruct (IHw _ Hlt' _ _ _ HS' (Nat.le_refl _) (Nat.le_refl _)) as [k Hk].
    by exists (S k).
  - rewrite Ht in Hlt.
    assert (distance φ' (tasks (step s)) < far) as Hlt' by lia.
    assert (effort cost φ' (step s) ≤ w) as Hw' by lia.
    destruct (IHhp _ Hlt' _ _ HS' Hw' (Nat.le_refl _)) as [k Hk].
    by exists (S k).
Qed.

(** Once the event loop has run dry no promise is left pending. *)
Lemma quiet_sound φ s :
  Sound hp ok φ s → quiescent s →
  ∀ p ws, cells s !! p ≠ Some (Pending ws).
Proof.
  intros HS Hq.
  assert (∀ rk p ws, level_of φ p < rk → cells s !! p ≠ Some (Pending ws)) as Hno.
  { induction rk as [|rk IH]; intros p ws Hrk Hp; [lia|].
    destruct (so_live _ _ _ _ HS p ws Hp) as (y&m&Hdm&[Hin|(p'&ws'&Hp'&Hin)]).
    - rewrite Hq in Hin. by apply elem_of_nil in Hin.
    - destruct (so_waiters _ _ _ _ HS p' ws' m Hp' Hin) as (d&k&->&_&_&Hlt&_).
      simpl in Hdm. subst d.
      change (level φ (VProm p')) with (level_of φ p') in Hlt.
      apply (IH p' ws'); [lia|done]. }
  intros p ws. apply (Hno (S (level_of φ p))). lia.
Qed.

(** With no promise pending, every promise has settled as forecast. *)
Lemma settled_sound φ s :
  Sound hp ok φ s → (∀ p ws, cells s !! p ≠ Some (Pending ws)) →
  ∀ fuel x,
    target_ok (length (cells s)) x →
    (∀ p, x = VProm p → below φ (S (level_of φ p)) ≤ fuel) →
    settled fuel (cells s) x = fate φ x.
Proof.
  intros HS Hall. induction fuel as [|fuel IH]; intros x Hx Hf.
  - destruct x; try done. simpl in Hx. specialize (Hf p eq_refl).
    destruct (lookup_lt_is_Some_2 _ _ Hx) as [c Hc]. simpl. rewrite Hc.
    pose proof (so_cells _ _ _ _ HS _ _ Hc) as Hcell.
    assert (∃ l, levels φ !! p = Some l) as [l Hl].
    { apply lookup_lt_is_Some. by rewrite (so_levels _ _ _ _ HS). }
    unfold level_of in Hf. rewrite Hl in Hf. simpl in Hf.
    pose proof (below_lt φ p l (S l) Hl ltac:(lia)). lia.
  - destruct x; try done. simpl in Hx. specialize (Hf p eq_refl).
    destruct (lookup_lt_is_Some_2 _ _ Hx) as [c Hc]. simpl. rewrite Hc.
    pose proof (so_cells _ _ _ _ HS _ _ Hc) as Hcell.
    destruct c as [ws|v|r].
    + by destruct (Hall p ws).
    + destruct Hcell as (Hv&He&Hlt). rewrite He. apply IH; [done|].
      intros q ->. simpl in Hv, Hlt.
      assert (∃ l, levels φ !! q = Some l) as [l Hl].
      { apply lookup_lt_is_Some. by rewrite (so_levels _ _ _ _ HS). }
      rewrite Hl in Hlt. simpl in Hlt. unfold level_of at 1. rewrite Hl. simpl.
      pose proof (below_lt φ q l (S l) Hl ltac:(lia)).
      pose proof (below_le φ (S l) (level_of φ p) ltac:(lia)).
      pose proof (below_lt φ q l (level_of φ p) Hl ltac:(lia)).
      assert (∃ l', levels φ !! p = Some l') as [l' Hl'].
      { apply lookup_lt_is_Some. by rewrite (so_levels _ _ _ _ HS). }
      pose proof (below_lt φ p l' (S l') Hl' ltac:(lia)) as Hp.
      unfold level_of in *. rewrite Hl' in *. simpl in *. lia.
    + simpl in Hcell. by rewrite Hcell.
Qed.

(** The event loop runs dry, and then no promise is left pending and
    every promise has settled as forecast. *)
Lemma forecast_holds φ s :
  Sound hp ok φ s →
  (∃ k, quiescent (run k s))
  ∧ ∀ k, quiescent (run k s) →
         ∃ φ', extends φ φ' ∧ Sound hp ok φ' (run k s)
               ∧ (∀ p ws, cells (run k s) !! p ≠ Some (Pending ws))
               ∧ ∀ x, target_ok (length (cells s)) x →
                      outcome_of (run k s) x = fate φ x.
Proof.
  intros HS. split; [by eapply drain_sound|].
  intros k Hk. destruct (run_sound k φ s HS) as (φ'&Hg&HS').
  exists φ'. split; [done|]. split; [done|]. split; [by eapply quiet_sound|].
  intros x Hx.
  assert (length (cells s) ≤ length (cells (run k s))) as Hlen.
  { rewrite <- (so_fates _ _ _ _ HS), <- (so_fates _ _ _ _ HS').
    destruct Hg as [Hg _]. by apply prefix_length. }
  rewrite <- (extends_fate φ φ' x Hg) by (by rewrite (so_fates _ _ _ _ HS)).
  unfold outcome_of. apply (settled_sound φ' (run k s) HS' (quiet_sound _ _ HS' Hk)).
  - by eapply target_ok_le.
  - intros p _. rewrite <- (so_levels _ _ _ _ HS'). apply below_length.
Qed.
End ForecastRun.

(** ** reducer: the messages of the array and the fold *)






(** ** reducer: the callbacks *)

Lemma fate_plain φ x : plain x → fate φ x = Fulfilled x.
Proof. intros Hx. destruct x; try done. by destruct (Hx p). Qed.

Lemma level_plain φ x : plain x → level φ x = 0.
Proof. intros Hx. destruct x; try done. by destruct (Hx p). Qed.

Lemma target_plain n x : plain x → target_ok n x.
Proof. intros Hx. destruct x; try done. by destruct (Hx p). Qed.

Lemma fate_fresh fs ls x nf nl :
  fate (Forecast (fs ++ x :: nf) (ls ++ nl)) (VProm (length fs)) = x.
Proof. unfold fate. cbn [fates]. by rewrite lookup_fresh. Qed.


Lemma elem_ok_grows φ φ' e : extends φ φ' → elem_ok φ e → elem_ok φ' e.
Proof.
  intros Hg [?|(q&o&l&->&Hq&Ho&Hl&Hle)]; [by left|]. right. exists q, o, l.
  split_and!; [done|by eapply extends_fates|done| |done].
  destruct Hg as [_ Hg]. by eapply prefix_lookup_Some.
Qed.

Lemma elem_ok_fate φ φ' e : extends φ φ' → elem_ok φ e → fate φ' e = fate φ e.
Proof.
  intros Hg [He|(q&o&l&->&Hq&_)].
  - by rewrite !fate_plain.
  - simpl. by rewrite Hq, (extends_fates _ _ _ _ Hg Hq).
Qed.



Lemma elem_ok_level φ e : elem_ok φ e → level φ e ≤ 1.
Proof.
  intros [He|(q&o&l&->&_&_&Hl&Hle)].
  - rewrite level_plain by done. lia.
  - simpl. by rewrite Hl.
Qed.

Lemma elem_ok_target φ n e : length (fates φ) = n → elem_ok φ e → target_ok n e.
Proof.
  intros <- [He|(q&o&l&->&Hq&_)]; [by apply target_plain|].
  simpl. by eapply lookup_lt_Some.
Qed.



Section Reducer.
Variable h : list obj.




End Reducer.

(** ** reducer: the fold over the array *)






Section ReducerValues.
Variable h : list obj.

End ReducerValues.


Lemma settled_cell_lookup cs q c :
  Forall settled_cell cs → cs !! q = Some c → settled_cell c.
Proof. intros Hc Hq. rewrite Forall_forall in Hc. apply Hc. by eapply list_elem_of_lookup_2. Qed.






(** ** shallow: the members and the loop *)

Lemma keys_members_length o : length (keys_of o) = length (members_of o).
Proof.
  destruct o; simpl; [by rewrite !length_fmap|by rewrite length_fmap, length_seq|done].
Qed.

Lemma with_members_id o : with_members o (members_of o) = o.
Proof. destruct o; simpl; [by rewrite zip_fst_snd|done|done]. Qed.

Lemma filter_unseen (l : list key) : filter (λ k, k ∉ []) l = l.
Proof.
  induction l as [|k l IH]; [done|]. rewrite filter_cons.
  rewrite decide_True by (by intros ?%elem_of_nil). by rewrite IH.
Qed.

Lemma assoc_zip_lookup keys l j i v :
  NoDup keys → keys !! j = Some i → l !! j = Some v → assoc i (zip keys l) = Some v.
Proof.
  intros Hnd. revert l j. induction Hnd as [|k keys Hk Hnd IH]; intros l j Hi Hv; [done|].
  destruct l as [|v' l]; [done|]. destruct j as [|j]; simpl in *.
  - injection Hi as ->. injection Hv as ->. by rewrite decide_True.
  - rewrite decide_False; [by eapply IH|].
    intros ->. apply Hk. by eapply list_elem_of_lookup_2.
Qed.

Lemma assoc_set_zip keys l j i v :
  NoDup keys → keys !! j = Some i → j < length l →
  assoc_set i v (zip keys l) = zip keys (<[j := v]> l).
Proof.
  intros Hnd. revert l j. induction Hnd as [|k keys Hk Hnd IH]; intros l j Hi Hj; [done|].
  destruct l as [|v' l]; [simpl in Hj; lia|]. destruct j as [|j]; simpl in *.
  - injection Hi as ->. by rewrite decide_True.
  - rewrite decide_False; [f_equal; apply IH; [done|lia]|].
    intros ->. apply Hk. by eapply list_elem_of_lookup_2.
Qed.

(** Writing a member under its key replaces that member. *)
Lemma assign_with_members o l j i v :
  NoDup (keys_of o) → keys_of o !! j = Some i → length l = length (members_of o) →
  assign (with_members o l) i v = with_members o (<[j := v]> l).
Proof.
  intros Hnd Hi Hl. pose proof (lookup_lt_Some _ _ _ Hi) as Hj.
  rewrite keys_members_length, <- Hl in Hj.
  destruct o as [props proto|elems|t]; simpl in *.
  - f_equal. by apply assoc_set_zip.
  - apply list_lookup_fmap_Some in Hi as (n&->&Hn).
    apply lookup_seq in Hn as [-> _]. simpl. by rewrite decide_True.
  - done.
Qed.

(** The members the loop visits. *)
Lemma kvs_zip h r o :
  h !! r = Some o → no_proto o → NoDup (keys_of o) →
  kvs h r = zip (keys_of o) (members_of o).
Proof.
  intros Hr Hno Hnd. unfold kvs.
  destruct o as [props proto|elems|t]; simpl in *.
  - subst proto.
    assert (for_in (length h) h r [] = props.*1) as ->.
    { destruct (length h); simpl; rewrite Hr; apply filter_unseen. }
    apply list_eq. intros j. rewrite list_lookup_fmap.
    destruct (props.*1 !! j) as [i|] eqn:Hi; simpl.
    + destruct (lookup_lt_is_Some_2 props.*2 j) as [v Hv].
      { rewrite length_fmap. apply lookup_lt_Some in Hi. by rewrite length_fmap in Hi. }
      rewrite (lookup_prop_plain _ _ _ _ _ Hr).
      rewrite <- (zip_fst_snd props) at 1.
      rewrite (assoc_zip_lookup _ _ j i v Hnd Hi Hv). simpl.
      symmetry. apply lookup_zip_with_Some. eauto.
    + symmetry. apply lookup_ge_None. rewrite length_zip_with.
      apply lookup_ge_None in Hi. lia.
  - assert (for_in (length h) h r [] = Index <$> seq 0 (length elems)) as ->.
    { destruct (length h); simpl; rewrite Hr; apply filter_unseen. }
    apply list_eq. intros j. rewrite !list_lookup_fmap.
    destruct (decide (j < length elems)) as [Hj|Hj].
    + rewrite lookup_seq_lt by done. simpl.
      destruct (lookup_lt_is_Some_2 elems j Hj) as [v Hv].
      rewrite (lookup_prop_array _ _ _ _ _ Hr), Hv. simpl.
      symmetry. apply lookup_zip_with_Some. exists (Index j), v.
      split; [done|]. split; [|done]. by rewrite list_lookup_fmap, lookup_seq_lt.
    + rewrite lookup_seq_ge by lia. simpl. symmetry. apply lookup_ge_None.
      rewrite length_zip_with, length_fmap, length_seq. lia.
  - destruct (length h); simpl; by rewrite Hr.
Qed.

Lemma loop_eq rs r keys : ∀ sync s,
  members rs (VObj r) keys sync s =
  (Ok (last_sync (length keys) (length (cells s)) sync),
   State (cells s ++ replicate (length keys) (Pending []))
         (heap s)
         (tasks s ++ loop_tasks rs (VObj r)
            ((λ k, (k, lookup_prop (length (heap s)) (heap s) r k)) <$> keys)
            (length (cells s)) sync)).
Proof.
  induction keys as [|k keys IH]; intros sync s.
  - simpl. rewrite !app_nil_r. by destruct s.
  - cbn [members]. unfold bind at 1. cbn [get_member gets].
    unfold bind at 1, when, bind, defer, enqueue, modify, ret. cbn.
    rewrite IH. cbn. rewrite length_app, Nat.add_1_r, <- !app_assoc. cbn.
    do 2 f_equal. destruct (length keys); simpl; f_equal; lia.
Qed.

Lemma loop_tasks_elem rs x l : ∀ n sync y m,
  Send y m ∈ loop_tasks rs x l n sync ↔
  ∃ j i c, l !! j = Some (i, c) ∧ y = last_sync j n sync
           ∧ m = MWhen (n + j) (Some (K_member rs x i c)) None.
Proof.
  induction l as [|[i c] l IH]; intros n sync y m; simpl.
  - split; [by intros ?%elem_of_nil|]. by intros (?&?&?&?&_).
  - rewrite elem_of_cons, IH. split.
    + intros [[= -> ->]|(j&i'&c'&Hj&->&->)].
      * exists 0, i, c. by rewrite Nat.add_0_r.
      * exists (S j), i', c'. split; [done|]. split.
        -- destruct j; simpl; f_equal; lia.
        -- f_equal. lia.
    + intros ([|j]&i'&c'&Hj&->&->); simpl in Hj.
      * left. injection Hj as -> ->. by rewrite Nat.add_0_r.
      * right. exists j, i', c'. split; [done|]. split.
        -- destruct j; simpl; f_equal; lia.
        -- f_equal. lia.
Qed.

Lemma loop_tasks_toll φ rs x l : ∀ n sync,
  sum_list_with (toll shallow_cost φ) (loop_tasks rs x l n sync) ≤ 2 * length l.
Proof.
  induction l as [|[i c] l IH]; intros n sync; [simpl; lia|].
  cbn [loop_tasks sum_list_with length]. specialize (IH (S n) (VProm n)).
  assert (toll shallow_cost φ (Send sync (MWhen n (Some (K_member rs x i c)) None)) ≤ 2).
  { cbn [toll]. destruct (fate φ sync); simpl; lia. }
  lia.
Qed.

Lemma first_rejected_snoc cs l c :
  first_rejected cs (l ++ [c]) =
  match first_rejected cs l with
  | Some e => Some e
  | None => rejection cs c
  end.
Proof.
  induction l as [|c' l IH]; simpl.
  - by destruct (rejection cs c).
  - by destruct (rejection cs c').
Qed.

Lemma first_rejected_S cs l j c :
  l !! j = Some c →
  first_rejected cs (take (S j) l) =
  match first_rejected cs (take j l) with
  | Some e => Some e
  | None => rejection cs c
  end.
Proof. intros Hj. by rewrite (take_S_r _ _ _ Hj), first_rejected_snoc. Qed.

Lemma first_rejected_take cs l j j' :
  j ≤ j' → first_rejected cs (take j' l) = None → first_rejected cs (take j l) = None.
Proof.
  revert j j'. induction l as [|c l IH]; intros j j' Hle.
  - by rewrite !take_nil.
  - destruct j' as [|j']; [by replace j with 0 by lia|].
    destruct j as [|j]; [done|]. simpl.
    destruct (rejection cs c); [done|]. apply IH. lia.
Qed.

Lemma resolve_members_length cs l : length (resolve_members cs l) = length l.
Proof.
  induction l as [|c l IH]; [done|]. simpl. destruct (rejection cs c); simpl; by rewrite ?IH.
Qed.

Lemma resolve_members_before cs l j c :
  l !! j = Some c → first_rejected cs (take (S j) l) = None →
  resolve_members cs l !! j = Some (value_of cs c).
Proof.
  revert j. induction l as [|c' l IH]; intros j Hj Hno; [done|].
  cbn [take first_rejected] in Hno. simpl.
  destruct (rejection cs c') eqn:Hc'; [done|].
  destruct j as [|j]; simpl in *; [by injection Hj as ->|]. by apply IH.
Qed.

Lemma resolve_members_after cs l j c :
  l !! j = Some c → first_rejected cs (take (S j) l) ≠ None →
  resolve_members cs l !! j = Some c.
Proof.
  revert j. induction l as [|c' l IH]; intros j Hj Hno; [done|].
  cbn [take first_rejected] in Hno. simpl.
  destruct (rejection cs c') eqn:Hc'; [done|].
  destruct j as [|j]; simpl in *.
  - by destruct l.
  - by apply IH.
Qed.

(** ** shallow: the callbacks *)

Lemma extends_fates_back φ φ' d x :
  extends φ φ' → d < length (fates φ) → fates φ' !! d = Some x → fates φ !! d = Some x.
Proof.
  intros [Hg _] Hd Hx. destruct (lookup_lt_is_Some_2 _ _ Hd) as [y Hy].
  pose proof (prefix_lookup_Some _ _ _ _ Hy Hg). congruence.
Qed.

Lemma extends_levels φ φ' d x :
  extends φ φ' → levels φ !! d = Some x → levels φ' !! d = Some x.
Proof. intros [_ Hg] Hx. by eapply prefix_lookup_Some. Qed.

Lemma extends_levels_back φ φ' d x :
  extends φ φ' → d < length (levels φ) → levels φ' !! d = Some x → levels φ !! d = Some x.
Proof.
  intros [_ Hg] Hd Hx. destruct (lookup_lt_is_Some_2 _ _ Hd) as [y Hy].
  pose proof (prefix_lookup_Some _ _ _ _ Hy Hg). congruence.
Qed.

Lemma extends_eta φ : extends φ (Forecast (fates φ) (levels φ)).
Proof. by destruct φ. Qed.

Section Shallow.
Variable cs0 : list cell.
Variable r : nat.
Variable o : obj.
Variable h0 : list obj.
Hypothesis Hr : r < length h0.
Hypothesis Hnd : NoDup (keys_of o).

Lemma shallow_ok_grows φ φ' k v d :
  extends φ φ' → d < length (fates φ) → d < length (levels φ) →
  shallow_ok cs0 r o φ k v d → shallow_ok cs0 r o φ' k v d.
Proof.
  intros Hg Hf Hl.
  destruct k as [|rs|rs object i c|object i|x| | | | | | | | | |]; simpl; try done.
  - destruct rs; [|done]. destruct object; try done.
    intros (->&j&?&?&?&He&?&?&?). split; [done|]. exists j.
    rewrite (elem_ok_fate φ φ') by done.
    split_and!; eauto using extends_fates, extends_levels, elem_ok_grows.
  - destruct object; try done.
    intros (->&j&c&?&?&?&?&?&?). split; [done|]. exists j, c.
    split_and!; eauto using extends_fates, extends_levels.
  - intros (?&?&?). split_and!; eauto using extends_fates, extends_levels.
Qed.

(** The members stay as they may be when promises are resolved as the
    loop resolves them and members are replaced by their values. *)
Lemma members_at_next φ φ' cs cs' l l' :
  extends φ φ' → length (fates φ) = length cs → length (levels φ) = length cs →
  members_at cs0 o φ cs l → length l' = length l →
  (∀ j c, members_of o !! j = Some c →
          l' !! j = l !! j
          ∨ (first_rejected cs0 (take (S j) (members_of o)) = None
             ∧ l' !! j = Some (value_of cs0 c))) →
  (∀ p x y, cs' !! p = Some (Resolved x) → fates φ' !! p = Some (Fulfilled y) →
            cs !! p = Some (Resolved x)
            ∨ ((∀ j, levels φ' !! p = Some (2 * j + 4) → j < length (members_of o) →
                     ∃ a, x = VProm a ∧ levels φ' !! a = Some (2 * j + 3))
               ∧ (∀ j c, levels φ' !! p = Some (2 * j + 3) →
                         members_of o !! j = Some c →
                         l' !! j = Some (value_of cs0 c)))) →
  members_at cs0 o φ' cs' l'.
Proof.
  intros Hg Hf Hl (Hlen&HA&HB&HC) Hlen' Hl' Hcs. split_and!.
  - congruence.
  - intros j c Hc. destruct (Hl' j c Hc) as [->|?]; [by apply HA|by right].
  - intros d x y j Hd Hfd Hld Hj. destruct (Hcs d x y Hd Hfd) as [Hd0|[H1 _]]; [|by apply H1].
    pose proof (lookup_lt_Some _ _ _ Hd0) as Hlt.
    destruct (HB d x y j Hd0) as (a&->&Ha); [|by eapply extends_levels_back; [|lia|]|done|].
    { eapply extends_fates_back; [done|lia|done]. }
    exists a. split; [done|]. by eapply extends_levels.
  - intros a x y j c Ha Hfa Hla Hc.
    destruct (Hcs a x y Ha Hfa) as [Ha0|[_ H2]]; [|by eapply H2].
    pose proof (lookup_lt_Some _ _ _ Ha0) as Hlt.
    assert (l !! j = Some (value_of cs0 c)) as Hj.
    { eapply (HC a x y j c); [done| | |done].
      - eapply extends_fates_back; [done|lia|done].
      - eapply extends_levels_back; [done|lia|done]. }
    destruct (Hl' j c Hc) as [->|[_ ?]]; done.
Qed.

Lemma shallow_heap_mono φ φ' cs cs' h :
  extends φ φ' → length (fates φ) = length cs → length (levels φ) = length cs →
  (∀ p x y, cs' !! p = Some (Resolved x) → fates φ' !! p = Some (Fulfilled y) →
            cs !! p = Some (Resolved x)) →
  shallow_heap cs0 r o h0 φ cs h → shallow_heap cs0 r o h0 φ' cs' h.
Proof.
  intros Hg Hf Hl Hcs (l&->&Hat). exists l. split; [done|].
  eapply (members_at_next φ φ' cs cs' l l); try done.
  - intros; by left.
  - intros p x y ??. left. by eapply Hcs.
Qed.

(** A promise of the store is resolved in a store that grew. *)
Lemma resolved_old (cs : list cell) n d c p x :
  (<[d := c]> (cs ++ replicate n (Pending []))) !! p = Some (Resolved x) →
  p ≠ d → cs !! p = Some (Resolved x).
Proof.
  intros Hp Hne. rewrite list_lookup_insert_ne in Hp by done.
  apply lookup_app_Some in Hp as [?|[_ Hp]]; [done|].
  by apply lookup_replicate in Hp as [? _].
Qed.

Lemma resolved_grown (cs : list cell) n p x :
  (cs ++ replicate n (Pending [])) !! p = Some (Resolved x) → cs !! p = Some (Resolved x).
Proof.
  intros Hp. apply lookup_app_Some in Hp as [?|[_ Hp]]; [done|].
  by apply lookup_replicate in Hp as [? _].
Qed.

Lemma applies_object φ cs h rest x v d :
  length (fates φ) = length cs → length (levels φ) = length cs → d < length cs →
  shallow_heap cs0 r o h0 φ cs h →
  shallow_ok cs0 r o φ (K_object x) v d →
  applies (shallow_heap cs0 r o h0) (shallow_ok cs0 r o) shallow_cost φ cs h rest
    (K_object x) v d.
Proof.
  intros Hf Hl Hd Hh (->&Hfate&Hlev). right. exists (VObj r), [], [], [], h.
  pose proof (extends_eta φ) as Hg.
  cbn [length replicate]. rewrite !app_nil_r.
  split_and!; try done.
  - destruct Hh as (l&->&Hat). exists l. split; [done|].
    eapply (members_at_next φ _ cs _ l l); try done.
    + intros; by left.
    + intros p x y Hp Hfp. destruct (decide (p = d)) as [->|Hne].
      * right. rewrite (extends_levels _ _ _ _ Hg Hlev). split.
        -- intros j [= ?] ?. lia.
        -- intros j c [= ?] ?. lia.
      * left. by rewrite list_lookup_insert_ne in Hp.
  - by intros ?? ?%elem_of_nil.
  - intros ? ?. lia.
  - unfold level_of. rewrite Hlev. simpl. lia.
Qed.

Lemma applies_assign φ cs h rest object i v d :
  length (fates φ) = length cs → length (levels φ) = length cs → d < length cs →
  shallow_heap cs0 r o h0 φ cs h →
  shallow_ok cs0 r o φ (K_assign object i) v d →
  applies (shallow_heap cs0 r o h0) (shallow_ok cs0 r o) shallow_cost φ cs h rest
    (K_assign object i) v d.
Proof.
  intros Hf Hl Hd (l&->&Hat) Hk. destruct object as [| | | | | | |r'|]; try done.
  destruct Hk as (->&j&c&Hi&Hc&Hno&->&Hfate&Hlev).
  pose proof Hat as (Hlen&HA&HB&HC).
  assert (j < length l) as Hj by (rewrite Hlen; by eapply lookup_lt_Some).
  pose proof (extends_eta φ) as Hg.
  right. exists VUndef, [], [], [], (<[r := with_members o (<[j := value_of cs0 c]> l)]> h0).
  cbn [length replicate]. rewrite !app_nil_r.
  assert (∀ j' c', members_of o !! j' = Some c' →
            <[j := value_of cs0 c]> l !! j' = l !! j'
            ∨ (first_rejected cs0 (take (S j') (members_of o)) = None
               ∧ <[j := value_of cs0 c]> l !! j' = Some (value_of cs0 c'))) as Hl'.
  { intros j' c' Hc'. destruct (decide (j' = j)) as [->|Hne].
    - right. rewrite Hc in Hc'. injection Hc' as <-.
      by rewrite list_lookup_insert_eq.
    - left. by rewrite list_lookup_insert_ne. }
  split_and!; try done.
  - cbn [apply_kont set_member_val]. unfold bind, set_member, modify, ret, set_heap.
    cbn [cells heap tasks]. rewrite list_lookup_insert_eq by done.
    rewrite list_insert_insert_eq.
    by rewrite (assign_with_members o l j i _ Hnd Hi Hlen).
  - eexists. split; [done|].
    eapply (members_at_next φ _ cs _ l); try done.
    + by rewrite length_insert.
    + intros p x y ??. by left.
  - eexists. split; [done|].
    eapply (members_at_next φ _ cs _ l); try done.
    + by rewrite length_insert.
    + intros p x y Hp Hfp. destruct (decide (p = d)) as [->|Hne].
      * right. rewrite (extends_levels _ _ _ _ Hg Hlev). split.
        -- intros j' [= ?] ?. lia.
        -- intros j' c' [= ?] Hc'. assert (j' = j) as -> by lia.
           rewrite Hc in Hc'. injection Hc' as <-. by rewrite list_lookup_insert_eq.
      * left. by rewrite list_lookup_insert_ne in Hp.
  - by intros ?? ?%elem_of_nil.
  - intros ? ?. lia.
  - unfold level_of. rewrite Hlev. simpl. lia.
Qed.

Lemma applies_member φ cs h rest object i c v d :
  length (fates φ) = length cs → length (levels φ) = length cs → d < length cs →
  shallow_heap cs0 r o h0 φ cs h →
  shallow_ok cs0 r o φ (K_member Shallow object i c) v d →
  applies (shallow_heap cs0 r o h0) (shallow_ok cs0 r o) shallow_cost φ cs h rest
    (K_member Shallow object i c) v d.
Proof.
  intros Hf Hl Hd Hh Hk. destruct object as [| | | | | | |r'|]; try done.
  destruct Hk as (->&j&Hi&Hc&Hno&He&Hfc&Hfate&Hlev).
  pose proof (first_rejected_S cs0 _ _ _ Hc) as HS. rewrite Hno in HS.
  set (F := sync_fate cs0 (members_of o) (S j)) in *.
  right. exists (VProm (length cs)), [F], [2 * j + 3],
    [Send c (MWhen (length cs) (Some (K_assign (VObj r) i)) None)], h.
  set (φ' := Forecast (fates φ ++ [F]) (levels φ ++ [2 * j + 3])).
  assert (extends φ φ') as Hg by (split; by apply prefix_app_r).
  assert (levels φ' !! length cs = Some (2 * j + 3)) as Hl1.
  { unfold φ'. cbn [levels]. by rewrite <- Hl, lookup_fresh. }
  assert (fates φ' !! length cs = Some F) as Hf1.
  { unfold φ'. cbn [fates]. by rewrite <- Hf, lookup_fresh. }
  assert (fate φ' c = store_fate cs0 c) as Hfc' by (by rewrite (elem_ok_fate φ φ')).
  split_and!.
  - done.
  - eapply shallow_heap_mono; try done. intros p x y Hp _. by eapply resolved_grown.
  - destruct Hh as (l&->&Hat). exists l. split; [done|].
    eapply (members_at_next φ φ' cs _ l l); try done.
    + intros; by left.
    + intros p x y Hp Hfp. destruct (decide (p = d)) as [->|Hne].
      * right. rewrite (extends_levels _ _ _ _ Hg Hlev).
        rewrite list_lookup_insert_eq in Hp by (rewrite length_app; lia).
        injection Hp as <-. split.
        -- intros j' [= ?] _. assert (j' = j) as -> by lia. by exists (length cs).
        -- intros j' c' [= ?] ?. lia.
      * left. by eapply resolved_old.
  - done.
  - intros y m [= -> ->]%list_elem_of_singleton.
    exists (length cs), (K_assign (VObj r) i).
    split_and!; [done|simpl; lia| | |].
    + eapply target_ok_le; [|by eapply elem_ok_target]. simpl. lia.
    + unfold level_of. rewrite Hl1. unfold default, id.
      pose proof (elem_ok_level φ' c (elem_ok_grows _ _ _ Hg He)). lia.
    + rewrite Hfc'. unfold store_fate. unfold F, sync_fate in Hf1. rewrite HS in Hf1.
      destruct (rejection cs0 c) as [e|] eqn:Hrej; [done|].
      cbn [shallow_ok]. split; [done|]. exists j, c. by rewrite HS.
  - intros [|j'] Hj'; [|simpl in Hj'; lia].
    eexists _, _. split; [|by left]. simpl. lia.
  - simpl. lia.
  - unfold fate. by rewrite Hf1.
  - unfold level, level_of. rewrite Hl1, Hlev. simpl. lia.
  - cbn [sum_list_with toll]. destruct (fate φ' c); simpl; lia.
Qed.

Lemma shallow_applies φ cs h rest k v d :
  length (fates φ) = length cs → length (levels φ) = length cs → d < length cs →
  (∀ q, v ≠ VProm q) → shallow_heap cs0 r o h0 φ cs h → shallow_ok cs0 r o φ k v d →
  applies (shallow_heap cs0 r o h0) (shallow_ok cs0 r o) shallow_cost φ cs h rest k v d.
Proof.
  intros Hf Hl Hd Hv Hh Hk. destruct k as [|rs|rs| | | | | | | | | | | |]; try done.
  - destruct rs; [|done]. by apply applies_member.
  - by apply applies_assign.
  - by apply applies_object.
Qed.
End Shallow.

(** ** shallow: the first turn *)

Lemma lookup_past {A} (l : list A) x l' n j :
  length l = n → (l ++ [x] ++ l') !! (n + 1 + j) = l' !! j.
Proof.
  intros <-. rewrite lookup_app_r by lia.
  by replace (length l + 1 + j - length l) with (S j) by lia.
Qed.

Lemma store_fate_settled cs c : store_fate cs c ≠ Unsettled.
Proof. unfold store_fate. by destruct (rejection cs c). Qed.

(** A member that is a value or a settled promise of the store, as a
    forecast that starts with the store sees it. *)
Lemma store_member φ cs c :
  (cell_outcome <$> cs) `prefix_of` fates φ → (cell_level <$> cs) `prefix_of` levels φ →
  Forall settled_cell cs → element cs c →
  elem_ok φ c ∧ fate φ c = store_fate cs c.
Proof.
  intros Hf Hl Hcs He.
  assert (plain c ∨ ∃ q, c = VProm q) as [Hp|[q ->]] by (destruct c; eauto; by left).
  - split; [by left|]. rewrite fate_plain by done. unfold store_fate.
    destruct c; try done. by destruct (Hp p).
  - simpl in He. destruct (lookup_lt_is_Some_2 _ _ He) as [cl Hc].
    pose proof (settled_cell_lookup _ _ _ Hcs Hc) as Hsc.
    assert (fates φ !! q = Some (cell_outcome cl)) as Hfq.
    { eapply prefix_lookup_Some; [|done]. by rewrite list_lookup_fmap, Hc. }
    assert (levels φ !! q = Some (cell_level cl)) as Hlq.
    { eapply prefix_lookup_Some; [|done]. by rewrite list_lookup_fmap, Hc. }
    split.
    + right. exists q, (cell_outcome cl), (cell_level cl).
      split_and!; [done|done|by destruct cl|done|destruct cl; simpl; lia].
    + cbn [fate]. rewrite Hfq. unfold store_fate. cbn [rejection value_of default].
      rewrite Hc. by destruct cl.
Qed.

Section ShallowStart.
Variable h : list obj.
Variable cs : list cell.
Variable r : nat.
Variable o : obj.
Hypothesis Hr : h !! r = Some o.
Hypothesis Hno : no_proto o.
Hypothesis Hnd : NoDup (keys_of o).
Hypothesis Hcs : Forall settled_cell cs.
Hypothesis Hel : Forall (element cs) (members_of o).

(** The first turn: the loop runs, and the promise of the call is
    resolved to the promise the loop ends with. *)
Lemma shallow_turn :
  (∀ t, o ≠ ODate t) →
  step (State (cs ++ [Pending []]) h
          [Send (VObj r) (MWhen (length cs) (Some (K_consolidate Shallow)) None)])
  = State (shallow_cells cs o) h (shallow_tasks cs r o).
Proof.
  intros Hnd'.
  assert (is_leaf h (VObj r) = false) as Hleaf.
  { unfold is_leaf. simpl. rewrite Hr. destruct o; try done. by destruct (Hnd' time). }
  pose proof (kvs_zip h r o Hr Hno Hnd) as Hkvs. unfold kvs in Hkvs.
  erewrite step_deliver; [|done|done|].
  2:{ cbn [apply_kont cells heap]. unfold bind at 1, gets. cbn [heap].
      unfold is_leaf in Hleaf. rewrite Hleaf. unfold bind at 1. rewrite loop_eq.
      cbn [cells heap tasks for_in_val]. rewrite Hkvs.
      unfold when, bind, defer, enqueue, modify, ret, set_cells, set_tasks. cbn.
      reflexivity. }
  assert (length (for_in (length h) h r []) = length (members_of o)) as Hlen.
  { rewrite <- (length_fmap (λ k, (k, lookup_prop (length h) h r k))), Hkvs.
    rewrite length_zip_with, keys_members_length. lia. }
  unfold exec. rewrite Hlen, !length_app, length_replicate. cbn [length].
  rewrite <- !app_assoc.
  cbn [app]. unfold resolve. cbn [cells heap tasks]. rewrite lookup_fresh, insert_fresh.
  cbn [snd fmap list_fmap]. rewrite app_nil_r.
  unfold shallow_cells, shallow_tasks. by rewrite replicate_add.
Qed.

Lemma shallow_cells_length :
  length (shallow_cells cs o) = length cs + 1 + length (members_of o) + 1.
Proof.
  unfold shallow_cells. rewrite !length_app, length_replicate. cbn [length]. lia.
Qed.

Lemma shallow_cells_lookup p c :
  shallow_cells cs o !! p = Some c →
  (p < length cs ∧ cs !! p = Some c)
  ∨ (p = length cs ∧ c = Resolved (VProm (length cs + 1 + length (members_of o))))
  ∨ (length cs < p ∧ c = Pending []).
Proof.
  unfold shallow_cells. intros [Hp|[Hge Hp]]%lookup_app_Some.
  - left. split; [by eapply lookup_lt_Some|done].
  - right. destruct (p - length cs) as [|p'] eqn:Hp'; simpl in Hp.
    + left. split; [lia|congruence].
    + right. apply lookup_replicate in Hp as [-> _]. split; [lia|done].
Qed.

Lemma shallow_forecast_store :
  (cell_outcome <$> cs) `prefix_of` fates (shallow_forecast cs r o)
  ∧ (cell_level <$> cs) `prefix_of` levels (shallow_forecast cs r o).
Proof. split; by apply prefix_app_r. Qed.

Lemma shallow_forecast_lengths :
  length (fates (shallow_forecast cs r o)) = length (shallow_cells cs o)
  ∧ length (levels (shallow_forecast cs r o)) = length (shallow_cells cs o).
Proof.
  rewrite shallow_cells_length. unfold shallow_forecast. cbn [fates levels].
  rewrite !length_app, !length_fmap, !length_seq. cbn [length]. lia.
Qed.

Lemma shallow_forecast_call :
  fates (shallow_forecast cs r o) !! length cs
  = Some (loop_fate cs (members_of o) (VObj r))
  ∧ levels (shallow_forecast cs r o) !! length cs
    = Some (2 * length (members_of o) + 5).
Proof.
  unfold shallow_forecast. cbn [fates levels]. split.
  - rewrite <- (length_fmap cell_outcome cs) at 1. apply lookup_fresh.
  - rewrite <- (length_fmap cell_level cs) at 1. apply lookup_fresh.
Qed.

Lemma shallow_forecast_sync j :
  j < length (members_of o) →
  fates (shallow_forecast cs r o) !! (length cs + 1 + j)
  = Some (sync_fate cs (members_of o) (S j))
  ∧ levels (shallow_forecast cs r o) !! (length cs + 1 + j) = Some (2 * j + 4).
Proof.
  intros Hj. unfold shallow_forecast. cbn [fates levels]. split.
  - rewrite lookup_past by (by rewrite length_fmap).
    rewrite lookup_app_l by (by rewrite length_fmap, length_seq).
    by rewrite list_lookup_fmap, lookup_seq_lt.
  - rewrite lookup_past by (by rewrite length_fmap).
    rewrite lookup_app_l by (by rewrite length_fmap, length_seq).
    by rewrite list_lookup_fmap, lookup_seq_lt.
Qed.

Lemma shallow_forecast_end :
  fates (shallow_forecast cs r o) !! (length cs + 1 + length (members_of o))
  = Some (loop_fate cs (members_of o) (VObj r))
  ∧ levels (shallow_forecast cs r o) !! (length cs + 1 + length (members_of o))
    = Some (2 * length (members_of o) + 4).
Proof.
  unfold shallow_forecast. cbn [fates levels]. split.
  - rewrite lookup_past by (by rewrite length_fmap).
    rewrite lookup_app_r by (rewrite length_fmap, length_seq; lia).
    by rewrite length_fmap, length_seq, Nat.sub_diag.
  - rewrite lookup_past by (by rewrite length_fmap).
    rewrite lookup_app_r by (rewrite length_fmap, length_seq; lia).
    by rewrite length_fmap, length_seq, Nat.sub_diag.
Qed.

Lemma shallow_forecast_cell p c :
  cs !! p = Some c →
  fates (shallow_forecast cs r o) !! p = Some (cell_outcome c)
  ∧ levels (shallow_forecast cs r o) !! p = Some (cell_level c).
Proof.
  intros Hp. destruct shallow_forecast_store as [Hf Hl]. split.
  - eapply prefix_lookup_Some; [|done]. by rewrite list_lookup_fmap, Hp.
  - eapply prefix_lookup_Some; [|done]. by rewrite list_lookup_fmap, Hp.
Qed.

Lemma sync_fate_S j c :
  members_of o !! j = Some c →
  sync_fate cs (members_of o) (S j)
  = match sync_fate cs (members_of o) j with
    | Failed e => Failed e
    | _ => match rejection cs c with Some e => Failed e | None => Fulfilled VUndef end
    end.
Proof.
  intros Hc. unfold sync_fate. rewrite (first_rejected_S _ _ _ _ Hc).
  by destruct (first_rejected cs (take j (members_of o))).
Qed.

Lemma shallow_sound :
  (∀ t, o ≠ ODate t) →
  Sound (shallow_heap cs r o h) (shallow_ok cs r o) (shallow_forecast cs r o)
    (State (shallow_cells cs o) h (shallow_tasks cs r o)).
Proof.
  intros Hnd'.
  set (φ := shallow_forecast cs r o). set (n := length cs).
  set (m := length (members_of o)).
  destruct shallow_forecast_store as [Hpf Hpl].
  destruct shallow_forecast_lengths as [Hlf Hll].
  destruct shallow_forecast_call as [Hfc Hlc].
  destruct shallow_forecast_end as [Hfe Hle].
  pose proof shallow_cells_length as Hlen.
  fold φ n m in Hpf, Hpl, Hlf, Hll, Hfc, Hlc, Hfe, Hle, Hlen.
  assert (∀ j, j < m →
            fates φ !! (n + 1 + j) = Some (sync_fate cs (members_of o) (S j))
            ∧ levels φ !! (n + 1 + j) = Some (2 * j + 4)) as Hsj
    by exact shallow_forecast_sync.
  assert (∀ j, j ≤ m → fate φ (last_sync j (n + 1) VUndef) = sync_fate cs (members_of o) j)
    as Hsync.
  { intros [|j] Hj; [done|]. cbn [last_sync fate].
    by destruct (Hsj j ltac:(done)) as [-> _]. }
  assert (∀ j, j ≤ m → level φ (last_sync j (n + 1) VUndef) < 2 * j + 4) as Hsl.
  { intros [|j] Hj; cbn [last_sync level]; [lia|].
    destruct (Hsj j ltac:(done)) as [_ ->]. simpl. lia. }
  assert (∀ j, j ≤ m → target_ok (n + 1 + m + 1) (last_sync j (n + 1) VUndef)) as Htgt.
  { intros [|j] Hj; cbn [last_sync]; [done|]. simpl. lia. }
  split; cbn [cells heap tasks]; rewrite ?Hlen.
  - exists (members_of o). rewrite with_members_id, list_insert_id by done.
    split; [done|]. split_and!.
    + done.
    + intros; by left.
    + intros d x y j Hd Hfd Hld Hj.
      apply shallow_cells_lookup in Hd as [[_ Hd]|[[-> _]|[_ ?]]]; [| |done].
      * destruct (shallow_forecast_cell d _ Hd) as [_ Hl]. fold φ in Hl.
        rewrite Hl in Hld. injection Hld as Hld. destruct x; simpl in Hld; lia.
      * fold n in Hld. rewrite Hlc in Hld. injection Hld as Hld. lia.
    + intros a x y j c Ha Hfa Hla Hc.
      pose proof (lookup_lt_Some _ _ _ Hc) as Hj.
      apply shallow_cells_lookup in Ha as [[_ Ha]|[[-> _]|[_ ?]]]; [| |done].
      * destruct (shallow_forecast_cell a _ Ha) as [_ Hl]. fold φ in Hl.
        rewrite Hl in Hla. injection Hla as Hla. simpl in Hla. lia.
      * fold n in Hla. rewrite Hlc in Hla. injection Hla as Hla. fold m in Hj. lia.
  - by rewrite Hlf.
  - by rewrite Hll.
  - intros p c Hp.
    apply shallow_cells_lookup in Hp as [[Hlt Hp]|[[-> ->]|[_ ->]]]; [| |done].
    + pose proof (settled_cell_lookup _ _ _ Hcs Hp) as Hsc.
      destruct (shallow_forecast_cell p _ Hp) as [Hf Hl]. fold φ in Hf, Hl.
      destruct c as [ws|v|x]; [done| |done]. cbn [cell_sound].
      unfold level_of. rewrite Hf, Hl, fate_plain, level_plain by done.
      split_and!; [by apply target_plain|done|simpl; lia].
    + cbn [cell_sound fate level]. fold n m. unfold level_of.
      rewrite Hfc, Hfe, Hlc, Hle. split_and!; [cbn [target_ok]; lia|done|simpl; lia].
  - intros x msg [Hin|Hin%list_elem_of_singleton]%elem_of_app.
    + apply loop_tasks_elem in Hin as (j&i&c&Hj&->&->).
      apply lookup_zip_with_Some in Hj as (i'&c'&[= <- <-]&Hi&Hc).
      assert (j < m) as Hjm by (by eapply lookup_lt_Some).
      destruct (Hsj j Hjm) as [Hfj Hlj].
      assert (element cs c) as Helc.
      { rewrite Forall_forall in Hel. apply Hel. by eapply list_elem_of_lookup_2. }
      destruct (store_member φ cs c Hpf Hpl Hcs Helc) as [Hok Hfate].
      exists (n + 1 + j), (K_member Shallow (VObj r) i c).
      split_and!; [done|lia|eapply target_ok_le; [|by apply (Htgt j); lia]; lia| |].
      * unfold level_of. rewrite Hlj. simpl. apply Hsl. lia.
      * rewrite Hsync by lia.
        destruct (sync_fate cs (members_of o) j) eqn:Hsf.
        -- cbn [shallow_ok]. split; [done|]. exists j. split_and!; try done.
           unfold sync_fate in Hsf.
           by destruct (first_rejected cs (take j (members_of o))).
        -- by rewrite Hfj, (sync_fate_S j c Hc), Hsf.
        -- unfold sync_fate in Hsf.
           by destruct (first_rejected cs (take j (members_of o))).
    + injection Hin as -> ->. exists (n + 1 + m), (K_object (VObj r)).
      split_and!; [done|lia|eapply target_ok_le; [|by apply (Htgt m)]; lia| |].
      * unfold level_of. rewrite Hle. simpl. apply Hsl. lia.
      * rewrite Hsync by lia. unfold sync_fate. unfold m. rewrite firstn_all.
        unfold loop_fate in Hfe.
        destruct (first_rejected cs (members_of o)); [done|]. done.
  - intros p ws msg Hp Hin.
    apply shallow_cells_lookup in Hp as [[_ Hp]|[[_ ?]|[_ [= ->]]]]; [|done|].
    + by pose proof (settled_cell_lookup _ _ _ Hcs Hp).
    + by apply elem_of_nil in Hin.
  - intros d ws Hd.
    pose proof (lookup_lt_Some _ _ _ Hd) as Hdl. rewrite Hlen in Hdl.
    apply shallow_cells_lookup in Hd as [[_ Hd]|[[_ ?]|[Hgt _]]]; [|done|].
    + by pose proof (settled_cell_lookup _ _ _ Hcs Hd).
    + destruct (decide (d - (n + 1) < m)) as [Hj|Hj].
      * destruct (lookup_lt_is_Some_2 (zip (keys_of o) (members_of o)) (d - (n + 1)))
          as [[i c] Hic].
        { rewrite length_zip_with, keys_members_length. fold m. lia. }
        exists (last_sync (d - (n + 1)) (n + 1) VUndef),
          (MWhen d (Some (K_member Shallow (VObj r) i c)) None).
        split; [done|]. left. apply elem_of_app. left. apply loop_tasks_elem.
        exists (d - (n + 1)), i, c. split_and!; [done|done|]. f_equal. fold n in Hgt. lia.
      * eexists _, _. split; [|left; apply elem_of_app; right; by left].
        simpl. fold n m. fold n in Hgt. lia.
Qed.
End ShallowStart.

(** ** shallow: the members are replaced by their values *)

(** Once the event loop has run dry every member before the first
    rejected one has been replaced. *)
Lemma members_final h cs r o φ s l :
  extends (shallow_forecast cs r o) φ →
  Sound (shallow_heap cs r o h) (shallow_ok cs r o) φ s →
  (∀ p ws, cells s !! p ≠ Some (Pending ws)) →
  members_at cs o φ (cells s) l →
  l = resolve_members cs (members_of o).
Proof.
  intros Hg HS Hquiet (Hlen&HA&HB&HC). apply list_eq. intros j.
  destruct (members_of o !! j) as [c|] eqn:Hc.
  2:{ apply lookup_ge_None in Hc.
      rewrite !lookup_ge_None_2; [done|rewrite resolve_members_length; lia|lia]. }
  pose proof (lookup_lt_Some _ _ _ Hc) as Hj.
  destruct (first_rejected cs (take (S j) (members_of o))) as [e|] eqn:Hfr.
  { rewrite (resolve_members_after _ _ _ _ Hc) by (by rewrite Hfr).
    destruct (HA j c Hc) as [?|[? _]]; [done|congruence]. }
  rewrite (resolve_members_before _ _ _ _ Hc Hfr).
  destruct (shallow_forecast_sync cs r o j Hj) as [Hfj Hlj].
  unfold sync_fate in Hfj. rewrite Hfr in Hfj.
  apply (extends_fates _ _ _ _ Hg) in Hfj. apply (extends_levels _ _ _ _ Hg) in Hlj.
  assert (∀ p y, fates φ !! p = Some (Fulfilled y) → ∃ x, cells s !! p = Some (Resolved x))
    as Hres.
  { intros p y Hp.
    destruct (lookup_lt_is_Some_2 (cells s) p) as [[ws|x|e] Hcell].
    - rewrite <- (so_fates _ _ _ _ HS). by eapply lookup_lt_Some.
    - by destruct (Hquiet p ws).
    - by exists x.
    - pose proof (so_cells _ _ _ _ HS _ _ Hcell) as Hcs. simpl in Hcs. congruence. }
  destruct (Hres _ _ Hfj) as [x Hx].
  destruct (HB _ x _ j Hx Hfj Hlj Hj) as (a&->&Hla).
  destruct (so_cells _ _ _ _ HS _ _ Hx) as (Ha&Hfa&_).
  rewrite Hfj in Hfa. injection Hfa as Hfa. cbn [fate] in Hfa.
  destruct (fates φ !! a) as [fa|] eqn:Hfa'; [|done]. simpl in Hfa. subst fa.
  destruct (Hres _ _ Hfa') as [y Hy].
  by eapply (HC a y _ j c).
Qed.

(** X4: [shallow] called, while no task is queued and every promise made
    so far is fulfilled with a value or rejected, on an array, or on an
    object with no inherited member none of whose keys may be an array
    index, so that the loop visits its members in the order in which they
    were added, whose members are values or such promises.  The event
    loop runs dry, and
    then each member before the first rejected one has been replaced, in
    the object itself, by the value its promise is fulfilled with, and the
    members from the first rejected one on are as they were; nothing else
    in the heap has changed.  The promise [shallow] returned is rejected
    with the reason of the first rejected member, and fulfilled with the
    object itself when no member is rejected. *)
Theorem shallow_settled h cs r o :
  h !! r = Some o → no_proto o → named o → NoDup (keys_of o) →
  Forall settled_cell cs → Forall (element cs) (members_of o) →
  ∃ s, shallow (VObj r) (State cs h []) = (Ok (VProm (length cs)), s)
    ∧ (∃ k, quiescent (run k s))
    ∧ ∀ k, quiescent (run k s) →
           outcome_of (run k s) (VProm (length cs))
           = match first_rejected cs (members_of o) with
             | Some e => Failed e
             | None => Fulfilled (VObj r)
             end
           ∧ heap (run k s)
             = <[r := with_members o (resolve_members cs (members_of o))]> h.
Proof.
  intros Hr Hno _ Hnd Hcs Hel.
  set (s0 := State (cs ++ [Pending []]) h
               [Send (VObj r) (MWhen (length cs) (Some (K_consolidate Shallow)) None)]).
  exists s0. split; [done|].
  assert ((∃ t, o = ODate t) ∨ ∀ t, o ≠ ODate t) as [[t ->]|Hnd'].
  { destruct o; eauto; right; intros ?; discriminate. }
  - (* a date is returned as it is *)
    assert (step s0 = State (cs ++ [Resolved (VObj r)]) h []) as Hstep.
    { unfold s0. erewrite step_deliver; [|done|done|].
      2:{ cbn [apply_kont cells heap]. unfold bind, gets. cbn [heap].
          cbn [typeof]. simpl. rewrite Hr. simpl. reflexivity. }
      unfold exec, resolve. cbn [cells heap tasks]. by rewrite lookup_fresh, insert_fresh. }
    split; [exists 1; simpl; by rewrite Hstep|].
    intros [|k] Hk; [done|]. simpl in Hk |- *. rewrite Hstep in Hk |- *.
    rewrite run_quiescent by done. split.
    + rewrite outcome_fresh. by rewrite settled_plain.
    + cbn [heap members_of resolve_members with_members]. by rewrite list_insert_id.
  - assert (step s0 = State (shallow_cells cs o) h (shallow_tasks cs r o)) as Hstep
      by (by apply shallow_turn).
    pose proof (shallow_sound h cs r o Hr Hcs Hel Hnd') as HS.
    destruct (forecast_holds (shallow_heap cs r o h) (shallow_ok cs r o) shallow_cost
                (shallow_heap_mono cs r o h (lookup_lt_Some _ _ _ Hr))
                (shallow_ok_grows cs r o)
                (shallow_applies cs r o h (lookup_lt_Some _ _ _ Hr) Hnd) _ _ HS)
      as [[k1 Hk1] Hall].
    split; [exists (S k1); simpl; by rewrite Hstep|].
    intros [|k] Hk; [done|]. simpl in Hk |- *. rewrite Hstep in Hk |- *.
    destruct (Hall k Hk) as (φ'&Hg&HS'&Hquiet&Hout). split.
    + rewrite Hout.
      * cbn [fate]. by destruct (shallow_forecast_call cs r o) as [-> _].
      * cbn [target_ok cells]. rewrite shallow_cells_length. lia.
    + destruct (so_heap _ _ _ _ HS') as (l&->&Hat).
      by rewrite (members_final h cs r o φ' _ l Hg HS' Hquiet Hat).
Qed.

Lemma shallow_settled_witness :
  let o := OObject [(Name "a", VNum 1); (Name "b", VProm 0); (Name "c", VObj 0);
                    (Name "d", VProm 1); (Name "e", VProm 2)] None in
  let h := [OArray [VProm 7]; o] in
  let cs := [Resolved (VNum 2); Rejected (VStr "no"); Resolved (VNum 5)] in
  ∃ s, shallow (VObj 1) (State cs h []) = (Ok (VProm (length cs)), s)
    ∧ (∃ k, quiescent (run k s))
    ∧ ∀ k, quiescent (run k s) →
           outcome_of (run k s) (VProm (length cs))
           = match first_rejected cs (members_of o) with
             | Some e => Failed e
             | None => Fulfilled (VObj 1)
             end
           ∧ heap (run k s)
             = <[1 := with_members o (resolve_members cs (members_of o))]> h.
Proof.
  apply (shallow_settled
           [OArray [VProm 7];
            OObject [(Name "a", VNum 1); (Name "b", VProm 0); (Name "c", VObj 0);
                     (Name "d", VProm 1); (Name "e", VProm 2)] None]
           [Resolved (VNum 2); Rejected (VStr "no"); Resolved (VNum 5)] 1
           (OObject [(Name "a", VNum 1); (Name "b", VProm 0); (Name "c", VObj 0);
                     (Name "d", VProm 1); (Name "e", VProm 2)] None)).
  - reflexivity.
  - reflexivity.
  - cbn. repeat constructor.
  - apply (bool_decide_unpack _). vm_compute. reflexivity.
  - constructor; [intros ?; discriminate|]. constructor; [exact I|].
    constructor; [intros ?; discriminate|]. constructor.
  - cbn. repeat (constructor; [first [exact I | cbn; lia]|]). constructor.
Defined.
